(** * The default module port of JerryScript: resolver and module registry

    A shallow embedding of [jerry-port/default/default-module.c] and the
    properties of its module cache.

    Layout of the development:
    - C strings and the two path helpers;
    - the values of the engine API, the process state (heap, registry,
      collaborators) and a state monad in which undefined behaviour of the
      C program is the absence of a result;
    - the functions of the file, in source order;
    - the properties. *)

From stdpp Require Import base option list strings gmap fin_maps.
From Stdlib Require Import Ascii String ZArith Lia.

(** ** Platform

    Everything that is fixed when the port is built: whether [_WIN32] is
    defined, and the collaborators that are pure functions of their
    arguments. *)

(** Modelled from the spec: the error types of the engine API
    ([jerry_error_t]). *)
Inductive jerry_error_t :=
| JERRY_ERROR_COMMON
| JERRY_ERROR_EVAL
| JERRY_ERROR_RANGE
| JERRY_ERROR_REFERENCE
| JERRY_ERROR_SYNTAX
| JERRY_ERROR_TYPE
| JERRY_ERROR_URI.

#[global] Instance jerry_error_t_eq_dec : EqDecision jerry_error_t.
Proof. solve_decision. Defined.

(** Modelled from the spec: the two external primitives the resolver is built
    on, which are not part of the file. [cwk_path_get_absolute base path] is
    the path-math primitive of the cwalk library: the text it produces for a
    base directory and a path (its return value is the length of that text).
    [parse_module source resource_name] is the verdict of the engine's
    parser on a module source: [None] when the source parses, the error it
    raises otherwise. *)
Class Platform := {
  WIN32 : bool;
  cwk_path_get_absolute : string → string → string;
  parse_module : string → string → option (jerry_error_t * string);
}.

(** ** C strings *)

Definition NUL : ascii := Ascii.zero.

(** The text of a C string: the bytes before the first NUL. A character
    buffer [s] is stored with a terminator after its last byte, so the text
    is all of [s] when [s] has no NUL of its own. *)
Fixpoint cstr (s : string) : string :=
  match s with
  | EmptyString => EmptyString
  | String c r => if Ascii.eqb c NUL then EmptyString else String c (cstr r)
  end.

Definition strlen (s : string) : nat := String.length (cstr s).

(** [strcmp]: the difference of the first bytes that differ, comparing up to
    and including the terminator. *)
Fixpoint strcmp (a b : string) : Z :=
  let byte (c : ascii) := Z.of_N (N_of_ascii c) in
  match a, b with
  | EmptyString, EmptyString => 0
  | EmptyString, String d _ => 0 - byte d
  | String c _, EmptyString => byte c - 0
  | String c a', String d b' =>
      if Ascii.eqb c d
      then (if Ascii.eqb c NUL then 0 else strcmp a' b')
      else byte c - byte d
  end%Z.

(** [memcpy (dst, src, n)] out of a terminated character buffer: the first
    [n] bytes of the buffer, terminator included. *)
Definition buffer_bytes (s : string) : string := s +:+ String NUL EmptyString.

Fixpoint string_take (n : nat) (s : string) : string :=
  match n, s with
  | S k, String c r => String c (string_take k r)
  | _, _ => EmptyString
  end.

(** ** Directory part of a path *)

Section DirectoryEnd.
Context `{Platform}.

(** The test on [end_p[-1]]: ['/'], and ['\\'] too under [_WIN32]. *)
Definition is_separator (c : ascii) : bool :=
  if WIN32
  then Ascii.eqb c "/" || Ascii.eqb c "\"
  else Ascii.eqb c "/".

Definition char_at (path : string) (i : nat) : ascii :=
  default NUL (String.get i path).

(** The [while (end_p > path_p)] loop; [end_p] is kept as an offset from
    [path_p]. *)
Fixpoint directory_end_loop (path : string) (end_p : nat) : nat :=
  match end_p with
  | O => 0
  | S before =>
      if is_separator (char_at path before)
      then end_p
      else directory_end_loop path before
  end.

Definition jerry_port_get_directory_end (path : string) : nat :=
  directory_end_loop path (strlen path).
End DirectoryEnd.

(** ** Engine values *)

(** Modelled from the spec: [jerry_value_t], declared by the engine and not
    by this file. The port compares values with [==], asks whether a value
    is an object or an error, and counts references; an object is identified
    by its number, so [==] on objects is identity. *)
Inductive jerry_value_t :=
| JUndefined
| JNull
| JBoolean (b : bool)
| JNumber (n : Z)
| JString (s : string)
| JObject (id : N)
| JError (kind : jerry_error_t) (message : string).

#[global] Instance jerry_value_t_eq_dec : EqDecision jerry_value_t.
Proof. solve_decision. Defined.

(** Modelled from the spec: the tests of the engine on a value. *)
Definition jerry_value_is_object (v : jerry_value_t) : bool :=
  match v with JObject _ => true | _ => false end.

(** Modelled from the spec: a value is an error value. *)
Definition jerry_value_is_error (v : jerry_value_t) : bool :=
  match v with JError _ _ => true | _ => false end.

(** Modelled from the spec: the value [undefined]. *)
Definition jerry_create_undefined : jerry_value_t := JUndefined.

(** Modelled from the spec: [jerry_get_utf8_string_size] is the byte length
    of a string value, 0 for every other value. *)
Definition jerry_get_utf8_string_size (v : jerry_value_t) : nat :=
  match v with JString s => String.length s | _ => 0 end.

(** Modelled from the spec: the bytes [jerry_string_to_utf8_char_buffer]
    copies out. *)
Definition jerry_string_utf8 (v : jerry_value_t) : string :=
  match v with JString s => s | _ => EmptyString end.

(** ** Process state *)

(** Addresses of [malloc]ed blocks are numbers in [N]; a pointer that may be
    [NULL] is an [option N]. *)

(** [struct jerry_port_module_t] without [next_p]: the chain of [next_p]
    links is the order of the list [w_module_head] below. *)
Record jerry_port_module_t := {
  path_p : N;
  base_path_length : nat;
  realm : jerry_value_t;
  module : jerry_value_t;
}.

Inductive block :=
| Uninit (size : nat)              (* fresh from [malloc] *)
| Chars (s : string)               (* bytes [s], then a terminator *)
| Bytes (s : string)               (* raw bytes, no terminator *)
| Module (m : jerry_port_module_t).

(** What [stat], [fopen], [ftell] and [fread] say about a regular file. *)
Record file := {
  f_open : bool;       (* [fopen] succeeds *)
  f_size : nat;        (* [ftell] at the end *)
  f_data : string;     (* the bytes [fread] can deliver *)
}.

Inductive fs_entry :=
| Directory
| Regular (f : file).

(** Calls to collaborators, in the order they happen. *)
Inductive event :=
| EvLog (message : string)
| EvReadSource (file_name : string)
| EvParse (source resource_name : string)
| EvCreateError (kind : jerry_error_t) (message : string)
| EvAcquire (v : jerry_value_t)
| EvRelease (v : jerry_value_t).

#[global] Instance event_eq_dec : EqDecision event.
Proof. solve_decision. Defined.

Record world := World {
  w_heap : gmap N block;           (* live blocks *)
  w_brk : N;                       (* the next address [malloc] hands out *)
  w_module_head : list N;          (* [module_head_p] and its chain *)
  w_native : gmap N N;             (* native pointers of objects *)
  w_objects : N;                   (* the next object the engine creates *)
  w_global : N;                    (* the global object of the current realm *)
  w_cwd : option string;           (* [getcwd], [None] when it fails *)
  w_fs : gmap string fs_entry;     (* no entry: [stat] returns -1 *)
  w_malloc : list bool;            (* outcomes of the coming [malloc]s *)
  w_trace : list event;
}.

Definition set_heap (f : gmap N block → gmap N block) (w : world) : world :=
  World (f (w_heap w)) (w_brk w) (w_module_head w) (w_native w) (w_objects w)
        (w_global w) (w_cwd w) (w_fs w) (w_malloc w) (w_trace w).
Definition set_brk (a : N) (w : world) : world :=
  World (w_heap w) a (w_module_head w) (w_native w) (w_objects w)
        (w_global w) (w_cwd w) (w_fs w) (w_malloc w) (w_trace w).
Definition set_module_head (l : list N) (w : world) : world :=
  World (w_heap w) (w_brk w) l (w_native w) (w_objects w)
        (w_global w) (w_cwd w) (w_fs w) (w_malloc w) (w_trace w).
Definition set_native (f : gmap N N → gmap N N) (w : world) : world :=
  World (w_heap w) (w_brk w) (w_module_head w) (f (w_native w)) (w_objects w)
        (w_global w) (w_cwd w) (w_fs w) (w_malloc w) (w_trace w).
Definition set_objects (n : N) (w : world) : world :=
  World (w_heap w) (w_brk w) (w_module_head w) (w_native w) n
        (w_global w) (w_cwd w) (w_fs w) (w_malloc w) (w_trace w).
Definition set_malloc (l : list bool) (w : world) : world :=
  World (w_heap w) (w_brk w) (w_module_head w) (w_native w) (w_objects w)
        (w_global w) (w_cwd w) (w_fs w) l (w_trace w).
Definition set_trace (f : list event → list event) (w : world) : world :=
  World (w_heap w) (w_brk w) (w_module_head w) (w_native w) (w_objects w)
        (w_global w) (w_cwd w) (w_fs w) (w_malloc w) (f (w_trace w)).

(** ** The monad of the port

    A computation takes the process state and gives a result and the next
    state, or nothing when the C program has undefined behaviour there
    (a store through [NULL], a read of a freed block). *)
Definition M (A : Type) : Type := world → option (A * world).

#[global] Instance M_ret : MRet M := λ A a w, Some (a, w).
#[global] Instance M_bind : MBind M := λ A B f c w,
  match c w with
  | Some (a, w') => f a w'
  | None => None
  end.

Definition ret {A} (a : A) : M A := mret a.
Definition undefined_behaviour {A} : M A := λ _, None.
Definition gets {A} (f : world → A) : M A := λ w, Some (f w, w).
Definition modify (f : world → world) : M unit := λ w, Some (tt, f w).
Definition emit (e : event) : M unit := modify (set_trace (λ t, t ++ [e])).

(** *** Memory *)

Definition malloc (size : nat) : M (option N) := λ w,
  let succeeds := hd true (w_malloc w) in
  let w := set_malloc (tl (w_malloc w)) w in
  if succeeds
  then Some (Some (w_brk w),
             set_brk (N.succ (w_brk w)) (set_heap <[w_brk w := Uninit size]> w))
  else Some (None, w).

(** [free] of a live block; of anything else it is undefined. *)
Definition free (p : N) : M unit := λ w,
  match w_heap w !! p with
  | Some _ => Some (tt, set_heap (delete p) w)
  | None => None
  end.

Definition load (p : N) : M block := λ w,
  match w_heap w !! p with
  | Some b => Some (b, w)
  | None => None
  end.

(** The bytes of a written buffer as [memcpy] and the string functions see
    them. *)
Definition load_chars (p : N) : M string :=
  b ← load p;
  match b with
  | Chars s => ret s
  | _ => undefined_behaviour
  end.

Definition load_module (p : N) : M jerry_port_module_t :=
  b ← load p;
  match b with
  | Module m => ret m
  | _ => undefined_behaviour
  end.

(** Filling a block that [malloc] returned: [n] bytes and a terminator into
    [size] bytes. A store through [NULL] is undefined. *)
Definition store_chars (p : option N) (s : string) : M unit :=
  match p with
  | None => undefined_behaviour
  | Some a =>
      b ← load a;
      match b with
      | Uninit size =>
          if decide (String.length s + 1 ≤ size)
          then modify (set_heap <[a := Chars s]>)
          else undefined_behaviour
      | _ => undefined_behaviour
      end
  end.

Definition store_bytes (a : N) (s : string) : M unit :=
  b ← load a;
  match b with
  | Uninit size =>
      if decide (String.length s ≤ size)
      then modify (set_heap <[a := Bytes s]>)
      else undefined_behaviour
  | _ => undefined_behaviour
  end.

Definition store_module (p : option N) (m : jerry_port_module_t) : M unit :=
  match p with
  | None => undefined_behaviour
  | Some a =>
      b ← load a;
      match b with
      | Uninit _ => modify (set_heap <[a := Module m]>)
      | _ => undefined_behaviour
      end
  end.

(** [memcpy] of [n] bytes out of the character buffer at [p]. *)
Definition memcpy_from (p : N) (n : nat) : M string :=
  s ← load_chars p;
  if decide (n ≤ String.length (buffer_bytes s))
  then ret (string_take n (buffer_bytes s))
  else undefined_behaviour.

(** Overwriting a buffer the caller owns. *)
Definition overwrite_chars (a : N) (s : string) : M unit :=
  _ ← load a;
  modify (set_heap <[a := Chars s]>).

(** *** Engine API *)

(** Modelled from the spec: a reference is taken, and the value itself is
    returned. *)
Definition jerry_acquire_value (v : jerry_value_t) : M jerry_value_t :=
  _ ← emit (EvAcquire v);
  ret v.

(** Modelled from the spec: a reference is dropped. *)
Definition jerry_release_value (v : jerry_value_t) : M unit :=
  emit (EvRelease v).

(** Modelled from the spec: the global object of the current realm, with a
    reference for the caller. *)
Definition jerry_get_global_object : M jerry_value_t :=
  g ← gets w_global;
  jerry_acquire_value (JObject g).

(** Modelled from the spec: an error value of a kind, with a message. *)
Definition jerry_create_error (kind : jerry_error_t) (message : string)
  : jerry_value_t :=
  JError kind message.

(** Modelled from the spec: native pointers exist on objects only; the port
    uses one native info ([jerry_port_module_native_info]) for all of
    them. *)
Definition jerry_get_object_native_pointer (v : jerry_value_t)
  : M (option N) :=
  match v with
  | JObject id => gets (λ w, w_native w !! id)
  | _ => ret None
  end.

(** Modelled from the spec: setting the native pointer of an object. *)
Definition jerry_set_object_native_pointer (v : jerry_value_t) (p : N)
  : M unit :=
  match v with
  | JObject id => modify (set_native <[id := p]>)
  | _ => ret tt
  end.

(** Modelled from the spec: [jerry_port_log (JERRY_LOG_LEVEL_ERROR, format,
    file_name_p)] with a format that ends in a newline. *)
Definition jerry_port_log (message file_name : string) : M unit :=
  emit (EvLog (message +:+ file_name +:+ String "010" EmptyString)).

(** [getcwd (NULL, 0)] and [_wgetcwd (NULL, 0)]: a block of their own with
    the working directory, or [NULL]. *)
Definition getcwd : M (option N) := λ w,
  match w_cwd w with
  | Some dir =>
      Some (Some (w_brk w),
            set_brk (N.succ (w_brk w)) (set_heap <[w_brk w := Chars dir]> w))
  | None => Some (None, w)
  end.

Section Port.
Context `{Platform}.

(** Modelled from the spec: [jerry_parse] with [JERRY_PARSE_MODULE |
    JERRY_PARSE_HAS_RESOURCE] returns an error value, or a new module object
    with a reference for the caller. *)
Definition jerry_parse (source_p : N) (source_size : nat)
    (resource_name_p : N) (resource_name_length : nat) : M jerry_value_t :=
  b ← load source_p;
  match b with
  | Bytes s =>
      if decide (source_size ≤ String.length s)
      then
        resource_name ← memcpy_from resource_name_p resource_name_length;
        let source := string_take source_size s in
        _ ← emit (EvParse source resource_name);
        match parse_module source resource_name with
        | Some (kind, message) => ret (JError kind message)
        | None =>
            id ← gets w_objects;
            _ ← modify (set_objects (N.succ id));
            ret (JObject id)
        end
      else undefined_behaviour
  | _ => undefined_behaviour
  end.

(** [jerry_convert_utf16_to_utf8]; [in_wide_str] stands for the text the
    wide string encodes. *)
Definition jerry_convert_utf16_to_utf8 (in_wide_str : string)
    (out_str_p : option N) (out_str_size : nat) : M nat :=
  if WIN32
  then
    let utf8_len := String.length in_wide_str in
    match out_str_p with
    | Some out =>
        if decide (utf8_len < out_str_size)
        then
          b ← load out;
          _ ← match b with
              | Uninit _ => store_chars out_str_p in_wide_str
              | _ => overwrite_chars out in_wide_str
              end;
          ret utf8_len
        else ret utf8_len
    | None => ret utf8_len
    end
  else ret 0.

Definition jerry_port_get_cwd (out_buf_p : option N) (out_buf_size : nat)
  : M (option N) :=
  out_cwd_p ←
    (if WIN32
     then
       cwd_wide_p ← getcwd;
       match cwd_wide_p with
       | Some wide =>
           cwd ← load_chars wide;
           out ←
             match out_buf_p with
             | Some _ =>
                 utf8_len ← jerry_convert_utf16_to_utf8 cwd out_buf_p out_buf_size;
                 if decide (utf8_len < out_buf_size)
                 then ret out_buf_p
                 else ret None
             | None =>
                 utf8_len ← jerry_convert_utf16_to_utf8 cwd None 0;
                 out ← malloc (utf8_len + 1);
                 _ ← jerry_convert_utf16_to_utf8 cwd out (utf8_len + 1);
                 ret out
             end;
           _ ← free wide;
           ret out
       | None => ret None
       end
     else
       cwd_p ← getcwd;
       match cwd_p with
       | Some dir =>
           match out_buf_p with
           | Some out =>
               cwd ← load_chars dir;
               let cwd_p_len := strlen cwd in
               r ← (if decide (cwd_p_len < out_buf_size)
                    then _ ← overwrite_chars out (cstr cwd); ret out_buf_p
                    else ret None);
               _ ← free dir;
               ret r
           | None => ret cwd_p
           end
       | None => ret None
       end);
  match out_cwd_p, out_buf_p with
  | None, None =>
      root ← malloc 2;
      match root with
      | Some _ => _ ← store_chars root "/"; ret root
      | None => ret None
      end
  | _, _ => ret out_cwd_p
  end.

(** [jerry_port_read_source]: the buffer and [*out_size_p], or [NULL]. *)
Definition jerry_port_read_source (file_name_p : N)
  : M (option (N * nat)) :=
  name ← load_chars file_name_p;
  let file_name := cstr name in
  _ ← emit (EvReadSource file_name);
  fs ← gets w_fs;
  match fs !! file_name with
  | None | Some Directory =>
      _ ← jerry_port_log "Error: Failed to open file: " file_name;
      ret None
  | Some (Regular f) =>
      if f_open f
      then
        let file_size := f_size f in
        buffer_p ← malloc file_size;
        match buffer_p with
        | None =>
            _ ← jerry_port_log "Error: Failed to allocate memory for file: "
                  file_name;
            ret None
        | Some buffer =>
            let bytes_read := String.length (f_data f) `min` file_size in
            _ ← store_bytes buffer (string_take bytes_read (f_data f));
            if decide (bytes_read ≠ file_size)
            then
              _ ← free buffer;
              _ ← jerry_port_log "Error: Failed to read file: " file_name;
              ret None
            else ret (Some (buffer, bytes_read))
        end
      else
        _ ← jerry_port_log "Error: Failed to open file: " file_name;
        ret None
  end.

Definition jerry_port_release_source (buffer_p : N) : M unit :=
  free buffer_p.

(** [jerry_port_normalize_path]: the new buffer with the path, or
    [NULL]. *)
Definition jerry_port_normalize_path (in_path_p : N) (in_path_length : nat)
    (base_path_p : option N) (base_path_length : nat) : M (option N) :=
  in_path_pz ← malloc (in_path_length + 1);
  match in_path_pz with
  | None => ret None
  | Some in_pz =>
      in_path ← memcpy_from in_path_p in_path_length;
      _ ← store_chars in_path_pz in_path;
      base_path_pz ←
        (if decide (0 < base_path_length)
         then
           base_pz ← malloc (base_path_length + 1);
           match base_pz, base_path_p with
           | Some _, Some base_p =>
               base_path ← memcpy_from base_p base_path_length;
               _ ← store_chars base_pz base_path;
               ret base_pz
           | Some _, None => undefined_behaviour
           | None, _ => ret None
           end
         else jerry_port_get_cwd None 0);
      match base_path_pz with
      | None =>
          _ ← free in_pz;
          ret None
      | Some base_pz =>
          base ← load_chars base_pz;
          path ← load_chars in_pz;
          let absolute := cwk_path_get_absolute (cstr base) (cstr path) in
          let path_p_len := String.length absolute in
          path_p ← malloc (path_p_len + 1);
          _ ← match path_p with
              | Some _ => store_chars path_p absolute
              | None => ret tt
              end;
          _ ← free base_pz;
          _ ← free in_pz;
          ret path_p
      end
  end.
End Port.

(** ** The module registry *)

(** [sizeof (jerry_port_module_t)] with 8-byte pointers; only [malloc] sees
    it. *)
Definition sizeof_jerry_port_module_t : nat := 32.

(** The loop of [jerry_port_module_free]. [prev] holds the nodes kept so
    far, in order (its last element is [prev_p]); [chain] is [module_p] and
    what follows it. Unlinking a node makes the chain of the manager
    [prev ++ next_p], through [manager_p->module_head_p] when [prev] is
    empty and through [prev_p->next_p] otherwise. *)
Fixpoint module_free_loop (release_all : bool) (realm_v : jerry_value_t)
    (prev chain : list N) : M unit :=
  match chain with
  | [] => ret tt
  | module_p :: next_p =>
      m ← load_module module_p;
      if release_all || bool_decide (realm m = realm_v)
      then
        _ ← free (path_p m);
        _ ← jerry_release_value (realm m);
        _ ← jerry_release_value (module m);
        _ ← free module_p;
        _ ← modify (set_module_head (prev ++ next_p));
        module_free_loop release_all realm_v prev next_p
      else
        module_free_loop release_all realm_v (prev ++ [module_p]) next_p
  end.

Definition jerry_port_module_free (realm_v : jerry_value_t) : M unit :=
  module_p ← gets w_module_head;
  let release_all := negb (jerry_value_is_object realm_v) in
  module_free_loop release_all realm_v [] module_p.

Definition jerry_port_module_manager_init : M unit :=
  modify (set_module_head []).

Definition jerry_port_module_manager_deinit : M unit :=
  let undef := jerry_create_undefined in
  _ ← jerry_port_module_free undef;
  jerry_release_value undef.

(** The search loop of [jerry_port_module_resolve] over the chain that
    starts at [manager_p->module_head_p]; [&&] compares the paths only when
    the realms are equal. *)
Fixpoint module_lookup (realm_v : jerry_value_t) (new_path_p : N)
    (chain : list N) : M (option jerry_port_module_t) :=
  match chain with
  | [] => ret None
  | module_p :: next_p =>
      m ← load_module module_p;
      if bool_decide (realm m = realm_v)
      then
        cached ← load_chars (path_p m);
        wanted ← load_chars new_path_p;
        if decide (strcmp cached wanted = 0%Z)
        then ret (Some m)
        else module_lookup realm_v new_path_p next_p
      else module_lookup realm_v new_path_p next_p
  end.

Section Resolver.
Context `{Platform}.

(** [jerry_port_module_resolve], lines 412-427: the base directory is
    taken from the record attached to the referrer, the specifier is
    copied out as a C string, and the path is normalized. Gives
    [in_path_p], [in_path_length] and [path_p]. *)
Definition resolve_path (specifier referrer : jerry_value_t)
  : M (N * nat * option N) :=
  native ← jerry_get_object_native_pointer referrer;
  base ←
    match native with
    | Some module_p =>
        m ← load_module module_p;
        ret (Some (path_p m), base_path_length m)
    | None => ret (None, 0)
    end;
  let base_path_p : option N := base.1 in
  let base_path_len : nat := base.2 in
  let in_path_length := jerry_get_utf8_string_size specifier in
  in_path_p ← malloc (in_path_length + 1);
  _ ← store_chars in_path_p (jerry_string_utf8 specifier);
  match in_path_p with
  | None => undefined_behaviour
  | Some in_p =>
      new_path_p ←
        jerry_port_normalize_path in_p in_path_length base_path_p base_path_len;
      ret (in_p, in_path_length, new_path_p)
  end.

(** [jerry_port_module_resolve], lines 434-498: with the path in hand,
    search the registry, and read, parse and register the module when the
    search finds nothing. *)
Definition resolve_module (in_p : N) (in_path_length : nat) (new_p : N)
  : M jerry_value_t :=
  realm_v ← jerry_get_global_object;
  module_head_p ← gets w_module_head;
  found ← module_lookup realm_v new_p module_head_p;
  match found with
  | Some m =>
      _ ← free new_p;
      _ ← free in_p;
      _ ← jerry_release_value realm_v;
      jerry_acquire_value (module m)
  | None =>
      source ← jerry_port_read_source new_p;
      match source with
      | None =>
          _ ← free new_p;
          _ ← free in_p;
          _ ← jerry_release_value realm_v;
          ret (jerry_create_error JERRY_ERROR_SYNTAX "Module file not found")
      | Some (source_p, source_size) =>
          ret_value ← jerry_parse source_p source_size in_p in_path_length;
          _ ← jerry_port_release_source source_p;
          _ ← free in_p;
          if jerry_value_is_error ret_value
          then
            _ ← free new_p;
            _ ← jerry_release_value realm_v;
            ret ret_value
          else
            module_p ← malloc sizeof_jerry_port_module_t;
            match module_p with
            | None => undefined_behaviour
            | Some node =>
                next_p ← gets w_module_head;
                path ← load_chars new_p;
                module_v ← jerry_acquire_value ret_value;
                _ ← store_module module_p
                      {| path_p := new_p;
                         base_path_length := jerry_port_get_directory_end path;
                         realm := realm_v;
                         module := module_v |};
                _ ← jerry_set_object_native_pointer ret_value node;
                _ ← modify (set_module_head (node :: next_p));
                ret ret_value
            end
      end
  end.

(** [user_p] is cast to [void] and not used. *)
Definition jerry_port_module_resolve (specifier referrer : jerry_value_t)
    (user_p : N) : M jerry_value_t :=
  located ← resolve_path specifier referrer;
  match located with
  | (in_p, in_path_length, Some new_p) =>
      resolve_module in_p in_path_length new_p
  | (_, _, None) =>
      ret (jerry_create_error JERRY_ERROR_COMMON "Out of memory")
  end.

Definition jerry_port_module_release (realm_v : jerry_value_t) : M unit :=
  jerry_port_module_free realm_v.
End Resolver.


(** ** The registry as a list of records *)

(** The record behind a node of the chain, with the bytes of its path
    buffer. *)
Definition record_at (h : gmap N block) (p : N)
  : option (jerry_port_module_t * string) :=
  match h !! p with
  | Some (Module m) =>
      match h !! path_p m with
      | Some (Chars s) => Some (m, s)
      | _ => None
      end
  | _ => None
  end.

Definition registry (w : world) : list (jerry_port_module_t * string) :=
  omap (record_at (w_heap w)) (w_module_head w).

(** The context and the canonical path of a record: its realm, and the text
    of its path buffer. *)
Definition record_key (r : jerry_port_module_t * string)
  : jerry_value_t * string :=
  (realm r.1, cstr r.2).

(** The test of the search loop on a record, for the text [path]. *)
Definition record_matches (realm_v : jerry_value_t) (path : string)
    (r : jerry_port_module_t * string) : bool :=
  bool_decide (record_key r = (realm_v, cstr path)).

(** The records of a context under a path, and all records of a context. *)
Definition records_for (w : world) (realm_v : jerry_value_t) (path : string)
  : list (jerry_port_module_t * string) :=
  List.filter (record_matches realm_v path) (registry w).

Definition in_realm (realm_v : jerry_value_t)
    (r : jerry_port_module_t * string) : bool :=
  bool_decide (realm r.1 = realm_v).

(** The blocks the chain owns: every node and its path buffer. *)
Definition blocks_of (h : gmap N block) (p : N) : list N :=
  match record_at h p with
  | Some (m, _) => [p; path_p m]
  | None => [p]
  end.

Fixpoint footprint (h : gmap N block) (chain : list N) : list N :=
  match chain with
  | [] => []
  | p :: rest => blocks_of h p ++ footprint h rest
  end.

(** A state is well formed when [malloc] hands out addresses above every
    live block, every node of the chain is a live record with a live path
    buffer, and no block is owned twice. *)
Definition heap_below (w : world) : Prop :=
  map_Forall (λ a _, (a < w_brk w)%N) (w_heap w).

Definition chain_ok (h : gmap N block) (chain : list N) : Prop :=
  Forall (λ p, is_Some (record_at h p)) chain ∧ NoDup (footprint h chain).

Definition well_formed (w : world) : Prop :=
  heap_below w ∧ chain_ok (w_heap w) (w_module_head w).

#[global] Instance well_formed_dec (w : world) : Decision (well_formed w).
Proof. unfold well_formed, heap_below, chain_ok. apply _. Defined.

(** ** Runs of the port *)

(** What the rest of the process may change between two calls: the current
    realm, the objects, the files and the working directory, the outcome of
    allocations. It may take addresses and drop native pointers of dead
    objects; it does not touch the blocks or the chain of the registry. *)
Definition host_step (w w' : world) : Prop :=
  w_heap w' = w_heap w ∧ (w_brk w ≤ w_brk w')%N ∧
  w_module_head w' = w_module_head w ∧ w_native w' ⊆ w_native w.

Definition initial (w : world) : Prop :=
  w_heap w = ∅ ∧ w_module_head w = [] ∧ w_native w = ∅.

Section Runs.
Context `{Platform}.

Inductive port_step : world → world → Prop :=
| step_resolve w specifier referrer user_p v w' :
    jerry_port_module_resolve specifier referrer user_p w = Some (v, w') →
    port_step w w'
| step_release w realm_v w' :
    jerry_port_module_release realm_v w = Some (tt, w') →
    port_step w w'
| step_host w w' :
    host_step w w' →
    port_step w w'.

Definition reachable (w : world) : Prop :=
  ∃ w0, initial w0 ∧ rtc port_step w0 w.
End Runs.

(** The events of a call: what it appended to the trace. *)
Definition events_of (w w' : world) : list event :=
  drop (List.length (w_trace w)) (w_trace w').

Definition is_read (e : event) : bool :=
  match e with EvReadSource _ => true | _ => false end.
Definition is_parse (e : event) : bool :=
  match e with EvParse _ _ => true | _ => false end.

(** ** What a call leaves alone *)

(** The parts of the state that only the registry operations and the host
    change. *)
Definition unchanged (w w' : world) : Prop :=
  w_module_head w' = w_module_head w ∧ w_native w' = w_native w ∧
  w_objects w' = w_objects w ∧ w_global w' = w_global w ∧
  w_cwd w' = w_cwd w ∧ w_fs w' = w_fs w ∧ w_trace w' = w_trace w.

(** [l'] is what is left of the allocation outcomes [l] after some
    allocations. *)
Definition consumed (l l' : list bool) : Prop := ∃ k, l' = drop k l.

(** ** Contracts of the path functions *)

Section PathContracts.
Context `{Platform}.

(** [jerry_port_get_cwd (NULL, 0)]: a new buffer with the working
    directory or with ["/"], or [NULL] and nothing allocated. *)
Definition get_cwd_post (w : world) (res : option N) (w' : world) : Prop :=
  unchanged w w' ∧ heap_below w' ∧ (w_brk w ≤ w_brk w')%N ∧
  consumed (w_malloc w) (w_malloc w') ∧
  match res with
  | None => w_heap w' = w_heap w ∧ false ∈ w_malloc w
  | Some p =>
      (w_brk w ≤ p < w_brk w')%N ∧
      ∃ dir, w_heap w' = <[p := Chars dir]> (w_heap w) ∧
             (dir = "/"%string ∨ w_cwd w = Some dir)
  end.

(** What [jerry_port_normalize_path] needs to run: the specifier buffer
    holds [len] bytes, and so does the base buffer when a base is given. *)
Definition normalize_pre
    (in_p : N) (len : nat) (base_p : option N) (blen : nat) (w : world)
  : Prop :=
  (∃ t, w_heap w !! in_p = Some (Chars t) ∧ len ≤ String.length t + 1) ∧
  (0 < blen →
   ∃ bp s, base_p = Some bp ∧ w_heap w !! bp = Some (Chars s) ∧
           blen ≤ String.length s + 1).

(** What it leaves: the heap as before plus the result, which holds what
    the path primitive computes from the base and the specifier. *)
Definition normalize_post
    (in_p : N) (len : nat) (base_p : option N) (blen : nat) (w : world)
    (res : option N) (w' : world) : Prop :=
  unchanged w w' ∧ heap_below w' ∧ (w_brk w ≤ w_brk w')%N ∧
  consumed (w_malloc w) (w_malloc w') ∧
  match res with
  | None => w_heap w' = w_heap w ∧ false ∈ w_malloc w
  | Some p =>
      (w_brk w ≤ p < w_brk w')%N ∧
      ∃ t base,
        w_heap w !! in_p = Some (Chars t) ∧
        w_heap w' =
          <[p := Chars (cwk_path_get_absolute (cstr base)
                          (cstr (string_take len (buffer_bytes t))))]> (w_heap w) ∧
        (∀ bp s, 0 < blen → base_p = Some bp →
                 w_heap w !! bp = Some (Chars s) →
                 base = string_take blen (buffer_bytes s)) ∧
        (blen = 0 → base = "/"%string ∨ w_cwd w = Some base)
  end.
End PathContracts.

(** ** Contract of the file reader *)

(** The bytes [jerry_port_read_source] returns for a file name: the file is
    regular and opens, the buffer is allocated, and [fread] delivers as many
    bytes as [ftell] announced. *)
Definition source_of (w : world) (file_name : string) : option string :=
  match w_fs w !! file_name with
  | Some (Regular f) =>
      if f_open f && hd true (w_malloc w) &&
         bool_decide (String.length (f_data f) `min` f_size f = f_size f)
      then Some (string_take (f_size f) (f_data f))
      else None
  | _ => None
  end.

Definition read_source_post (file_name_p : N) (w : world)
    (res : option (N * nat)) (w' : world) : Prop :=
  ∃ name,
    w_heap w !! file_name_p = Some (Chars name) ∧
    w_module_head w' = w_module_head w ∧ w_native w' = w_native w ∧
    w_objects w' = w_objects w ∧ w_global w' = w_global w ∧
    w_cwd w' = w_cwd w ∧ w_fs w' = w_fs w ∧
    heap_below w' ∧ (w_brk w ≤ w_brk w')%N ∧
    consumed (w_malloc w) (w_malloc w') ∧
    match source_of w (cstr name), res with
    | Some source, Some (buffer, size) =>
        size = String.length source ∧ (w_brk w ≤ buffer < w_brk w')%N ∧
        w_heap w' = <[buffer := Bytes source]> (w_heap w) ∧
        w_malloc w' = tail (w_malloc w) ∧
        w_trace w' = w_trace w ++ [EvReadSource (cstr name)]
    | None, None =>
        w_heap w' = w_heap w ∧
        ∃ message,
          w_trace w' = w_trace w ++ [EvReadSource (cstr name); EvLog message]
    | _, _ => False
    end.


(** The file behind a name does not exist, is a directory, or cannot be
    opened, buffered or read in full. *)
Definition unreadable (w : world) (file_name : string) : Prop :=
  match w_fs w !! file_name with
  | None => True
  | Some Directory => True
  | Some (Regular f) =>
      f_open f = false ∨ hd true (w_malloc w) = false ∨
      String.length (f_data f) `min` f_size f ≠ f_size f
  end.

(** ** Contract of the release loop *)

(** The test of [jerry_port_module_free] on a record. *)
Definition released (release_all : bool) (realm_v : jerry_value_t)
    (r : jerry_port_module_t * string) : bool :=
  release_all || in_realm realm_v r.

Definition node_released (h : gmap N block) (release_all : bool)
    (realm_v : jerry_value_t) (p : N) : bool :=
  match record_at h p with
  | Some r => released release_all realm_v r
  | None => false
  end.

Definition release_events (r : jerry_port_module_t * string) : list event :=
  [EvRelease (realm r.1); EvRelease (module r.1)].

Definition free_post (release_all : bool) (realm_v : jerry_value_t)
    (prev chain : list N) (w w' : world) : Prop :=
  let h := w_heap w in
  let gone := List.filter (node_released h release_all realm_v) chain in
  w_module_head w' =
    prev ++ List.filter (λ p, negb (node_released h release_all realm_v p)) chain ∧
  (∀ a, w_heap w' !! a =
        if bool_decide (a ∈ footprint h gone) then None else h !! a) ∧
  w_trace w' =
    w_trace w ++
    flat_map release_events
      (List.filter (released release_all realm_v) (omap (record_at h) chain)) ∧
  w_brk w' = w_brk w ∧ w_native w' = w_native w ∧
  w_objects w' = w_objects w ∧ w_global w' = w_global w ∧
  w_cwd w' = w_cwd w ∧ w_fs w' = w_fs w ∧ w_malloc w' = w_malloc w.

(** ** The referrer *)

(** The native pointer [jerry_get_object_native_pointer] finds. *)
Definition native_of (w : world) (v : jerry_value_t) : option N :=
  match v with
  | JObject id => w_native w !! id
  | _ => None
  end.

(** The record attached to the referrer, if any, can be read. *)
Definition referrer_ok (w : world) (referrer : jerry_value_t) : Prop :=
  ∀ module_p, native_of w referrer = Some module_p →
    ∃ m s, w_heap w !! module_p = Some (Module m) ∧
           w_heap w !! path_p m = Some (Chars s) ∧
           base_path_length m ≤ String.length s + 1.

(** ** Contract of the resolver *)

Section ResolverContracts.
Context `{Platform}.

(** After [resolve_path]: the specifier sits in a new buffer [in_p], and
    the canonical path, unless an allocation failed, in a new buffer
    above it. Nothing else has changed. When the path is [NULL] the
    specifier buffer is still allocated. *)
Definition resolve_path_post (specifier : jerry_value_t) (w : world)
    (located : N * nat * option N) (w1 : world) : Prop :=
  let '(in_p, in_path_length, new_path_p) := located in
  let text := jerry_string_utf8 specifier in
  in_p = w_brk w ∧ in_path_length = String.length text ∧
  unchanged w w1 ∧ heap_below w1 ∧ (w_brk w < w_brk w1)%N ∧
  consumed (w_malloc w) (w_malloc w1) ∧
  match new_path_p with
  | None =>
      w_heap w1 = <[in_p := Chars text]> (w_heap w) ∧ false ∈ w_malloc w
  | Some new_p =>
      (in_p < new_p < w_brk w1)%N ∧
      ∃ base,
        w_heap w1 =
          <[new_p := Chars (cwk_path_get_absolute (cstr base) (cstr text))]>
            (<[in_p := Chars text]> (w_heap w))
  end.

(** What [resolve_module] needs to run: the two buffers are distinct live
    character buffers and every node of the chain is a live record. *)
Definition resolve_module_pre (in_p : N) (in_path_length : nat) (new_p : N)
    (w1 : world) : Prop :=
  in_p ≠ new_p ∧
  (∃ text, w_heap w1 !! in_p = Some (Chars text) ∧
           in_path_length ≤ String.length text + 1) ∧
  (∃ path, w_heap w1 !! new_p = Some (Chars path)) ∧
  Forall (λ p, is_Some (record_at (w_heap w1) p)) (w_module_head w1).

(** The four ways [resolve_module] returns, told apart by the registry,
    the file system and the parser: a cached module, an unreadable
    source, a parse error, a new record. In the first three the state
    keeps its blocks but for the two buffers, which are freed. *)
Definition resolve_module_post (in_p : N) (in_path_length : nat)
    (new_p : N) (w1 : world) (v : jerry_value_t) (w' : world) : Prop :=
  ∃ text path,
    w_heap w1 !! in_p = Some (Chars text) ∧
    w_heap w1 !! new_p = Some (Chars path) ∧
    let realm_v := JObject (w_global w1) in
    let resource_name := string_take in_path_length (buffer_bytes text) in
    let freed := delete in_p (delete new_p (w_heap w1)) in
    w_global w' = w_global w1 ∧ w_cwd w' = w_cwd w1 ∧ w_fs w' = w_fs w1 ∧
    heap_below w' ∧ (w_brk w1 ≤ w_brk w')%N ∧
    consumed (w_malloc w1) (w_malloc w') ∧
    match List.find (record_matches realm_v path) (registry w1) with
    | Some (m, _) =>
        v = module m ∧ w_heap w' = freed ∧
        w_module_head w' = w_module_head w1 ∧
        w_native w' = w_native w1 ∧ w_objects w' = w_objects w1 ∧
        w_trace w' =
          w_trace w1 ++
          [EvAcquire realm_v; EvRelease realm_v; EvAcquire (module m)]
    | None =>
        match source_of w1 (cstr path) with
        | None =>
            v = jerry_create_error JERRY_ERROR_SYNTAX "Module file not found" ∧
            w_heap w' = freed ∧
            w_module_head w' = w_module_head w1 ∧
            w_native w' = w_native w1 ∧ w_objects w' = w_objects w1 ∧
            ∃ message,
              w_trace w' =
                w_trace w1 ++
                [EvAcquire realm_v; EvReadSource (cstr path);
                 EvLog message; EvRelease realm_v]
        | Some source =>
            match parse_module source resource_name with
            | Some (kind, message) =>
                v = JError kind message ∧ w_heap w' = freed ∧
                w_module_head w' = w_module_head w1 ∧
                w_native w' = w_native w1 ∧ w_objects w' = w_objects w1 ∧
                w_trace w' =
                  w_trace w1 ++
                  [EvAcquire realm_v; EvReadSource (cstr path);
                   EvParse source resource_name; EvRelease realm_v]
            | None =>
                hd true (tail (w_malloc w1)) = true ∧
                v = JObject (w_objects w1) ∧
                w_objects w' = N.succ (w_objects w1) ∧
                ∃ node,
                  (w_brk w1 ≤ node < w_brk w')%N ∧
                  w_heap w' =
                    <[node := Module
                        {| path_p := new_p;
                           base_path_length := jerry_port_get_directory_end path;
                           realm := realm_v;
                           module := v |}]>
                      (delete in_p (w_heap w1)) ∧
                  w_module_head w' = node :: w_module_head w1 ∧
                  w_native w' = <[w_objects w1 := node]> (w_native w1) ∧
                  w_trace w' =
                    w_trace w1 ++
                    [EvAcquire realm_v; EvReadSource (cstr path);
                     EvParse source resource_name; EvAcquire v]
            end
        end
    end.

(** The one way [resolve_module] has no result on such a state: the
    module was read and parsed, and the allocation of its record fails. *)
Definition record_allocation_fails (in_p : N) (in_path_length : nat)
    (new_p : N) (w1 : world) : Prop :=
  ∃ text path source,
    w_heap w1 !! in_p = Some (Chars text) ∧
    w_heap w1 !! new_p = Some (Chars path) ∧
    List.find (record_matches (JObject (w_global w1)) path) (registry w1) = None ∧
    source_of w1 (cstr path) = Some source ∧
    parse_module source (string_take in_path_length (buffer_bytes text)) = None ∧
    hd true (tail (w_malloc w1)) = false.
End ResolverContracts.

(** ** What a call of the resolver does *)

Section Outcomes.
Context `{Platform}.

(** The registry and the native pointers are as before the call. *)
Definition registry_kept (w w' : world) : Prop :=
  registry w' = registry w ∧ w_module_head w' = w_module_head w ∧
  w_heap w' = w_heap w ∧
  w_native w' = w_native w ∧ w_objects w' = w_objects w.

(** The outcome of a call of [jerry_port_module_resolve] from [w] whose
    path, computed in [w1], is the text of [path] held at [new_p]: by the
    registry, the file system and the parser it is a cached module, an
    unreadable source, a parse error or a new record. *)
Definition resolve_outcome (specifier : jerry_value_t) (w w1 : world)
    (new_p : N) (path : string) (v : jerry_value_t) (w' : world) : Prop :=
  let realm_v := JObject (w_global w) in
  let resource_name := jerry_string_utf8 specifier in
  well_formed w' ∧ w_global w' = w_global w ∧
  match List.find (record_matches realm_v path) (registry w) with
  | Some (m, _) =>
      v = module m ∧ registry_kept w w' ∧
      events_of w w' =
        [EvAcquire realm_v; EvRelease realm_v; EvAcquire (module m)]
  | None =>
      match source_of w1 (cstr path) with
      | None =>
          v = jerry_create_error JERRY_ERROR_SYNTAX "Module file not found" ∧
          registry_kept w w' ∧
          ∃ message,
            events_of w w' =
              [EvAcquire realm_v; EvReadSource (cstr path);
               EvLog message; EvRelease realm_v]
      | Some source =>
          match parse_module source resource_name with
          | Some (kind, message) =>
              v = JError kind message ∧ registry_kept w w' ∧
              events_of w w' =
                [EvAcquire realm_v; EvReadSource (cstr path);
                 EvParse source resource_name; EvRelease realm_v]
          | None =>
              v = JObject (w_objects w) ∧
              ∃ node,
                let m := {| path_p := new_p;
                            base_path_length := jerry_port_get_directory_end path;
                            realm := realm_v;
                            module := v |} in
                w_module_head w' = node :: w_module_head w ∧
                registry w' = (m, path) :: registry w ∧
                w_heap w !! node = None ∧ w_heap w !! new_p = None ∧
                w_heap w' =
                  <[node := Module m]> (<[new_p := Chars path]> (w_heap w)) ∧
                w_native w' = <[w_objects w := node]> (w_native w) ∧
                w_objects w' = N.succ (w_objects w) ∧
                events_of w w' =
                  [EvAcquire realm_v; EvReadSource (cstr path);
                   EvParse source resource_name; EvAcquire v]
          end
      end
  end.

End Outcomes.

(** ** A small system to run the port on *)

Fixpoint without_last_slash (s : string) : string :=
  match s with
  | EmptyString => EmptyString
  | String c r =>
      match r with
      | EmptyString => if Ascii.eqb c "/" then EmptyString else s
      | _ => String c (without_last_slash r)
      end
  end.

(** A stand-in for the two primitives: paths are joined (an absolute path is
    kept, a leading ["./"] is dropped), and a source parses unless it
    starts with ['!']. *)
Definition posix : Platform := {|
  WIN32 := false;
  cwk_path_get_absolute base path :=
    match path with
    | String "/" _ => path
    | String "." (String "/" rest) => without_last_slash base +:+ "/" +:+ rest
    | _ => without_last_slash base +:+ "/" +:+ path
    end;
  parse_module source _ :=
    match source with
    | String "!" _ => Some (JERRY_ERROR_SYNTAX, "Unexpected token"%string)
    | _ => None
    end;
|}.

Definition demo_fs : gmap string fs_entry :=
  <["/lib/math.js"%string :=
      Regular {| f_open := true; f_size := 3; f_data := "1+1" |}]>
  (<["/lib/bad.js"%string :=
      Regular {| f_open := true; f_size := 2; f_data := "!!" |}]>
  (<["/lib"%string := Directory]> ∅)).

(** The process right after [jerry_port_module_manager_init], in realm 7. *)
Definition boot : world := {|
  w_heap := ∅; w_brk := 1; w_module_head := []; w_native := ∅;
  w_objects := 100; w_global := 7; w_cwd := Some "/lib"%string;
  w_fs := demo_fs; w_malloc := []; w_trace := [];
|}.

(** The state a computation leaves, [boot] when it has none. *)
Definition state_after {A} (c : M A) (w : world) : world :=
  match c w with
  | Some (_, w') => w'
  | None => boot
  end.

(** The same process with another current realm. *)
Definition in_realm_of (g : N) (w : world) : world :=
  World (w_heap w) (w_brk w) (w_module_head w) (w_native w) (w_objects w)
        g (w_cwd w) (w_fs w) (w_malloc w) (w_trace w).

(** After [import "math.js"] in realm 7: one record, module 100. *)
Definition demo_loaded : world :=
  Eval vm_compute in
    state_after
      (@jerry_port_module_resolve posix (JString "math.js") JUndefined 0)
      boot.


(** After the same import in realm 8: two records under one path. *)
Definition demo_two_realms : world :=
  Eval vm_compute in
    state_after
      (@jerry_port_module_resolve posix (JString "math.js") JUndefined 0)
      (in_realm_of 8 demo_loaded).

(** The first allocation fails; the fifth, that of the record, fails. *)
Definition demo_no_memory : world := set_malloc [false] boot.
Definition demo_no_record : world :=
  set_malloc [true; true; true; true; false] boot.

Definition demo_no_record_located : world :=
  Eval vm_compute in
    state_after (@resolve_path posix (JString "math.js") JUndefined)
      demo_no_record.

(** Module 100, of realm 7, imports ["./math.js"] while realm 8 is
    current. *)
Definition demo_two_realms_located : world :=
  Eval vm_compute in
    state_after (@resolve_path posix (JString "./math.js") (JObject 100))
      demo_two_realms.

(** [import "none.js"] and [import "bad.js"] from [boot], after the path
    was computed. *)
Definition demo_missing : world :=
  Eval vm_compute in
    state_after (@resolve_path posix (JString "none.js") JUndefined) boot.

Definition demo_bad : world :=
  Eval vm_compute in
    state_after (@resolve_path posix (JString "bad.js") JUndefined) boot.

(** ** Reasoning about computations

    [run c w Q C] says what one run of [c] from [w] does: [Q] of its result
    and final state, or [C] when the run has no result. With [C := False]
    the run is shown to have a result; with [C := True] only its result, if
    any, is described. *)
Definition run {A} (c : M A) (w : world) (Q : A → world → Prop) (C : Prop)
  : Prop :=
  match c w with
  | Some (a, w') => Q a w'
  | None => C
  end.

(** A process that holds one uninitialised buffer of eight bytes. *)
Definition demo_buffer : world :=
  set_brk 2 (set_heap <[1%N := Uninit 8]> boot).

(** ** Blocks without an owner *)

(** Every live block is a node of the chain or the path buffer of one:
    nothing that was allocated has been lost. *)
Definition owned_only (w : world) : Prop :=
  ∀ a, is_Some (w_heap w !! a) →
       a ∈ footprint (w_heap w) (w_module_head w).

(** The buffer of the specifier is allocated, the next allocation fails. *)
Definition demo_no_path : world := set_malloc [true; false] boot.

#[global] Instance owned_only_dec (w : world) : Decision (owned_only w).
Proof.
  refine (cast_if (decide (map_Forall
                             (λ a _, a ∈ footprint (w_heap w)
                                           (w_module_head w))
                             (w_heap w)))).
  - intros a [b Hb]. by eapply m.
  - intros Hown. apply n. intros a b Hb. apply Hown. by exists b.
Defined.

(** ** What the resolver writes into a record *)

Section Records.
Context `{Platform}.

(** The base path of a record ends where the directory of its path ends,
    and its realm and its module are objects. *)
Definition record_ok (r : jerry_port_module_t * string) : Prop :=
  base_path_length r.1 = jerry_port_get_directory_end r.2 ∧
  jerry_value_is_object (realm r.1) = true ∧
  jerry_value_is_object (module r.1) = true.
End Records.

(** ** The base of a path *)

Section Bases.
Context `{Platform}.

(** The text [jerry_port_get_cwd (NULL, 0)] leaves in the buffer it
    returns, [None] when it returns [NULL]: it is decided by the working
    directory and by the outcomes of the coming allocations. Off Windows
    the buffer of [getcwd] is the result. On Windows the working directory
    is copied into a buffer of the port. When that buffer cannot be
    allocated, or when the working directory cannot be had, a buffer for
    ["/"] is tried. *)
Definition cwd_text (w : world) : option string :=
  match w_cwd w with
  | Some dir =>
      if WIN32
      then
        if hd true (w_malloc w) then Some dir
        else if hd true (tl (w_malloc w)) then Some "/"%string else None
      else Some dir
  | None => if hd true (w_malloc w) then Some "/"%string else None
  end.

(** The directory [jerry_port_normalize_path] resolves a path against: the
    first [blen] bytes of the base when a length is given, and otherwise
    what [jerry_port_get_cwd (NULL, 0)] returns once the copy of the path
    has been allocated. *)
Definition normalize_base (w : world) (base_p : option N) (blen : nat)
    (base : string) : Prop :=
  if decide (0 < blen)
  then ∃ bp s, base_p = Some bp ∧ w_heap w !! bp = Some (Chars s) ∧
               base = string_take blen (buffer_bytes s)
  else cwd_text (set_malloc (tl (w_malloc w)) w) = Some base.

End Bases.

(** ** More states of the small system *)

(** Module 100 imports ["./bad.js"], which does not parse. *)
Definition demo_after_bad : world :=
  Eval vm_compute in
    state_after
      (@jerry_port_module_resolve posix (JString "./bad.js") (JObject 100) 0)
      demo_loaded.

(** Realm 7 is released after its import, and imports ["math.js"]
    again. *)
Definition demo_released : world :=
  Eval vm_compute in
    state_after (jerry_port_module_release (JObject 7)) demo_loaded.

Definition demo_released_located : world :=
  Eval vm_compute in
    state_after (@resolve_path posix (JString "math.js") JUndefined)
      demo_released.

Definition demo_reloaded : world :=
  Eval vm_compute in
    state_after
      (@jerry_port_module_resolve posix (JString "math.js") JUndefined 0)
      demo_released.

(** The same stand-in, built for Windows. *)
Definition windows : Platform := {|
  WIN32 := true;
  cwk_path_get_absolute := @cwk_path_get_absolute posix;
  parse_module := @parse_module posix;
|}.

(** The first of the coming allocations fails; the second one does, after
    the import of ["math.js"]. *)
Definition demo_first_fails : world := set_malloc [false; true] boot.
Definition demo_copy_fails : world := set_malloc [true; false] demo_loaded.




(** * Properties *)

(** ** C strings *)

Lemma cstr_no_NUL (s : string) (i : nat) :
  i < strlen s → String.get i (cstr s) = String.get i s ∧ String.get i s ≠ Some NUL.
Proof.
  unfold strlen. revert i. induction s as [|c s IH]; simpl; intros i Hi; [lia|].
  destruct (Ascii.eqb_spec c NUL) as [->|Hc]; simpl in *; [lia|].
  destruct i as [|i]; simpl.
  - split; [done|]. by intros [= ?].
  - apply IH. lia.
Qed.

Lemma strlen_length (s : string) : strlen s ≤ String.length s.
Proof.
  unfold strlen. induction s as [|c s IH]; simpl; [lia|].
  destruct (Ascii.eqb c NUL); simpl; lia.
Qed.

Lemma cstr_idemp (s : string) : cstr (cstr s) = cstr s.
Proof.
  induction s as [|c s IH]; simpl; [done|].
  destruct (Ascii.eqb c NUL) eqn:E; simpl; [done|]. by rewrite E, IH.
Qed.

(** [strcmp] returns 0 exactly on buffers that hold the same text. *)
Lemma strcmp_0 (a b : string) : strcmp a b = 0%Z ↔ cstr a = cstr b.
Proof.
  assert (Hbyte : ∀ c, (Z.of_N (N_of_ascii c) = 0)%Z → c = NUL).
  { intros c Hc. rewrite <- (ascii_N_embedding c).
    replace (N_of_ascii c) with 0%N by lia. done. }
  revert b. induction a as [|c a IH]; intros [|d b]; simpl.
  - done.
  - destruct (Ascii.eqb_spec d NUL) as [->|Hd]; [done|].
    split; [|done]. intros Hz. destruct Hd. apply Hbyte. lia.
  - destruct (Ascii.eqb_spec c NUL) as [->|Hc]; [done|].
    split; [|done]. intros Hz. destruct Hc. apply Hbyte. lia.
  - destruct (Ascii.eqb_spec c d) as [->|Hcd].
    + destruct (Ascii.eqb_spec d NUL) as [->|Hd]; [done|].
      rewrite IH. split; [by intros ->|]. by intros [= ?].
    + split.
      * intros Hz. destruct Hcd.
        rewrite <- (ascii_N_embedding c), <- (ascii_N_embedding d).
        f_equal. lia.
      * destruct (Ascii.eqb_spec c NUL) as [->|Hc];
          destruct (Ascii.eqb_spec d NUL) as [->|Hd]; try done.
        intros [= ? _]. done.
Qed.

(** ** Directory part of a path *)

Section DirectoryEndFacts.
Context `{Platform}.

Lemma directory_end_loop_zero (path : string) (n : nat) :
  directory_end_loop path n = 0 ↔
  ∀ i, i < n → is_separator (char_at path i) = false.
Proof.
  induction n as [|n IH]; simpl.
  - split; [intros _ i Hi; lia | done].
  - destruct (is_separator (char_at path n)) eqn:E.
    + split; [done|]. intros Hall. rewrite Hall in E; [done|lia].
    + rewrite IH. split; intros Hall i Hi.
      * destruct (decide (i = n)) as [->|]; [done|]. apply Hall. lia.
      * apply Hall. lia.
Qed.

Lemma directory_end_loop_succ (path : string) (n k : nat) :
  directory_end_loop path n = S k ↔
  k < n ∧ is_separator (char_at path k) = true ∧
  ∀ j, k < j < n → is_separator (char_at path j) = false.
Proof.
  induction n as [|n IH]; simpl.
  - split; [done | intros [? _]; lia].
  - destruct (is_separator (char_at path n)) eqn:E.
    + split.
      * intros [= ->]. split; [lia|]. split; [done|]. intros j Hj. lia.
      * intros (Hk & Hsep & Hlast). f_equal.
        destruct (decide (k = n)) as [->|]; [done|].
        rewrite Hlast in E; [done|lia].
    + rewrite IH. split; intros (Hk & Hsep & Hlast).
      * split; [lia|]. split; [done|]. intros j Hj.
        destruct (decide (j = n)) as [->|]; [done|]. apply Hlast. lia.
      * assert (k ≠ n) by (intros ->; congruence).
        split; [lia|]. split; [done|]. intros j Hj. apply Hlast. lia.
Qed.

(** C7. [jerry_port_get_directory_end] returns the offset just past the
    last separator of the text of [path], and 0 when the text has no
    separator. A separator is ['/'], and also ['\\'] when the port is
    built for Windows. In particular the directory of ["/a/b/c.js"] ends
    at offset 5 and ["bare.js"] has none. *)
Theorem directory_end_correct (path : string) :
  (∀ c, is_separator c = true ↔
        c = "/"%char ∨ (WIN32 = true ∧ c = "\"%char)) ∧
  (jerry_port_get_directory_end path = 0 ↔
   ∀ i, i < strlen path → is_separator (char_at path i) = false) ∧
  (∀ k, jerry_port_get_directory_end path = S k ↔
        k < strlen path ∧ is_separator (char_at path k) = true ∧
        ∀ j, k < j < strlen path → is_separator (char_at path j) = false) ∧
  jerry_port_get_directory_end "/a/b/c.js" = 5 ∧
  jerry_port_get_directory_end "bare.js" = 0.
Proof.
  split; [|split; [|split; [|split]]].
  - intros c. unfold is_separator. destruct WIN32.
    + rewrite orb_true_iff, !Ascii.eqb_eq.
      split; [intros [?|?]; auto | intros [?|[_ ?]]; auto].
    + rewrite Ascii.eqb_eq.
      split; [auto | intros [?|[? _]]; [done | discriminate]].
  - apply directory_end_loop_zero.
  - intros k. apply directory_end_loop_succ.
  - unfold jerry_port_get_directory_end, is_separator. simpl.
    unfold is_separator. by destruct WIN32.
  - unfold jerry_port_get_directory_end, is_separator. simpl.
    unfold is_separator. by destruct WIN32.
Qed.

Lemma directory_end_le (path : string) :
  jerry_port_get_directory_end path ≤ strlen path.
Proof.
  destruct (jerry_port_get_directory_end path) as [|k] eqn:E; [lia|].
  apply directory_end_loop_succ in E. lia.
Qed.
End DirectoryEndFacts.

(** ** Rules for computations *)

Lemma run_total {A} (c : M A) w Q :
  run c w Q False ↔ ∃ a w', c w = Some (a, w') ∧ Q a w'.
Proof.
  unfold run. destruct (c w) as [[a w']|].
  - split; [eauto|]. by intros (? & ? & [= <- <-] & ?).
  - split; [done|]. by intros (? & ? & ? & _).
Qed.

Lemma run_partial {A} (c : M A) w Q a w' :
  run c w Q True → c w = Some (a, w') → Q a w'.
Proof. unfold run. intros Hrun E. by rewrite E in Hrun. Qed.

Lemma run_result {A} (c : M A) w Q C a w' :
  run c w Q C → c w = Some (a, w') → Q a w'.
Proof. unfold run. intros Hrun E. by rewrite E in Hrun. Qed.

Lemma run_mono {A} (c : M A) w (Q Q' : A → world → Prop) (C C' : Prop) :
  run c w Q C → (∀ a w', Q a w' → Q' a w') → (C → C') → run c w Q' C'.
Proof. unfold run. destruct (c w) as [[? ?]|]; auto. Qed.

Lemma run_ret {A} (a : A) w Q C : Q a w → run (ret a) w Q C.
Proof. done. Qed.

Lemma run_bind {A B} (c : M A) (f : A → M B) w Q C :
  run c w (λ a w', run (f a) w' Q C) C → run (c ≫= f) w Q C.
Proof.
  unfold run.
  change ((c ≫= f) w)
    with (match c w with Some (a, w') => f a w' | None => None end).
  by destruct (c w) as [[? ?]|].
Qed.

Lemma run_gets {A} (f : world → A) w Q C : Q (f w) w → run (gets f) w Q C.
Proof. done. Qed.

Lemma run_modify (f : world → world) w Q C :
  Q tt (f w) → run (modify f) w Q C.
Proof. done. Qed.

Lemma run_emit (e : event) w Q C :
  Q tt (set_trace (λ t, t ++ [e]) w) → run (emit e) w Q C.
Proof. done. Qed.

Lemma run_undefined {A} w (Q : A → world → Prop) (C : Prop) :
  C → run undefined_behaviour w Q C.
Proof. done. Qed.

Lemma run_malloc (size : nat) w Q C :
  (hd true (w_malloc w) = true →
   Q (Some (w_brk w))
     (set_brk (N.succ (w_brk w))
        (set_heap <[w_brk w := Uninit size]>
           (set_malloc (tail (w_malloc w)) w)))) →
  (hd true (w_malloc w) = false →
   Q None (set_malloc (tail (w_malloc w)) w)) →
  run (malloc size) w Q C.
Proof.
  unfold run, malloc. destruct (hd true (w_malloc w)); auto.
Qed.

Lemma run_getcwd w Q C :
  (∀ dir, w_cwd w = Some dir →
     Q (Some (w_brk w))
       (set_brk (N.succ (w_brk w)) (set_heap <[w_brk w := Chars dir]> w))) →
  (w_cwd w = None → Q None w) →
  run getcwd w Q C.
Proof.
  unfold run, getcwd. destruct (w_cwd w); auto.
Qed.

Lemma run_free (p : N) w Q (C : Prop) :
  (∀ b, w_heap w !! p = Some b → Q tt (set_heap (delete p) w)) →
  (w_heap w !! p = None → C) →
  run (free p) w Q C.
Proof.
  unfold run, free. destruct (w_heap w !! p); eauto.
Qed.

Lemma run_load (p : N) w Q (C : Prop) :
  (∀ b, w_heap w !! p = Some b → Q b w) →
  (w_heap w !! p = None → C) →
  run (load p) w Q C.
Proof.
  unfold run, load. destruct (w_heap w !! p); eauto.
Qed.

Lemma run_load_chars (p : N) w Q (C : Prop) :
  (∀ s, w_heap w !! p = Some (Chars s) → Q s w) →
  ((∀ s, w_heap w !! p ≠ Some (Chars s)) → C) →
  run (load_chars p) w Q C.
Proof.
  intros HQ HC. unfold run, load_chars, load, mbind, M_bind.
  destruct (w_heap w !! p) as [[]|] eqn:E; simpl; eauto;
    apply HC; intros ??; done.
Qed.

Lemma run_load_module (p : N) w Q (C : Prop) :
  (∀ m, w_heap w !! p = Some (Module m) → Q m w) →
  ((∀ m, w_heap w !! p ≠ Some (Module m)) → C) →
  run (load_module p) w Q C.
Proof.
  intros HQ HC. unfold run, load_module, load, mbind, M_bind.
  destruct (w_heap w !! p) as [[]|] eqn:E; simpl; eauto;
    apply HC; intros ??; done.
Qed.

Lemma run_store_chars (a : N) (s : string) w Q (C : Prop) :
  (∀ size, w_heap w !! a = Some (Uninit size) → String.length s + 1 ≤ size →
     Q tt (set_heap <[a := Chars s]> w)) →
  ((∀ size, w_heap w !! a = Some (Uninit size) → ¬ String.length s + 1 ≤ size) → C) →
  run (store_chars (Some a) s) w Q C.
Proof.
  intros HQ HC. unfold run, store_chars, load, mbind, M_bind.
  destruct (w_heap w !! a) as [[]|] eqn:E; simpl;
    try (apply HC; intros ??; done).
  case_decide; simpl; eauto. apply HC. by intros ? [= <-].
Qed.

Lemma run_store_bytes (a : N) (s : string) w Q (C : Prop) :
  (∀ size, w_heap w !! a = Some (Uninit size) → String.length s ≤ size →
     Q tt (set_heap <[a := Bytes s]> w)) →
  ((∀ size, w_heap w !! a = Some (Uninit size) → ¬ String.length s ≤ size) → C) →
  run (store_bytes a s) w Q C.
Proof.
  intros HQ HC. unfold run, store_bytes, load, mbind, M_bind.
  destruct (w_heap w !! a) as [[]|] eqn:E; simpl;
    try (apply HC; intros ??; done).
  case_decide; simpl; eauto. apply HC. by intros ? [= <-].
Qed.

Lemma run_store_module (a : N) (m : jerry_port_module_t) w Q (C : Prop) :
  (∀ size, w_heap w !! a = Some (Uninit size) →
     Q tt (set_heap <[a := Module m]> w)) →
  ((∀ size, w_heap w !! a ≠ Some (Uninit size)) → C) →
  run (store_module (Some a) m) w Q C.
Proof.
  intros HQ HC. unfold run, store_module, load, mbind, M_bind.
  destruct (w_heap w !! a) as [[]|] eqn:E; simpl; eauto;
    apply HC; intros ??; done.
Qed.

Lemma run_memcpy_from (p : N) (n : nat) w Q (C : Prop) :
  (∀ s, w_heap w !! p = Some (Chars s) → n ≤ String.length (buffer_bytes s) →
     Q (string_take n (buffer_bytes s)) w) →
  ((∀ s, w_heap w !! p = Some (Chars s) →
         ¬ n ≤ String.length (buffer_bytes s)) → C) →
  run (memcpy_from p n) w Q C.
Proof.
  intros HQ HC. unfold memcpy_from. apply run_bind, run_load_chars.
  - intros s Hs. case_decide; [by apply run_ret, HQ|].
    apply run_undefined, HC. intros s' Hs'. rewrite Hs in Hs'.
    by injection Hs' as <-.
  - intros Hno. apply HC. intros s Hs. by destruct (Hno s).
Qed.

Lemma run_overwrite_chars (a : N) (s : string) w Q (C : Prop) :
  (∀ b, w_heap w !! a = Some b → Q tt (set_heap <[a := Chars s]> w)) →
  (w_heap w !! a = None → C) →
  run (overwrite_chars a s) w Q C.
Proof.
  intros HQ HC. unfold overwrite_chars. apply run_bind, run_load; [|done].
  intros b Hb. by eapply run_modify, HQ.
Qed.

(** Simplifying the fields of a state built with the setters. *)
Ltac wsimpl :=
  cbn [w_heap w_brk w_module_head w_native w_objects w_global w_cwd w_fs
       w_malloc w_trace set_heap set_brk set_module_head set_native
       set_objects set_malloc set_trace fst snd] in *.

Lemma string_take_length (n : nat) (s : string) :
  String.length (string_take n s) = n `min` String.length s.
Proof.
  revert s. induction n as [|n IH]; intros [|c s]; simpl; auto.
Qed.

Lemma string_take_all (s : string) (n : nat) :
  String.length s ≤ n → string_take n s = s.
Proof.
  revert n. induction s as [|c s IH]; intros [|n] Hn; simpl in *;
    try done; try lia.
  f_equal. apply IH. lia.
Qed.

Lemma string_take_buffer (s : string) :
  string_take (String.length s) (buffer_bytes s) = s.
Proof.
  unfold buffer_bytes. induction s as [|c s IH]; simpl; [done|]. by f_equal.
Qed.

Lemma append_length (a b : string) :
  String.length (a +:+ b) = String.length a + String.length b.
Proof. induction a as [|c a IH]; simpl; [done|]. by rewrite IH. Qed.

Lemma buffer_bytes_length (s : string) :
  String.length (buffer_bytes s) = String.length s + 1.
Proof. unfold buffer_bytes. rewrite append_length. simpl. lia. Qed.

Lemma heap_below_None w a :
  heap_below w → (w_brk w ≤ a)%N → w_heap w !! a = None.
Proof.
  intros Hb Ha. destruct (w_heap w !! a) eqn:E; [|done].
  apply Hb in E. simpl in E. lia.
Qed.

Lemma heap_below_Some w a b :
  heap_below w → w_heap w !! a = Some b → (a < w_brk w)%N.
Proof. intros Hb E. by apply Hb in E. Qed.

(** One step of a run: the rule of the computation at the head. *)
Ltac run_step :=
  lazymatch goal with
  | |- run (_ ≫= _) _ _ _ => apply run_bind
  | |- run (ret _) _ _ _ => apply run_ret
  | |- run (gets _) _ _ _ => apply run_gets
  | |- run (modify _) _ _ _ => apply run_modify
  | |- run (emit _) _ _ _ => apply run_emit
  | |- run undefined_behaviour _ _ _ => apply run_undefined
  | |- run (malloc _) _ _ _ => apply run_malloc; intros ?
  | |- run getcwd _ _ _ => apply run_getcwd; [intros ? ?|intros ?]
  | |- run (free _) _ _ _ => apply run_free; [intros ? ?|intros ?]
  | |- run (load _) _ _ _ => apply run_load; [intros ? ?|intros ?]
  | |- run (load_chars _) _ _ _ => apply run_load_chars; [intros ? ?|intros ?]
  | |- run (load_module _) _ _ _ => apply run_load_module; [intros ? ?|intros ?]
  | |- run (store_chars (Some _) _) _ _ _ =>
      apply run_store_chars; [intros ? ? ?|intros ?]
  | |- run (store_chars None _) _ _ _ => apply run_undefined
  | |- run (store_bytes _ _) _ _ _ =>
      apply run_store_bytes; [intros ? ? ?|intros ?]
  | |- run (store_module (Some _) _) _ _ _ =>
      apply run_store_module; [intros ? ?|intros ?]
  | |- run (store_module None _) _ _ _ => apply run_undefined
  | |- run (memcpy_from _ _) _ _ _ =>
      apply run_memcpy_from; [intros ? ? ?|intros ?]
  | |- run (overwrite_chars _ _) _ _ _ =>
      apply run_overwrite_chars; [intros ? ?|intros ?]
  | |- run (jerry_release_value _) _ _ _ => apply run_emit
  | |- run (jerry_port_log _ _) _ _ _ => apply run_emit
  | |- run (jerry_acquire_value _) _ _ _ =>
      apply run_bind, run_emit, run_ret
  | |- run (jerry_port_release_source _) _ _ _ =>
      apply run_free; [intros ? ?|intros ?]
  | |- run (if decide ?P then _ else _) _ _ _ => destruct (decide P)
  | |- run (if ?b then _ else _) _ _ _ => destruct b eqn:?
  | |- run (match ?x with _ => _ end) _ _ _ => destruct x eqn:?
  end; wsimpl.

(** Lookups in a heap after insertions and deletions at addresses that
    arithmetic tells apart. *)
Ltac heap_simpl :=
  repeat first
    [ rewrite lookup_insert_eq in *
    | rewrite lookup_delete_eq in *
    | rewrite lookup_insert_ne in * by lia
    | rewrite lookup_delete_ne in * by lia ].

Lemma in_tail {A} (x : A) (l : list A) : x ∈ tail l → x ∈ l.
Proof. destruct l; simpl; [done|]. intros ?. apply elem_of_cons. by right. Qed.

Lemma hd_false_in (l : list bool) : hd true l = false → false ∈ l.
Proof. destruct l as [|[] l]; simpl; try done. intros _. apply elem_of_cons. by left. Qed.

Lemma tail_drop {A} (l : list A) (k : nat) : tail (drop k l) = drop (S k) l.
Proof.
  revert l. induction k as [|k IH]; intros [|x l]; simpl; auto.
Qed.

Lemma in_drop {A} (x : A) (l : list A) (k : nat) : x ∈ drop k l → x ∈ l.
Proof.
  intros Hx. rewrite <- (take_drop k l). apply elem_of_app. by right.
Qed.

Lemma consumed_refl l : consumed l l.
Proof. by exists 0. Qed.

Lemma consumed_tail l l' : consumed l l' → consumed l (tail l').
Proof. intros [k ->]. exists (S k). apply tail_drop. Qed.

Lemma consumed_trans l1 l2 l3 :
  consumed l1 l2 → consumed l2 l3 → consumed l1 l3.
Proof. intros [k ->] [k' ->]. exists (k + k'). by rewrite drop_drop. Qed.

Lemma consumed_in l l' x : consumed l l' → x ∈ l' → x ∈ l.
Proof. intros [k ->]. apply in_drop. Qed.

Lemma heap_below_free (w : world) :
  heap_below w → ∀ a, (w_brk w ≤ a)%N → w_heap w !! a = None.
Proof. intros Hb a Ha. by apply heap_below_None. Qed.

Lemma heap_below_live (w : world) :
  heap_below w → ∀ a x, w_heap w !! a = Some x → (a < w_brk w)%N.
Proof. intros Hb a x. by apply heap_below_Some. Qed.

(** A run that stops without a result although the hypotheses say it goes
    on. *)
Ltac absurd_crash :=
  exfalso;
  match goal with
  | H : Some _ = None |- _ => discriminate H
  | H : ?x = None, E : ?x = Some _ |- _ => congruence
  | H : ∀ _, Some _ ≠ Some _ |- _ => by eapply H
  | H : ∀ _, ?x ≠ Some _, E : ?x = Some _ |- _ => by eapply H
  | H : ∀ _, Some _ = Some _ → ¬ _ |- _ =>
      eapply H;
      [ reflexivity
      | rewrite ?string_take_length, ?buffer_bytes_length; simpl; lia ]
  | H : ∀ _, ?x = Some _ → ¬ _, E : ?x = Some _ |- _ =>
      eapply H;
      [ exact E
      | rewrite ?string_take_length, ?buffer_bytes_length; simpl; lia ]
  end.

Ltac heap_below_tac :=
  unfold heap_below in *; wsimpl;
  repeat first [ apply map_Forall_delete | apply map_Forall_insert_2; [lia|] ];
  match goal with
  | H : map_Forall _ ?h |- map_Forall _ ?h =>
      eapply map_Forall_impl; [exact H | simpl; intros; lia]
  end.

(** Two heaps with the same blocks. *)
Ltac heap_eq :=
  apply map_eq; intros ?;
  repeat first [rewrite lookup_insert | rewrite lookup_delete];
  repeat case_decide; simplify_eq; try lia; try done;
  try (symmetry;
       match goal with
       | H : ∀ a, _ → ?h !! a = None |- ?h !! _ = None => apply H; lia
       end).

Ltac plan_tac :=
  first [ solve [repeat apply consumed_tail; apply consumed_refl]
        | solve [eauto 6 using in_tail, hd_false_in] ].

Ltac post_tac :=
  wsimpl; split_and!; try done; try lia; try heap_below_tac; try plan_tac;
  try heap_eq.

(** ** The path functions *)

Section PathFunctions.
Context `{Platform}.

Lemma run_get_cwd w Q C :
  heap_below w →
  (∀ res w', get_cwd_post w res w' → Q res w') →
  run (jerry_port_get_cwd None 0) w Q C.
Proof.
  intros Hb HQ. unfold jerry_port_get_cwd, jerry_convert_utf16_to_utf8.
  pose proof (heap_below_free w Hb) as Hfree.
  destruct WIN32.
  all: repeat (run_step; heap_simpl; simplify_eq).
  all: try absurd_crash.
  all: apply HQ; unfold get_cwd_post, unchanged; post_tac.
  all: eexists; (split; [heap_eq | auto]).
Qed.

Lemma run_normalize_path in_p len base_p blen w Q C :
  heap_below w →
  C ∨ normalize_pre in_p len base_p blen w →
  (∀ res w', normalize_post in_p len base_p blen w res w' → Q res w') →
  run (jerry_port_normalize_path in_p len base_p blen) w Q C.
Proof.
  intros Hb Hpre HQ. unfold jerry_port_normalize_path.
  pose proof (heap_below_free w Hb) as Hfree.
  pose proof (heap_below_live w Hb) as Hlive.
  run_step. run_step.
  2:{ apply HQ. unfold normalize_post, unchanged. post_tac. }
  run_step. run_step.
  2:{ destruct Hpre as [?|[(t & Ht & ?) _]]; [done|]. exfalso.
      pose proof (Hlive _ _ Ht).
      rewrite lookup_insert_ne in * by lia. eapply H1; [done|].
      rewrite buffer_bytes_length. lia. }
  assert (in_p ≠ w_brk w) by (intros ->; by rewrite lookup_insert_eq in *).
  rewrite lookup_insert_ne in * by done.
  pose proof (Hlive _ _ H1).
  run_step. run_step.
  2:{ exfalso. rewrite lookup_insert_eq in *. eapply H5; [done|].
      rewrite string_take_length. lia. }
  clear H5 H6. rename s into t, H1 into Ht.
  set (text := string_take len (buffer_bytes t)).
  run_step.
  (* the base directory: a copy of the referrer's, or the working directory *)
  match goal with |- run ?c ?w1 _ _ =>
    apply (run_mono c w1
      (λ a w2,
         unchanged w w2 ∧ heap_below w2 ∧ (w_brk w < w_brk w2)%N ∧
         consumed (w_malloc w) (w_malloc w2) ∧
         match a with
         | None =>
             w_heap w2 = <[w_brk w := Chars text]> (w_heap w) ∧
             false ∈ w_malloc w
         | Some bz =>
             (w_brk w < bz < w_brk w2)%N ∧
             ∃ base,
               w_heap w2 =
                 <[bz := Chars base]> (<[w_brk w := Chars text]> (w_heap w)) ∧
               (∀ bp s, 0 < blen → base_p = Some bp →
                        w_heap w !! bp = Some (Chars s) →
                        base = string_take blen (buffer_bytes s)) ∧
               (blen = 0 → base = "/"%string ∨ w_cwd w = Some base)
         end) _ C C)
  end; [| |done].
  - run_step.
    + (* a copy of the first [blen] bytes of the referrer's path *)
      run_step. run_step; [|run_step; unfold unchanged; post_tac].
      destruct base_p as [bp|]; wsimpl.
      2:{ apply run_undefined. destruct Hpre as [?|[_ Hbase]]; [done|].
          by destruct (Hbase l) as (? & ? & [=] & _). }
      run_step. run_step.
      2:{ destruct Hpre as [?|[_ Hbase]]; [done|].
          destruct (Hbase l) as (? & s & [= <-] & Hs & ?). exfalso.
          pose proof (Hlive _ _ Hs).
          eapply H5; [by rewrite !lookup_insert_ne by lia|].
          rewrite buffer_bytes_length. lia. }
      run_step. run_step; [|heap_simpl; absurd_crash]. run_step.
      unfold unchanged; post_tac.
      eexists. split_and!; [heap_eq | | lia].
      intros bp' s' _ [= <-] Hs'. pose proof (Hlive _ _ Hs').
      rewrite !lookup_insert_ne in H5 by lia. by simplify_eq.
    + (* the working directory *)
      apply run_get_cwd; [heap_below_tac|].
      intros res w2 (Hun & Hb2 & Hbrk & Hplan & Hres).
      unfold unchanged in *. wsimpl.
      destruct Hun as (? & ? & ? & ? & ? & ? & ?).
      split_and!; try done; try lia.
      { eapply consumed_trans; [|done]. plan_tac. }
      destruct res as [bz|].
      * destruct Hres as (? & dir & -> & Hdir). split; [lia|].
        exists dir. split_and!; [heap_eq | intros; lia | done].
      * destruct Hres as [-> Hfail]. split; [heap_eq|].
        by apply in_tail.
  - (* the path *)
    intros a w2 (Hun & Hb2 & Hbrk & Hplan & Ha).
    destruct Hun as (? & ? & ? & ? & ? & ? & ?).
    destruct a as [bz|].
    + destruct Ha as (Hbz & base & Hheap & Hbase1 & Hbase2).
      repeat (run_step; rewrite ?Hheap in *; heap_simpl; simplify_eq).
      all: try absurd_crash.
      all: apply HQ; unfold normalize_post, unchanged; wsimpl.
      all: split_and!; try done; try lia; try heap_below_tac.
      all: try (apply consumed_tail; exact Hplan).
      * exists t, s. split_and!; [done | rewrite Hheap; heap_eq | done | done].
      * rewrite Hheap; heap_eq.
      * eapply consumed_in; [exact Hplan|]. by apply hd_false_in.
    + destruct Ha as [Hheap Hfail].
      repeat (run_step; rewrite ?Hheap in *; heap_simpl; simplify_eq).
      all: try absurd_crash.
      apply HQ; unfold normalize_post, unchanged; wsimpl.
      split_and!; try done; try lia; try heap_below_tac.
      rewrite Hheap; heap_eq.
Qed.
End PathFunctions.

(** ** The file reader *)

Section Reader.
Context `{Platform}.

Lemma run_read_source file_name_p w Q C :
  heap_below w →
  C ∨ (∃ name, w_heap w !! file_name_p = Some (Chars name)) →
  (∀ res w', read_source_post file_name_p w res w' → Q res w') →
  run (jerry_port_read_source file_name_p) w Q C.
Proof.
  intros Hb Hpre HQ. unfold jerry_port_read_source.
  pose proof (heap_below_free w Hb) as Hfree.
  run_step. run_step.
  2:{ destruct Hpre as [?|[name Hname]]; [done|]. by destruct (H0 name). }
  clear Hpre.
  repeat (run_step; heap_simpl; simplify_eq).
  all: try absurd_crash.
  all: apply HQ; exists s; unfold source_of; wsimpl.
  all: repeat match goal with
         | E : w_fs _ !! _ = _ |- _ => rewrite E
         | E : f_open _ = _ |- _ => rewrite E
         | E : hd true _ = _ |- _ => rewrite E
         end; simpl.
  all: try (rewrite bool_decide_eq_true_2 by lia).
  all: try (rewrite bool_decide_eq_false_2 by lia).
  all: rewrite <- ?app_assoc; simpl.
  all: split_and!; try done; try lia; try heap_below_tac; try plan_tac.
  all: try heap_eq; eauto.
  all: rewrite ?string_take_length; try lia.
  repeat f_equal; lia.
Qed.
End Reader.

(** ** The chain of the registry *)

Lemma record_at_Some h p m s :
  record_at h p = Some (m, s) ↔
  h !! p = Some (Module m) ∧ h !! path_p m = Some (Chars s).
Proof.
  unfold record_at. split.
  - destruct (h !! p) as [[| | |m']|]; try done.
    destruct (h !! path_p m') as [[]|] eqn:E; try done.
    by intros [= <- <-].
  - intros [-> ->]. done.
Qed.


Lemma blocks_of_node (h : gmap N block) (p : N) : p ∈ blocks_of h p.
Proof.
  unfold blocks_of. destruct (record_at h p) as [[m s]|]; apply elem_of_cons; by left.
Qed.

Lemma footprint_node (h : gmap N block) (chain : list N) (p : N) : p ∈ chain → p ∈ footprint h chain.
Proof.
  induction chain as [|q chain IH]; simpl; [by intros ?%elem_of_nil|].
  intros [->|Hp]%elem_of_cons; apply elem_of_app.
  - left. apply blocks_of_node.
  - right. by apply IH.
Qed.

Lemma footprint_path (h : gmap N block) (chain : list N) (p : N) m s :
  p ∈ chain → record_at h p = Some (m, s) → path_p m ∈ footprint h chain.
Proof.
  intros Hp Hr.
  induction chain as [|q chain IH]; simpl; [by apply elem_of_nil in Hp|].
  apply elem_of_app. apply elem_of_cons in Hp as [->|Hp]; [left|right; auto].
  unfold blocks_of. rewrite Hr. apply elem_of_cons. right.
  apply elem_of_cons. by left.
Qed.

(** Two heaps that agree on the blocks of a chain show the same records. *)
Lemma record_at_agree (h h' : gmap N block) (chain : list N) :
  Forall (λ p, is_Some (record_at h p)) chain →
  (∀ a, a ∈ footprint h chain → h' !! a = h !! a) →
  ∀ p, p ∈ chain → record_at h' p = record_at h p.
Proof.
  intros Hchain Hagree p Hp.
  rewrite Forall_forall in Hchain. destruct (Hchain p Hp) as [[m s] Hr].
  rewrite Hr. apply record_at_Some in Hr as [Hm Hs].
  apply record_at_Some. split.
  - rewrite Hagree; [done|]. by apply footprint_node.
  - rewrite Hagree; [done|].
    eapply footprint_path; [done|]. by apply record_at_Some.
Qed.

Lemma footprint_ext (h h' : gmap N block) (chain : list N) :
  (∀ p, p ∈ chain → record_at h' p = record_at h p) →
  footprint h' chain = footprint h chain.
Proof.
  induction chain as [|q chain IH]; intros Hext; simpl; [done|].
  unfold blocks_of. rewrite Hext by (apply elem_of_cons; by left).
  f_equal. apply IH. intros p Hp. apply Hext, elem_of_cons. by right.
Qed.

Lemma registry_ext (h h' : gmap N block) (chain : list N) :
  (∀ p, p ∈ chain → record_at h' p = record_at h p) →
  omap (record_at h') chain = omap (record_at h) chain.
Proof.
  induction chain as [|q chain IH]; intros Hext; simpl; [done|].
  rewrite Hext by (apply elem_of_cons; by left).
  assert (omap (record_at h') chain = omap (record_at h) chain) as IH'.
  { apply IH. intros p Hp. apply Hext, elem_of_cons. by right. }
  destruct (record_at h q); [f_equal|]; exact IH'.
Qed.

Lemma filter_ext_elem {A} (f g : A → bool) (l : list A) :
  (∀ x, x ∈ l → f x = g x) → List.filter f l = List.filter g l.
Proof.
  induction l as [|x l IH]; intros Hext; simpl; [done|].
  rewrite Hext by (apply elem_of_cons; by left).
  rewrite IH; [done|]. intros y Hy. apply Hext, elem_of_cons. by right.
Qed.

Lemma chain_ok_ext (h h' : gmap N block) (chain : list N) :
  (∀ p, p ∈ chain → record_at h' p = record_at h p) →
  chain_ok h chain → chain_ok h' chain.
Proof.
  intros Hext [Hall Hnd]. split.
  - rewrite Forall_forall in *. intros p Hp. rewrite Hext by done. auto.
  - by rewrite (footprint_ext h h').
Qed.

Lemma chain_ok_cons (h : gmap N block) (p : N) (chain : list N) :
  chain_ok h (p :: chain) →
  ∃ m s, h !! p = Some (Module m) ∧ h !! path_p m = Some (Chars s) ∧
         p ≠ path_p m ∧ (p ∉ footprint h chain) ∧
         (path_p m ∉ footprint h chain) ∧ chain_ok h chain.
Proof.
  intros [Hall Hnd]. apply Forall_cons in Hall as [[[m s] Hr] Hall].
  simpl in Hnd. unfold blocks_of in Hnd. rewrite Hr in Hnd. simpl in Hnd.
  apply NoDup_cons in Hnd as [Hp Hnd]. apply NoDup_cons in Hnd as [Hpath Hnd].
  apply record_at_Some in Hr as [Hm Hs].
  exists m, s. split_and!; try done.
  - intros E. apply Hp. rewrite <- E. apply elem_of_cons. by left.
  - intros E. apply Hp. apply elem_of_cons. by right.
Qed.

Lemma elem_of_filter_bool {A} (f : A → bool) (l : list A) (x : A) :
  x ∈ List.filter f l ↔ x ∈ l ∧ f x = true.
Proof. rewrite !list_elem_of_In. apply filter_In. Qed.

Lemma run_module_lookup realm_v new_p chain w wanted Q C :
  Forall (λ p, is_Some (record_at (w_heap w) p)) chain →
  w_heap w !! new_p = Some (Chars wanted) →
  Q (fst <$> List.find (record_matches realm_v wanted)
               (omap (record_at (w_heap w)) chain)) w →
  run (module_lookup realm_v new_p chain) w Q C.
Proof.
  intros Hchain Hwanted. revert Q.
  induction Hchain as [|p chain [[m s] Hp] _ IH]; intros Q HQ; simpl.
  - by apply run_ret.
  - simpl in HQ. rewrite Hp in HQ. simpl in HQ.
    apply record_at_Some in Hp as [Hm Hs].
    unfold record_matches, record_key in HQ. simpl in HQ.
    run_step. run_step; [|absurd_crash]. simplify_eq.
    destruct (bool_decide_reflect (realm m = realm_v)) as [Hr|Hr].
    + run_step. run_step; [|absurd_crash].
      run_step. run_step; [|absurd_crash]. simplify_eq.
      destruct (decide (strcmp s wanted = 0%Z)) as [Hc|Hc].
      * apply run_ret. rewrite bool_decide_eq_true_2 in HQ; [done|].
        apply strcmp_0 in Hc. by rewrite Hc.
      * apply IH. rewrite bool_decide_eq_false_2 in HQ; [done|].
        intros E. apply Hc, strcmp_0. congruence.
    + apply IH. rewrite bool_decide_eq_false_2 in HQ; [done|].
      intros E. apply Hr. congruence.
Qed.

Lemma run_module_free_loop release_all realm_v chain :
  ∀ prev w Q C,
    chain_ok (w_heap w) chain →
    w_module_head w = prev ++ chain →
    (∀ w', free_post release_all realm_v prev chain w w' → Q tt w') →
    run (module_free_loop release_all realm_v prev chain) w Q C.
Proof.
  induction chain as [|p chain IH]; intros prev w Q C Hok Hhead HQ; simpl.
  - apply run_ret, HQ. unfold free_post. simpl.
    rewrite app_nil_r in *. split_and!; try done. by rewrite app_nil_r.
  - apply chain_ok_cons in Hok as (m & s & Hm & Hs & Hne & Hp & Hpath & Hok).
    assert (Hr : record_at (w_heap w) p = Some (m, s)) by by apply record_at_Some.
    run_step. run_step; [|absurd_crash]. simplify_eq.
    destruct (release_all || bool_decide (realm m = realm_v)) eqn:Hrel.
    + (* the node is released and unlinked *)
      repeat (run_step; heap_simpl; simplify_eq).
      all: try absurd_crash.
      set (h' := delete p (delete (path_p m) (w_heap w))).
      assert (Hext : ∀ q, q ∈ chain → record_at h' q = record_at (w_heap w) q).
      { apply record_at_agree; [apply Hok|]. intros a Ha. unfold h'.
        rewrite !lookup_delete_ne; [done| |]; intros <-; done. }
      apply IH; wsimpl.
      * by apply (chain_ok_ext (w_heap w)).
      * done.
      * intros w' (Hhead' & Hheap' & Htrace' & ? & ? & ? & ? & ? & ? & ?).
        apply HQ. unfold free_post in *. wsimpl. fold h' in Hheap', Htrace'.
        assert (Hgone : node_released (w_heap w) release_all realm_v p = true)
          by (unfold node_released, released, in_realm; by rewrite Hr).
        simpl. rewrite Hgone, Hr. simpl.
        unfold released at 1, in_realm at 1. simpl. rewrite Hrel. simpl.
        assert (Hrel_ext : ∀ q, q ∈ chain →
                  node_released h' release_all realm_v q =
                  node_released (w_heap w) release_all realm_v q).
        { intros q Hq. unfold node_released. by rewrite Hext. }
        split_and!; try done.
        -- rewrite Hhead'. f_equal. apply filter_ext_elem.
           intros q Hq. by rewrite Hrel_ext.
        -- intros a. rewrite Hheap'.
           rewrite (filter_ext_elem _ _ _ Hrel_ext).
           rewrite (footprint_ext (w_heap w) h').
           2:{ intros q [Hq _]%elem_of_filter_bool. by apply Hext. }
           unfold blocks_of. rewrite Hr. simpl. unfold h'.
           destruct (decide (a = p)) as [->|Hap].
           { rewrite lookup_delete_eq.
             rewrite (bool_decide_eq_true_2 (p ∈ p :: _))
               by (apply elem_of_cons; by left).
             by case_match. }
           destruct (decide (a = path_p m)) as [->|Hapath].
           { rewrite lookup_delete_ne, lookup_delete_eq by done.
             rewrite (bool_decide_eq_true_2 (_ ∈ p :: _))
               by (rewrite !elem_of_cons; auto).
             by case_match. }
           rewrite !lookup_delete_ne by done.
           erewrite bool_decide_ext; [done|].
           rewrite !elem_of_cons. intuition.
        -- rewrite Htrace'. rewrite <- !app_assoc. simpl.
           by rewrite (registry_ext (w_heap w) h') by done.
    + (* the node stays and becomes [prev_p] *)
      apply IH; [done|by rewrite <- app_assoc|].
      intros w' (Hhead' & Hheap' & Htrace' & ? & ? & ? & ? & ? & ? & ?).
      apply HQ. unfold free_post in *.
      assert (Hkept : node_released (w_heap w) release_all realm_v p = false)
        by (unfold node_released, released, in_realm; by rewrite Hr).
      simpl. rewrite Hkept, Hr. simpl.
      unfold released at 1, in_realm at 1. simpl. rewrite Hrel. simpl.
      split_and!; try done. by rewrite Hhead', <- app_assoc.
Qed.

(** ** The resolver *)

Lemma run_get_native (v : jerry_value_t) w Q C :
  Q (native_of w v) w → run (jerry_get_object_native_pointer v) w Q C.
Proof. by destruct v. Qed.

Lemma string_size_utf8 (v : jerry_value_t) :
  jerry_get_utf8_string_size v = String.length (jerry_string_utf8 v).
Proof. by destruct v. Qed.

Section Resolver.
Context `{Platform}.

Lemma run_resolve_path specifier referrer w Q C :
heap_below w →
C ∨ (hd true (w_malloc w) = true ∧ referrer_ok w referrer) →
(∀ located w1, resolve_path_post specifier w located w1 → Q located w1) →
run (resolve_path specifier referrer) w Q C.
Proof.
intros Hb Hpre HQ. unfold resolve_path.
pose proof (heap_below_free w Hb) as Hfree.
pose proof (heap_below_live w Hb) as Hlive.
rewrite string_size_utf8. set (text := jerry_string_utf8 specifier).
apply run_bind, run_get_native. run_step.
(* the base directory *)
match goal with |- run ?c _ _ _ =>
  apply (run_mono c w
    (λ base w0, w0 = w ∧
       (C ∨ (0 < base.2 →
             ∃ bp s, base.1 = Some bp ∧ w_heap w !! bp = Some (Chars s) ∧
                     base.2 ≤ String.length s + 1))) _ C C)
end; [| |done].
{ destruct (native_of w referrer) as [module_p|] eqn:Hnative.
  - run_step. run_step.
    + run_step. split; [done|]. destruct Hpre as [?|[_ Hok]]; [by left|right].
      destruct (Hok _ Hnative) as (m' & s & ? & ? & ?). simplify_eq. eauto.
    + destruct Hpre as [?|[_ Hok]]; [done|].
      destruct (Hok _ Hnative) as (m' & s & ? & ? & ?). absurd_crash.
  - run_step. split; [done|]. right. simpl. lia. }
intros [base_p blen] ? [-> Hbase]. simpl in Hbase. wsimpl.
run_step. run_step.
2:{ run_step. run_step. destruct Hpre as [?|[? _]]; [done|congruence]. }
run_step. run_step; [|heap_simpl; absurd_crash]. run_step.
apply run_normalize_path; [heap_below_tac| |].
{ destruct Hbase as [?|Hbase]; [by left|right]. split.
  - exists text. wsimpl. rewrite lookup_insert_eq. split; [done|lia].
  - intros Hlen. destruct (Hbase Hlen) as (bp & s & -> & Hs & ?).
    exists bp, s. pose proof (Hlive _ _ Hs). wsimpl.
    by rewrite !lookup_insert_ne by lia. }
intros res w1 (Hun & Hb1 & Hbrk & Hplan & Hres). run_step.
apply HQ. unfold resolve_path_post. unfold unchanged in *. wsimpl.
destruct Hun as (? & ? & ? & ? & ? & ? & ?).
split_and!; try done; try lia.
{ eapply consumed_trans; [|done]. plan_tac. }
destruct res as [new_p|].
- destruct Hres as (? & t & base & Ht & -> & _). split; [lia|].
  rewrite lookup_insert_eq in Ht. simplify_eq.
  exists base. rewrite string_take_buffer. by rewrite insert_insert_eq.
- destruct Hres as [-> Hfail]. split; [by rewrite insert_insert_eq|].
  by apply in_tail.
Qed.


Lemma source_of_set_trace f w name :
source_of (set_trace f w) name = source_of w name.
Proof. done. Qed.

Lemma run_resolve_module in_p len new_p w1 Q C :
heap_below w1 →
resolve_module_pre in_p len new_p w1 →
(record_allocation_fails in_p len new_p w1 → C) →
(∀ v w', resolve_module_post in_p len new_p w1 v w' → Q v w') →
run (resolve_module in_p len new_p) w1 Q C.
Proof.
intros Hb (Hne & (text & Htext & Hlen) & (path & Hpath) & Hchain) HC HQ.
unfold resolve_module, jerry_get_global_object.
pose proof (heap_below_free w1 Hb) as Hfree.
pose proof (heap_below_live w1 Hb) as Hlive.
pose proof (Hlive _ _ Htext). pose proof (Hlive _ _ Hpath).
run_step. run_step. run_step. run_step. run_step. run_step. run_step.
apply (run_module_lookup _ _ _ _ path); [done..|]. wsimpl.
fold (registry w1) in *.
destruct (List.find _ (registry w1)) as [[m s]|] eqn:Hfind; simpl.
- (* a cached module *)
  repeat (run_step; heap_simpl; simplify_eq).
  all: try absurd_crash.
  apply HQ. exists text, path. cbv zeta. rewrite Hfind. wsimpl.
  split_and!; try done; try lia; try heap_below_tac; try plan_tac.
  by rewrite <- !app_assoc.
- run_step.
  apply run_read_source; [heap_below_tac|by right; exists path|].
  intros res w2 (name & Hname & ? & ? & ? & ? & ? & ? & Hb2 & ? & Hplan & Hres).
  wsimpl. rewrite Hpath in Hname. injection Hname as <-.
  rewrite source_of_set_trace in Hres.
  pose proof (heap_below_free w2 Hb2) as Hfree2.
  destruct (source_of w1 (cstr path)) as [source|] eqn:Hsrc;
    destruct res as [[buffer size]|]; try done.
  + (* the source was read *)
    destruct Hres as (-> & ? & Hheap & Hmalloc & Htrace).
    unfold jerry_parse.
    do 6 (run_step; rewrite ?Hheap in *; heap_simpl; simplify_eq).
    all: try absurd_crash.
    rewrite string_take_all by lia.
    set (resource_name := string_take len (buffer_bytes text)) in *.
    run_step. run_step.
    destruct (parse_module source resource_name) as [[kind message]|] eqn:Hparse.
    * (* a parse error *)
      repeat (run_step; rewrite ?Hheap in *; heap_simpl; simplify_eq).
      all: try absurd_crash.
      apply HQ. exists text, path. cbv zeta. rewrite Hfind, Hsrc.
      fold resource_name. rewrite Hparse. wsimpl.
      split_and!; try done; try lia; try heap_below_tac.
      -- rewrite Hheap. heap_eq.
      -- rewrite Htrace. by rewrite <- !app_assoc.
    * (* a new module *)
      cbn [jerry_value_is_error jerry_set_object_native_pointer].
      repeat (run_step; rewrite ?Hheap in *; heap_simpl; simplify_eq;
              cbn [jerry_value_is_error jerry_set_object_native_pointer]).
      all: try absurd_crash.
      2:{ apply HC. exists text, path, source.
          split_and!; try done. by rewrite <- Hmalloc. }
      apply HQ. exists text, path. cbv zeta. rewrite Hfind, Hsrc.
      fold resource_name. rewrite Hparse. wsimpl.
      rewrite ?H2, ?H3, ?H4.
      split_and!; try done; try lia; try heap_below_tac.
      { apply consumed_tail. done. }
      { by rewrite <- Hmalloc. }
      exists (w_brk w2). split_and!; try done; try lia.
      -- rewrite Hheap. heap_eq.
      -- rewrite Htrace. by rewrite <- !app_assoc.
  + (* the source cannot be read *)
    destruct Hres as (Hheap & message & Htrace).
    repeat (run_step; rewrite ?Hheap in *; heap_simpl; simplify_eq).
    all: try absurd_crash.
    apply HQ. exists text, path. cbv zeta. rewrite Hfind, Hsrc. wsimpl.
    split_and!; try done; try lia; try heap_below_tac.
    -- rewrite Hheap. heap_eq.
    -- exists message. rewrite Htrace. by rewrite <- !app_assoc.
Qed.
End Resolver.

(** ** Resolving in a well-formed state *)

Lemma footprint_live (h : gmap N block) (chain : list N) (a : N) :
  Forall (λ p, is_Some (record_at h p)) chain →
  a ∈ footprint h chain → is_Some (h !! a).
Proof.
  induction 1 as [|p chain [[m s] Hr] _ IH]; simpl.
  - by intros ?%elem_of_nil.
  - unfold blocks_of. rewrite Hr. apply record_at_Some in Hr as [Hm Hs].
    simpl. rewrite !elem_of_cons. intros [->|[->|Ha]]; eauto.
Qed.

Lemma footprint_below (w : world) (a : N) :
  well_formed w → a ∈ footprint (w_heap w) (w_module_head w) →
  (a < w_brk w)%N.
Proof.
  intros [Hb [Hall _]] Ha.
  destruct (footprint_live _ _ _ Hall Ha) as [b Hb'].
  by eapply heap_below_Some.
Qed.

(** A heap that keeps the blocks below [w_brk w] keeps the registry. *)
Lemma registry_frame (w : world) (h' : gmap N block) :
  well_formed w →
  (∀ a, (a < w_brk w)%N → h' !! a = w_heap w !! a) →
  (∀ p, p ∈ w_module_head w → record_at h' p = record_at (w_heap w) p) ∧
  omap (record_at h') (w_module_head w) = registry w ∧
  chain_ok h' (w_module_head w).
Proof.
  intros Hwf Hsame.
  assert (Hext : ∀ p, p ∈ w_module_head w →
                      record_at h' p = record_at (w_heap w) p).
  { apply record_at_agree; [apply Hwf|].
    intros a Ha. apply Hsame. by apply footprint_below. }
  split_and!; [done| |].
  - by apply registry_ext.
  - eapply chain_ok_ext; [done|apply Hwf].
Qed.

Lemma events_of_app (w w' : world) (evs : list event) :
  w_trace w' = w_trace w ++ evs → events_of w w' = evs.
Proof. intros E. unfold events_of. by rewrite E, drop_app_length. Qed.

Section Resolving.
Context `{Platform}.

Lemma resolve_with_path specifier referrer user_p w in_p len new_p w1 :
  resolve_path specifier referrer w = Some ((in_p, len, Some new_p), w1) →
  jerry_port_module_resolve specifier referrer user_p w =
  resolve_module in_p len new_p w1.
Proof.
  intros E. unfold jerry_port_module_resolve.
  change ((resolve_path specifier referrer ≫= ?f) w)
    with (match resolve_path specifier referrer w with
          | Some (a, w') => f a w'
          | None => None
          end).
  by rewrite E.
Qed.

Lemma resolve_without_path specifier referrer user_p w in_p len w1 :
  resolve_path specifier referrer w = Some ((in_p, len, None), w1) →
  jerry_port_module_resolve specifier referrer user_p w =
  Some (jerry_create_error JERRY_ERROR_COMMON "Out of memory", w1).
Proof.
  intros E. unfold jerry_port_module_resolve.
  change ((resolve_path specifier referrer ≫= ?f) w)
    with (match resolve_path specifier referrer w with
          | Some (a, w') => f a w'
          | None => None
          end).
  by rewrite E.
Qed.

Lemma resolve_path_result specifier referrer w located w1 :
  heap_below w →
  resolve_path specifier referrer w = Some (located, w1) →
  resolve_path_post specifier w located w1.
Proof.
  intros Hb. apply (run_result _ _ _ True).
  apply run_resolve_path; auto.
Qed.

(** The state in which the registry is searched: the state of the call
    with two more buffers. *)
Lemma located_state specifier w in_p len new_p w1 :
  well_formed w →
  resolve_path_post specifier w (in_p, len, Some new_p) w1 →
  ∃ path,
    w_heap w1 !! in_p = Some (Chars (jerry_string_utf8 specifier)) ∧
    w_heap w1 !! new_p = Some (Chars path) ∧
    string_take len (buffer_bytes (jerry_string_utf8 specifier)) =
      jerry_string_utf8 specifier ∧
    resolve_module_pre in_p len new_p w1 ∧
    registry w1 = registry w ∧
    delete in_p (delete new_p (w_heap w1)) = w_heap w ∧
    delete in_p (w_heap w1) = <[new_p := Chars path]> (w_heap w) ∧
    w_heap w !! in_p = None ∧ w_heap w !! new_p = None ∧
    (w_brk w ≤ in_p)%N ∧ (w_brk w ≤ new_p)%N.
Proof.
  intros Hwf (-> & -> & Hun & Hb1 & Hbrk & Hplan & Hrange & base & Hheap).
  destruct Hun as (Hhead & ? & ? & ? & ? & ? & ?).
  pose proof (heap_below_free w (proj1 Hwf)) as Hfree.
  destruct (registry_frame w (w_heap w1) Hwf) as (Hext & Hreg & Hok).
  { intros a Ha. rewrite Hheap. by rewrite !lookup_insert_ne by lia. }
  eexists. split_and!.
  - rewrite Hheap. by rewrite lookup_insert_ne, lookup_insert_eq by lia.
  - rewrite Hheap. by rewrite lookup_insert_eq.
  - apply string_take_buffer.
  - split_and!; [lia| | |].
    + exists (jerry_string_utf8 specifier). split; [|lia].
      rewrite Hheap. by rewrite lookup_insert_ne, lookup_insert_eq by lia.
    + eexists. rewrite Hheap. by rewrite lookup_insert_eq.
    + rewrite Hhead. apply Hok.
  - unfold registry. by rewrite Hhead.
  - rewrite Hheap. heap_eq.
  - rewrite Hheap. heap_eq.
  - apply Hfree. lia.
  - apply Hfree. lia.
  - lia.
  - lia.
Qed.
End Resolving.

(** ** Releasing in a well-formed state *)

Lemma footprint_filter_subset (h : gmap N block) (f : N → bool)
    (chain : list N) (a : N) :
  a ∈ footprint h (List.filter f chain) → a ∈ footprint h chain.
Proof.
  induction chain as [|p chain IH]; simpl; [done|].
  destruct (f p); simpl; rewrite !elem_of_app; intros; intuition.
Qed.

Lemma footprint_filter_NoDup (h : gmap N block) (f : N → bool)
    (chain : list N) :
  NoDup (footprint h chain) → NoDup (footprint h (List.filter f chain)).
Proof.
  induction chain as [|p chain IH]; simpl; [done|].
  intros [Hp [Hdisj Hrest]]%NoDup_app. destruct (f p); simpl; [|auto].
  apply NoDup_app. split_and!; [done| |auto].
  intros a Ha Ha'. eapply Hdisj; [done|]. by eapply footprint_filter_subset.
Qed.

(** The blocks of a node that stays are not among those of the nodes that
    go. *)
Lemma footprint_filter_disjoint (h : gmap N block) (f : N → bool)
    (chain : list N) (q a : N) :
  NoDup (footprint h chain) → q ∈ chain → f q = false →
  a ∈ blocks_of h q → a ∉ footprint h (List.filter f chain).
Proof.
  induction chain as [|p chain IH]; simpl; [by intros _ ?%elem_of_nil|].
  intros [Hp [Hdisj Hrest]]%NoDup_app Hq Hf Ha.
  apply elem_of_cons in Hq as [->|Hq].
  - rewrite Hf. intros Ha'. eapply Hdisj; [done|].
    by eapply footprint_filter_subset.
  - destruct (f p) eqn:Hfp; simpl; [|by apply IH].
    rewrite elem_of_app. intros [Ha'|Ha']; [|by eapply IH].
    eapply Hdisj; [done|].
    clear -Hq Ha. induction chain as [|x chain IH]; simpl;
      [by apply elem_of_nil in Hq|].
    apply elem_of_app. apply elem_of_cons in Hq as [->|Hq]; auto.
Qed.

Lemma registry_filter (h : gmap N block) (release_all : bool)
    (realm_v : jerry_value_t) (chain : list N) :
  Forall (λ p, is_Some (record_at h p)) chain →
  omap (record_at h)
       (List.filter (λ p, negb (node_released h release_all realm_v p)) chain) =
  List.filter (λ r, negb (released release_all realm_v r))
              (omap (record_at h) chain).
Proof.
  induction 1 as [|p chain [r Hr] _ IH]; simpl; [done|].
  assert (node_released h release_all realm_v p =
          released release_all realm_v r) as ->
    by (unfold node_released; by rewrite Hr).
  rewrite Hr. simpl.
  destruct (released release_all realm_v r); simpl; [exact IH|].
  rewrite Hr. simpl. f_equal. exact IH.
Qed.

(** [jerry_port_module_free] on a well-formed state: it runs to its end,
    keeps the records the test spares, in their order, and frees the node
    and the path of every other one after releasing its two values. *)
Lemma module_free_spec (realm_v : jerry_value_t) (w : world) :
  well_formed w →
  let release_all := negb (jerry_value_is_object realm_v) in
  let h := w_heap w in
  ∃ w',
    jerry_port_module_free realm_v w = Some (tt, w') ∧
    well_formed w' ∧
    registry w' =
      List.filter (λ r, negb (released release_all realm_v r)) (registry w) ∧
    w_module_head w' =
      List.filter (λ p, negb (node_released h release_all realm_v p))
                  (w_module_head w) ∧
    (∀ p m s, p ∈ w_module_head w → record_at h p = Some (m, s) →
              released release_all realm_v (m, s) = true →
              w_heap w' !! p = None ∧ w_heap w' !! path_p m = None ∧
              p ∉ w_module_head w') ∧
    (∀ p, p ∈ w_module_head w' → record_at (w_heap w') p = record_at h p) ∧
    w_trace w' =
      w_trace w ++
      flat_map release_events
        (List.filter (released release_all realm_v) (registry w)) ∧
    w_brk w' = w_brk w ∧ w_native w' = w_native w ∧
    w_objects w' = w_objects w ∧ w_global w' = w_global w ∧
    w_cwd w' = w_cwd w ∧ w_fs w' = w_fs w ∧ w_malloc w' = w_malloc w.
Proof.
  intros [Hb [Hall Hnd]] release_all h. subst h.
  set (gone := node_released (w_heap w) release_all realm_v).
  assert (Hrun : run (jerry_port_module_free realm_v) w
                   (λ _ w', free_post release_all realm_v []
                              (w_module_head w) w w') False).
  { unfold jerry_port_module_free. run_step. run_step.
    by apply run_module_free_loop. }
  apply run_total in Hrun as ([] & w' & Hrun & Hpost).
  destruct Hpost as (Hhead & Hheap & Htrace & ? & ? & ? & ? & ? & ? & ?).
  simpl in Hhead. fold gone in Hhead, Hheap.
  assert (Hkept : ∀ p, p ∈ w_module_head w' →
                       record_at (w_heap w') p = record_at (w_heap w) p).
  { rewrite Hhead. intros p [Hp Hkeep]%elem_of_filter_bool.
    apply negb_true_iff in Hkeep.
    rewrite Forall_forall in Hall. destruct (Hall p Hp) as [[m s] Hr].
    assert (Hblocks : blocks_of (w_heap w) p = [p; path_p m])
      by (unfold blocks_of; by rewrite Hr).
    rewrite Hr. apply record_at_Some in Hr as [Hm Hs]. apply record_at_Some.
    rewrite !Hheap.
    rewrite !bool_decide_eq_false_2; [done| |].
    - eapply footprint_filter_disjoint; [done..|].
      rewrite Hblocks, !elem_of_cons. auto.
    - eapply footprint_filter_disjoint; [done..|].
      rewrite Hblocks, !elem_of_cons. auto. }
  exists w'. split_and!; try done.
  - (* well formed *)
    split; [|split].
    + intros a b Ha. rewrite Hheap in Ha. case_bool_decide; [done|].
      replace (w_brk w') with (w_brk w) by done. by eapply Hb.
    + rewrite Forall_forall. intros p Hp. rewrite Hkept by done.
      rewrite Forall_forall in Hall. apply Hall.
      rewrite Hhead in Hp. by apply elem_of_filter_bool in Hp as [? _].
    + rewrite (footprint_ext (w_heap w)) by done. rewrite Hhead.
      by apply footprint_filter_NoDup.
  - unfold registry. rewrite (registry_ext (w_heap w)) by done.
    rewrite Hhead. by apply registry_filter.
  - intros p m s Hp Hr Hrel.
    assert (Hgone : gone p = true) by (unfold gone, node_released; by rewrite Hr).
    assert (Hin : p ∈ List.filter gone (w_module_head w))
      by by apply elem_of_filter_bool.
    split_and!.
    + rewrite Hheap, bool_decide_eq_true_2; [done|].
      by apply footprint_node.
    + rewrite Hheap, bool_decide_eq_true_2; [done|].
      by eapply footprint_path.
    + rewrite Hhead. intros [_ Hkeep]%elem_of_filter_bool.
      by rewrite Hgone in Hkeep.
Qed.

(** ** What a call to the resolver does to the registry *)

Section Preservation.
Context `{Platform}.

Lemma resolve_located specifier referrer user_p w in_p len new_p w1 path
    v w' :
  well_formed w →
  resolve_path specifier referrer w = Some ((in_p, len, Some new_p), w1) →
  w_heap w1 !! new_p = Some (Chars path) →
  jerry_port_module_resolve specifier referrer user_p w = Some (v, w') →
  resolve_outcome specifier w w1 new_p path v w'.
Proof.
  intros Hwf E Hpath0 Hres.
  rewrite (resolve_with_path _ _ _ _ _ _ _ _ E) in Hres.
  pose proof (resolve_path_result _ _ _ _ _ (proj1 Hwf) E) as Hpost1.
  destruct (located_state _ _ _ _ _ _ Hwf Hpost1)
    as (path' & Htext & Hpath & Hname & Hpre & Hreg & Hfreed & Hkept &
        Hin & Hnew & ? & ?).
  rewrite Hpath0 in Hpath. injection Hpath as <-.
  destruct Hpost1 as (_ & _ & Hun & Hb1 & Hbrk1 & _ & Hrange & _).
  destruct Hun as (Hhead & Hnative & Hobjects & Hglobal & ? & ? & Htrace).
  assert (Hpost : resolve_module_post in_p len new_p w1 v w').
  { revert Hres. apply (run_result _ _ _ True).
    by apply run_resolve_module. }
  destruct Hpost as (text' & path' & Htext' & Hpath' & Hpost).
  cbv zeta in Hpost. rewrite Hpath0 in Hpath'. injection Hpath' as <-.
  rewrite Htext in Htext'. injection Htext' as <-.
  destruct Hpost as (Hg & _ & _ & Hb' & Hbrk' & _ & Hcases).
  rewrite Hreg, Hglobal, Hfreed, Hname, Htrace, Hhead, Hnative, Hobjects
    in Hcases.
  unfold resolve_outcome. cbv zeta.
  assert (Hsame : w_heap w' = w_heap w →
                  w_module_head w' = w_module_head w →
                  w_native w' = w_native w → w_objects w' = w_objects w →
                  well_formed w' ∧ registry_kept w w').
  { intros Hh Hm ? ?. unfold registry_kept.
    split_and!; try done; [|by unfold registry; rewrite Hh, Hm].
    split; [done|]. rewrite Hh, Hm. apply Hwf. }
  destruct (List.find _ (registry w)) as [[m s]|] eqn:Hfind.
  { destruct Hcases as (-> & Hh & Hm & Hn & Ho & Ht).
    destruct (Hsame Hh Hm Hn Ho) as (? & ?).
    split_and!; try done; [congruence|]. by apply events_of_app. }
  destruct (source_of w1 (cstr path)) as [source|].
  2:{ destruct Hcases as (-> & Hh & Hm & Hn & Ho & message & Ht).
      destruct (Hsame Hh Hm Hn Ho) as (? & ?).
      split_and!; try done; [congruence|].
      exists message. by apply events_of_app. }
  destruct (parse_module source _) as [[kind message]|].
  { destruct Hcases as (-> & Hh & Hm & Hn & Ho & Ht).
    destruct (Hsame Hh Hm Hn Ho) as (? & ?).
    split_and!; try done; [congruence|]. by apply events_of_app. }
  destruct Hcases
    as (_ & -> & Ho & node & Hnode & Hheap & Hhead' & Hn & Ht).
  rewrite Hkept in Hheap. clear Hsame.
  pose proof (heap_below_free w (proj1 Hwf)) as Hfree.
  set (m := {| path_p := new_p;
               base_path_length := jerry_port_get_directory_end path;
               realm := JObject (w_global w);
               module := JObject (w_objects w) |}) in *.
  destruct (registry_frame w (w_heap w') Hwf) as (Hext & Hreg' & Hok).
  { intros a Ha. rewrite Hheap. by rewrite !lookup_insert_ne by lia. }
  assert (Hrec : record_at (w_heap w') node = Some (m, path)).
  { apply record_at_Some. rewrite Hheap. split.
    - by rewrite lookup_insert_eq.
    - simpl. by rewrite lookup_insert_ne, lookup_insert_eq by lia. }
  split_and!.
  - split; [done|]. rewrite Hhead'. split.
    + apply Forall_cons. split; [by eexists|apply Hok].
    + simpl. unfold blocks_of. rewrite Hrec. simpl.
      apply NoDup_cons. split.
      { rewrite elem_of_cons. intros [E'|E']; [lia|].
        rewrite (footprint_ext (w_heap w)) in E' by done.
        apply footprint_below in E'; [lia|done]. }
      apply NoDup_cons. split; [|apply Hok].
      intros E'. rewrite (footprint_ext (w_heap w)) in E' by done.
      apply footprint_below in E'; [lia|done].
  - congruence.
  - done.
  - exists node. fold m. split_and!; try done.
    + unfold registry. rewrite Hhead'.
      transitivity
        (match record_at (w_heap w') node with
         | Some r => r :: omap (record_at (w_heap w')) (w_module_head w)
         | None => omap (record_at (w_heap w')) (w_module_head w)
         end); [done|].
      by rewrite Hrec, Hreg'.
    + apply Hfree. lia.
    + by apply events_of_app.
Qed.
End Preservation.

Lemma find_records_for (w : world) (realm_v : jerry_value_t) (path : string) :
  List.find (record_matches realm_v path) (registry w) =
  head (records_for w realm_v path).
Proof.
  unfold records_for. induction (registry w) as [|r l IH]; simpl; [done|].
  by destruct (record_matches realm_v path r).
Qed.

Lemma record_matches_cstr (realm_v : jerry_value_t) (path path' : string) :
  cstr path = cstr path' →
  record_matches realm_v path = record_matches realm_v path'.
Proof. intros E. unfold record_matches. by rewrite E. Qed.

Lemma host_step_well_formed (w w' : world) :
  well_formed w → host_step w w' → well_formed w' ∧ registry w' = registry w.
Proof.
  intros [Hb Hok] (Hheap & Hbrk & Hhead & _). split; [split|].
  - intros a b Ha. rewrite Hheap in Ha. apply Hb in Ha. simpl in *. lia.
  - by rewrite Hheap, Hhead.
  - unfold registry. by rewrite Hheap, Hhead.
Qed.

Section Preserved.
Context `{Platform}.

Lemma resolve_preserves specifier referrer user_p w v w' :
  well_formed w →
  jerry_port_module_resolve specifier referrer user_p w = Some (v, w') →
  well_formed w' ∧ w_global w' = w_global w ∧
  (registry w' = registry w ∨
   (∃ m path,
      registry w' = (m, path) :: registry w ∧
      realm m = JObject (w_global w) ∧
      List.find (record_matches (JObject (w_global w)) path) (registry w)
        = None)).
Proof.
  intros Hwf Hres.
  destruct (resolve_path specifier referrer w)
    as [[[[in_p len] [new_p|]] w1]|] eqn:E.
  - (* a path *)
    pose proof (resolve_path_result _ _ _ _ _ (proj1 Hwf) E) as Hpost1.
    destruct (located_state _ _ _ _ _ _ Hwf Hpost1)
      as (path & _ & Hpath & _).
    destruct (resolve_located _ _ _ _ _ _ _ _ _ _ _ Hwf E Hpath Hres)
      as (? & ? & Hcases).
    split_and!; [done..|].
    destruct (List.find _ (registry w)) as [[m s]|] eqn:Hfind.
    { left. by destruct Hcases as (_ & (? & _) & _). }
    destruct (source_of w1 (cstr path)) as [source|].
    2:{ left. by destruct Hcases as (_ & (? & _) & _). }
    destruct (parse_module source _) as [[kind message]|].
    { left. by destruct Hcases as (_ & (? & _) & _). }
    destruct Hcases as (_ & node & _ & ? & _). right. eauto.
  - (* no path: an allocation failed *)
    rewrite (resolve_without_path _ _ _ _ _ _ _ E) in Hres.
    injection Hres as <- <-.
    pose proof (resolve_path_result _ _ _ _ _ (proj1 Hwf) E) as Hpost1.
    destruct Hpost1 as (-> & _ & Hun & Hb1 & ? & _ & Hheap & _).
    destruct Hun as (Hhead & ? & ? & Hglobal & ? & ? & ?).
    pose proof (heap_below_free w (proj1 Hwf)) as Hfree.
    destruct (registry_frame w (w_heap w1) Hwf) as (Hext & Hreg' & Hok).
    { intros a Ha. rewrite Hheap. by rewrite !lookup_insert_ne by lia. }
    split_and!.
    + split; [done|]. by rewrite Hhead.
    + done.
    + left. unfold registry at 1. by rewrite Hhead.
  - unfold jerry_port_module_resolve in Hres.
    change ((resolve_path specifier referrer ≫= ?f) w)
      with (match resolve_path specifier referrer w with
            | Some (a, w') => f a w'
            | None => None
            end) in Hres.
    by rewrite E in Hres.
Qed.


Lemma resolve_crashes specifier referrer user_p w in_p len new_p w1 :
  well_formed w →
  resolve_path specifier referrer w = Some ((in_p, len, Some new_p), w1) →
  record_allocation_fails in_p len new_p w1 →
  jerry_port_module_resolve specifier referrer user_p w = None.
Proof.
  intros Hwf E Hfails.
  rewrite (resolve_with_path _ _ _ _ _ _ _ _ E).
  pose proof (resolve_path_result _ _ _ _ _ (proj1 Hwf) E) as Hpost1.
  destruct (located_state _ _ _ _ _ _ Hwf Hpost1)
    as (path & Htext & Hpath & _ & Hpre & _).
  destruct Hpost1 as (_ & _ & _ & Hb1 & _).
  destruct (resolve_module in_p len new_p w1) as [[v w']|] eqn:Hres; [|done].
  exfalso. revert Hres. apply (run_result _ _ (λ _ _, False) True).
  apply run_resolve_module; [done..|].
  intros v' w'' (text' & path' & Ht' & Hp' & Hpost).
  destruct Hfails as (text & path0 & source & Ht & Hp & Hfind & Hsrc & Hparse & Hhd).
  cbv zeta in Hpost. simplify_eq.
  destruct Hpost as (_ & _ & _ & _ & _ & _ & Hcases).
  rewrite Hfind, Hsrc, Hparse in Hcases.
  destruct Hcases as (Hhd' & _). congruence.
Qed.

Lemma resolve_returns specifier referrer user_p w in_p len new_p w1 :
  well_formed w →
  resolve_path specifier referrer w = Some ((in_p, len, Some new_p), w1) →
  ¬ record_allocation_fails in_p len new_p w1 →
  ∃ v w', jerry_port_module_resolve specifier referrer user_p w = Some (v, w').
Proof.
  intros Hwf E Hfails.
  rewrite (resolve_with_path _ _ _ _ _ _ _ _ E).
  pose proof (resolve_path_result _ _ _ _ _ (proj1 Hwf) E) as Hpost1.
  destruct (located_state _ _ _ _ _ _ Hwf Hpost1)
    as (path & Htext & Hpath & _ & Hpre & _).
  destruct Hpost1 as (_ & _ & _ & Hb1 & _).
  assert (Hrun : run (resolve_module in_p len new_p) w1 (λ _ _, True) False)
    by by apply run_resolve_module.
  apply run_total in Hrun as (v & w' & Hrun & _). eauto.
Qed.
End Preserved.

(** ** Resolving and releasing modules *)

Section CacheHit.
Context `{Platform}.



End CacheHit.



(** ** One record for a realm and a path *)

Lemma find_none_key (realm_v : jerry_value_t) (path : string)
    (l : list (jerry_port_module_t * string)) :
  List.find (record_matches realm_v path) l = None →
  (realm_v, cstr path) ∉ map record_key l.
Proof.
  induction l as [|r l IH]; simpl; [intros _; apply not_elem_of_nil|].
  unfold record_matches at 1.
  destruct (bool_decide_reflect (record_key r = (realm_v, cstr path)))
    as [?|Hne]; [done|].
  intros Hfind. rewrite not_elem_of_cons. split; [congruence|auto].
Qed.

Lemma filter_key_subset {A} (f : A → bool) (g : A → jerry_value_t * string)
    (l : list A) (k : jerry_value_t * string) :
  k ∈ map g (List.filter f l) → k ∈ map g l.
Proof.
  induction l as [|x l IH]; simpl; [done|].
  destruct (f x); simpl; rewrite !elem_of_cons; intuition.
Qed.

Lemma NoDup_map_filter {A} (f : A → bool) (g : A → jerry_value_t * string)
    (l : list A) :
  NoDup (map g l) → NoDup (map g (List.filter f l)).
Proof.
  induction l as [|x l IH]; simpl; [done|].
  intros [Hx Hl]%NoDup_cons. destruct (f x); simpl; [|auto].
  apply NoDup_cons. split; [|auto].
  intros Hin. by apply Hx, (filter_key_subset f).
Qed.

Lemma unique_key_one_record (realm_v : jerry_value_t) (path : string)
    (l : list (jerry_port_module_t * string)) :
  NoDup (map record_key l) →
  List.length (List.filter (record_matches realm_v path) l) ≤ 1.
Proof.
  induction l as [|r l IH]; simpl; [lia|].
  intros [Hr Hl]%NoDup_cons.
  destruct (record_matches realm_v path r) eqn:Hm; [|auto].
  apply bool_decide_eq_true in Hm. simpl.
  destruct (List.filter (record_matches realm_v path) l) as [|r' l'] eqn:Hf;
    [simpl; lia|].
  exfalso. apply Hr.
  assert (Hin : r' ∈ List.filter (record_matches realm_v path) l)
    by (rewrite Hf; apply elem_of_cons; by left).
  apply elem_of_filter_bool in Hin as [Hin Hm'].
  apply bool_decide_eq_true in Hm'. rewrite Hm, <- Hm'.
  apply list_elem_of_fmap. eauto.
Qed.

Section Unique.
Context `{Platform}.

Lemma reachable_invariant (w : world) :
  reachable w → well_formed w ∧ NoDup (map record_key (registry w)).
Proof.
  intros (w0 & (Hheap & Hhead & _) & Hsteps).
  assert (Hinit : well_formed w0 ∧ NoDup (map record_key (registry w0))).
  { unfold well_formed, heap_below, chain_ok, registry.
    rewrite Hheap, Hhead. simpl. split_and!.
    - apply map_Forall_empty.
    - constructor.
    - constructor.
    - constructor. }
  clear Hheap Hhead.
  induction Hsteps as [|w0 wm w Hstep _ IH]; [done|].
  apply IH. clear IH. destruct Hinit as [Hwf Huniq].
  destruct Hstep as [w0 s r u v wm Hres|w0 rv wm Hrel|w0 wm Hhost].
  - destruct (resolve_preserves _ _ _ _ _ _ Hwf Hres)
      as (Hwf' & _ & [Hreg|(m & path & Hreg & Hrealm & Hfind)]).
    + by rewrite Hreg.
    + split; [done|]. rewrite Hreg. simpl. apply NoDup_cons. split; [|done].
      unfold record_key at 1. simpl. rewrite Hrealm.
      by apply find_none_key.
  - destruct (module_free_spec rv w0 Hwf) as (w' & Hrel' & Hwf' & Hreg & _).
    unfold jerry_port_module_release in Hrel.
    rewrite Hrel' in Hrel. injection Hrel as <-.
    split; [done|]. rewrite Hreg. by apply NoDup_map_filter.
  - destruct (host_step_well_formed _ _ Hwf Hhost) as (Hwf' & Hreg).
    by rewrite Hreg.
Qed.

(** C2. In every state reached from an empty registry by calls of
    [jerry_port_module_resolve] and [jerry_port_module_release], with
    any steps of the host in between, a realm has at most one record whose
    path is a given text. No check is made when a record is linked in: the
    search that precedes it keeps the registry free of duplicates. *)
Theorem registry_paths_unique (w : world) :
  reachable w →
  ∀ realm_v path, List.length (records_for w realm_v path) ≤ 1.
Proof.
  intros Hreach realm_v path.
  destruct (reachable_invariant w Hreach) as [_ Huniq].
  by apply unique_key_one_record.
Qed.
End Unique.

Lemma registry_paths_unique_witness :
  List.length (records_for demo_two_realms (JObject 7) "/lib/math.js") ≤ 1 ∧
  List.length (registry demo_two_realms) = 2.
Proof.
  split; [|compute_done].
  apply (@registry_paths_unique posix demo_two_realms).
  exists boot. split; [by split_and!|].
  eapply rtc_l.
  { apply (@step_resolve posix boot (JString "math.js") JUndefined 0
             (JObject 100) demo_loaded). compute_done. }
  eapply rtc_l.
  { apply (@step_host posix demo_loaded (in_realm_of 8 demo_loaded)).
    by split_and!. }
  eapply rtc_l; [|apply rtc_refl].
  apply (@step_resolve posix (in_realm_of 8 demo_loaded) (JString "math.js")
           JUndefined 0 (JObject 101) demo_two_realms).
  compute_done.
Defined.

(** ** Release *)

Lemma filter_realm_gone (c1 : jerry_value_t) (path : string)
    (l : list (jerry_port_module_t * string)) :
  List.filter (record_matches c1 path)
    (List.filter (λ r, negb (in_realm c1 r)) l) = [].
Proof.
  induction l as [|r l IH]; simpl; [done|].
  destruct (in_realm c1 r) eqn:Hr; simpl; [done|].
  unfold record_matches at 1.
  rewrite bool_decide_eq_false_2; [done|].
  intros [= Hrealm _]. apply bool_decide_eq_false in Hr. done.
Qed.

Lemma filter_realm_kept (c1 c2 : jerry_value_t)
    (l : list (jerry_port_module_t * string)) :
  c2 ≠ c1 →
  List.filter (in_realm c2) (List.filter (λ r, negb (in_realm c1 r)) l) =
  List.filter (in_realm c2) l.
Proof.
  intros Hne. induction l as [|r l IH]; simpl; [done|].
  destruct (in_realm c1 r) eqn:H1; simpl.
  - destruct (in_realm c2 r) eqn:H2; [|done].
    apply bool_decide_eq_true in H1, H2. congruence.
  - by rewrite IH.
Qed.

Lemma elem_of_registry (w : world) (p : N) m s :
  p ∈ w_module_head w → record_at (w_heap w) p = Some (m, s) →
  (m, s) ∈ registry w.
Proof. intros Hp Hr. apply list_elem_of_omap. eauto. Qed.

Lemma elem_of_release_events (release_all : bool) (realm_v : jerry_value_t)
    (r : jerry_port_module_t * string) (l : list (jerry_port_module_t * string)) :
  r ∈ l → released release_all realm_v r = true →
  EvRelease (realm r.1) ∈
    flat_map release_events (List.filter (released release_all realm_v) l) ∧
  EvRelease (module r.1) ∈
    flat_map release_events (List.filter (released release_all realm_v) l).
Proof.
  intros Hr Hrel. rewrite !list_elem_of_In, !in_flat_map.
  split; exists r; rewrite <- !list_elem_of_In.
  - split; [by apply elem_of_filter_bool|].
    apply elem_of_cons. by left.
  - split; [by apply elem_of_filter_bool|].
    apply elem_of_cons. right. apply elem_of_cons. by left.
Qed.

Lemma module_lookup_absent (c1 : jerry_value_t) (w : world) (new_p : N)
    (wanted : string) :
  well_formed w →
  w_heap w !! new_p = Some (Chars wanted) →
  records_for w c1 wanted = [] →
  module_lookup c1 new_p (w_module_head w) w = Some (None, w).
Proof.
  intros [_ [Hall _]] Hwanted Hnone.
  assert (Hrun : run (module_lookup c1 new_p (w_module_head w)) w
                   (λ r w', r = None ∧ w' = w) False).
  { eapply run_module_lookup; [done..|].
    fold (registry w). by rewrite find_records_for, Hnone. }
  apply run_total in Hrun as (r & w' & Hrun & -> & ->). done.
Qed.

(** C3. Releasing the records of a realm runs to its end on every
    well-formed registry. Afterwards the realm has no record under any
    path, so that the search of the resolver finds nothing for it; the node
    and the path buffer of each of its records are freed, after its realm
    and module references were released, and the node is out of the chain.
    The records of every other realm are still in the chain, unchanged and
    in their order. *)
Theorem scoped_release_completeness (w : world) (context : N) :
  well_formed w →
  let c1 := JObject context in
  ∃ w',
    jerry_port_module_release c1 w = Some (tt, w') ∧
    well_formed w' ∧
    (∀ path, records_for w' c1 path = []) ∧
    (∀ new_p wanted,
       w_heap w' !! new_p = Some (Chars wanted) →
       module_lookup c1 new_p (w_module_head w') w' = Some (None, w')) ∧
    (∀ p m s,
       p ∈ w_module_head w → record_at (w_heap w) p = Some (m, s) →
       realm m = c1 →
       w_heap w' !! p = None ∧ w_heap w' !! path_p m = None ∧
       (p ∉ w_module_head w') ∧
       EvRelease (realm m) ∈ events_of w w' ∧
       EvRelease (module m) ∈ events_of w w') ∧
    (∀ c2, c2 ≠ c1 →
       List.filter (in_realm c2) (registry w') =
         List.filter (in_realm c2) (registry w) ∧
       ∀ p m s,
         p ∈ w_module_head w → record_at (w_heap w) p = Some (m, s) →
         realm m = c2 →
         p ∈ w_module_head w' ∧ record_at (w_heap w') p = Some (m, s)) ∧
    registry w' = List.filter (λ r, negb (in_realm c1 r)) (registry w).
Proof.
  intros Hwf c1.
  destruct (module_free_spec c1 w Hwf)
    as (w' & Hrun & Hwf' & Hreg & Hhead & Hgone & Hkept & Htrace & _).
  simpl in Hreg, Hhead, Hgone, Htrace.
  exists w'. split_and!; try done.
  - intros path. unfold records_for. rewrite Hreg.
    apply filter_realm_gone.
  - intros new_p wanted Hwanted.
    apply (module_lookup_absent _ _ _ wanted); [done..|].
    unfold records_for. rewrite Hreg. apply filter_realm_gone.
  - intros p m s Hp Hr Hrealm.
    assert (Hrel : released false c1 (m, s) = true)
      by (unfold released, in_realm; simpl; by apply bool_decide_eq_true).
    destruct (Hgone p m s Hp Hr Hrel) as (? & ? & ?).
    rewrite (events_of_app _ _ _ Htrace).
    destruct (elem_of_release_events false c1 (m, s) (registry w)) as [? ?];
      [by eapply elem_of_registry|done|].
    by split_and!.
  - intros c2 Hne. split.
    + rewrite Hreg. by apply filter_realm_kept.
    + intros p m s Hp Hr Hrealm.
      assert (Hin : p ∈ w_module_head w').
      { rewrite Hhead. apply elem_of_filter_bool. split; [done|].
        unfold node_released, released, in_realm. rewrite Hr. simpl.
        rewrite bool_decide_eq_false_2; [done|congruence]. }
      split; [done|]. by rewrite Hkept.
Qed.

Lemma scoped_release_completeness_witness :
  ∃ w',
    jerry_port_module_release (JObject 7) demo_two_realms = Some (tt, w') ∧
    records_for w' (JObject 7) "/lib/math.js" = [] ∧
    List.filter (in_realm (JObject 8)) (registry w') =
      List.filter (in_realm (JObject 8)) (registry demo_two_realms) ∧
    List.length (registry w') = 1.
Proof.
  destruct (scoped_release_completeness demo_two_realms 7)
    as (w' & Hrun & _ & Hnone & _ & _ & Hkept & Hreg).
  - compute_done.
  - exists w'. split_and!; [done|apply Hnone|by apply Hkept|].
    rewrite Hreg. compute_done.
Defined.

Lemma footprint_blocks (h : gmap N block) (chain : list N) (a : N) :
  a ∈ footprint h chain → ∃ p, p ∈ chain ∧ a ∈ blocks_of h p.
Proof.
  induction chain as [|q chain IH]; simpl; [by intros ?%elem_of_nil|].
  rewrite elem_of_app. intros [Ha|Ha].
  - exists q. split; [apply elem_of_cons; by left|done].
  - destruct (IH Ha) as (p & ? & ?). exists p.
    split; [apply elem_of_cons; by right|done].
Qed.

(** C10. Whether [jerry_port_module_release] releases everything is decided
    by the kind of its argument: with any value that is not an object
    (undefined, null, a boolean, a number, a string, an error) it releases
    every record of every realm and leaves the registry empty; with an
    object it releases the records whose realm is that object and keeps
    the others. *)
Theorem release_all_by_value_kind (w : world) (realm_v : jerry_value_t) :
  well_formed w →
  ∃ w',
    jerry_port_module_release realm_v w = Some (tt, w') ∧
    if jerry_value_is_object realm_v
    then
      registry w' = List.filter (λ r, negb (in_realm realm_v r)) (registry w)
    else
      w_module_head w' = [] ∧ registry w' = [] ∧
      (∀ a, a ∈ footprint (w_heap w) (w_module_head w) →
            w_heap w' !! a = None) ∧
      events_of w w' = flat_map release_events (registry w).
Proof.
  intros Hwf.
  destruct (module_free_spec realm_v w Hwf)
    as (w' & Hrun & Hwf' & Hreg & Hhead & Hgone & Hkept & Htrace & _).
  exists w'. split; [done|].
  destruct (jerry_value_is_object realm_v) eqn:Hobj;
    simpl in Hreg, Hhead, Hgone, Htrace; [done|].
  destruct Hwf as [_ [Hall _]].
  assert (Hempty : w_module_head w' = []).
  { rewrite Hhead. apply elem_of_nil_inv. intros p.
    rewrite elem_of_filter_bool. intros [Hp Hkeep].
    rewrite Forall_forall in Hall. destruct (Hall p Hp) as [r Hr].
    unfold node_released in Hkeep. by rewrite Hr in Hkeep. }
  split_and!.
  - done.
  - unfold registry. by rewrite Hempty.
  - intros a (p & Hp & Ha)%footprint_blocks.
    rewrite Forall_forall in Hall. destruct (Hall p Hp) as [[m s] Hr].
    destruct (Hgone p m s Hp Hr eq_refl) as (? & ? & _).
    unfold blocks_of in Ha. rewrite Hr in Ha.
    rewrite !elem_of_cons in Ha. destruct Ha as [->|[->|Ha]]; try done.
    by apply elem_of_nil in Ha.
  - rewrite (events_of_app _ _ _ Htrace). f_equal.
    clear. induction (registry w) as [|r l IH]; simpl; [done|]. by f_equal.
Qed.

Lemma release_all_by_value_kind_witness :
  ∃ w',
    jerry_port_module_release JUndefined demo_two_realms = Some (tt, w') ∧
    registry w' = [] ∧ w_module_head w' = [].
Proof.
  destruct (release_all_by_value_kind demo_two_realms JUndefined)
    as (w' & Hrun & Hhead & Hreg & _).
  - compute_done.
  - exists w'. by split_and!.
Defined.

(** ** Failures of a call *)

Lemma unreadable_source_of (w : world) (file_name : string) :
  unreadable w file_name ↔ source_of w file_name = None.
Proof.
  unfold unreadable, source_of.
  destruct (w_fs w !! file_name) as [[|f]|]; [done| |done].
  destruct (f_open f), (hd true (w_malloc w)); simpl;
    try case_bool_decide; split; try done; auto.
  intros [?|[?|?]]; done.
Qed.

Section Failures.
Context `{Platform}.

Lemma find_no_record (w : world) (realm_v : jerry_value_t) (path : string) :
  records_for w realm_v path = [] →
  List.find (record_matches realm_v path) (registry w) = None.
Proof. intros E. by rewrite find_records_for, E. Qed.

(** C4. When the search finds no record and the file of the canonical path
    does not exist, is a directory or cannot be read,
    [jerry_port_module_resolve] returns, without a run-time fault, an
    error of type [JERRY_ERROR_SYNTAX]; the registry and its chain are as
    before, the specifier and path buffers are freed, the reference to
    the realm is released and the parser is not called. *)
Theorem missing_file_is_syntax_error
    (w : world) (specifier referrer : jerry_value_t) (user_p : N)
    (in_p : N) (len : nat) (new_p : N) (w1 : world) (path : string) :
  well_formed w →
  resolve_path specifier referrer w = Some ((in_p, len, Some new_p), w1) →
  w_heap w1 !! new_p = Some (Chars path) →
  records_for w (JObject (w_global w)) path = [] →
  unreadable w1 (cstr path) →
  ∃ w' message,
    jerry_port_module_resolve specifier referrer user_p w =
      Some (JError JERRY_ERROR_SYNTAX "Module file not found", w') ∧
    registry w' = registry w ∧ w_module_head w' = w_module_head w ∧
    w_heap w' = w_heap w ∧ well_formed w' ∧
    events_of w w' =
      [EvAcquire (JObject (w_global w)); EvReadSource (cstr path);
       EvLog message; EvRelease (JObject (w_global w))].
Proof.
  intros Hwf E Hpath Hnone Hunread.
  apply unreadable_source_of in Hunread.
  apply find_no_record in Hnone.
  destruct (resolve_returns specifier referrer user_p _ _ _ _ _ Hwf E)
    as (v & w' & Hres).
  { intros (text & path0 & source & _ & Hp0 & _ & Hsrc & _).
    rewrite Hpath in Hp0. injection Hp0 as <-. congruence. }
  destruct (resolve_located _ _ _ _ _ _ _ _ _ _ _ Hwf E Hpath Hres)
    as (? & ? & Hcases).
  rewrite Hnone, Hunread in Hcases.
  destruct Hcases as (-> & (? & ? & ? & _) & message & ?).
  exists w', message. by split_and!.
Qed.

(** C5. When the search finds no record and the source that was read does
    not parse, [jerry_port_module_resolve] returns the error value of the
    parser as it is; no record is linked in, the registry and its chain
    are as before, the source, specifier and path buffers are freed and
    the reference to the realm is released. *)
Theorem parse_failure_is_atomic
    (w : world) (specifier referrer : jerry_value_t) (user_p : N)
    (in_p : N) (len : nat) (new_p : N) (w1 : world) (path : string)
    (source : string) (kind : jerry_error_t) (message : string) :
  well_formed w →
  resolve_path specifier referrer w = Some ((in_p, len, Some new_p), w1) →
  w_heap w1 !! new_p = Some (Chars path) →
  records_for w (JObject (w_global w)) path = [] →
  source_of w1 (cstr path) = Some source →
  parse_module source (jerry_string_utf8 specifier) = Some (kind, message) →
  ∃ w',
    jerry_port_module_resolve specifier referrer user_p w =
      Some (JError kind message, w') ∧
    registry w' = registry w ∧ w_module_head w' = w_module_head w ∧
    w_heap w' = w_heap w ∧ well_formed w' ∧
    events_of w w' =
      [EvAcquire (JObject (w_global w)); EvReadSource (cstr path);
       EvParse source (jerry_string_utf8 specifier);
       EvRelease (JObject (w_global w))].
Proof.
  intros Hwf E Hpath Hnone Hsrc Hparse.
  apply find_no_record in Hnone.
  pose proof (resolve_path_result _ _ _ _ _ (proj1 Hwf) E) as Hpost1.
  destruct (located_state _ _ _ _ _ _ Hwf Hpost1)
    as (path' & Htext & _ & Hname & _).
  destruct (resolve_returns specifier referrer user_p _ _ _ _ _ Hwf E)
    as (v & w' & Hres).
  { intros (text & path0 & source0 & Ht0 & Hp0 & _ & Hsrc0 & Hparse0 & _).
    rewrite Hpath in Hp0. injection Hp0 as <-.
    rewrite Htext in Ht0. injection Ht0 as <-.
    rewrite Hname in Hparse0. congruence. }
  destruct (resolve_located _ _ _ _ _ _ _ _ _ _ _ Hwf E Hpath Hres)
    as (? & ? & Hcases).
  rewrite Hnone, Hsrc, Hparse in Hcases.
  destruct Hcases as (-> & (? & ? & ? & _) & ?).
  exists w'. by split_and!.
Qed.

(** C8. The realm under which [jerry_port_module_resolve] searches and
    registers is the global object that is current when it runs: the
    result does not depend on [user_p]; a hit is the first record of the
    current realm under the path, whatever records other realms have;
    and a new record carries the current realm. *)
Theorem resolve_keys_on_current_realm
    (w : world) (specifier referrer : jerry_value_t) (user_p : N)
    (in_p : N) (len : nat) (new_p : N) (w1 : world) (path : string) :
  well_formed w →
  resolve_path specifier referrer w = Some ((in_p, len, Some new_p), w1) →
  w_heap w1 !! new_p = Some (Chars path) →
  (∀ other_user_p,
     jerry_port_module_resolve specifier referrer other_user_p w =
     jerry_port_module_resolve specifier referrer user_p w) ∧
  (∀ v w',
     jerry_port_module_resolve specifier referrer user_p w = Some (v, w') →
     match records_for w (JObject (w_global w)) path with
     | (m, _) :: _ => v = module m ∧ registry w' = registry w
     | [] =>
         (jerry_value_is_error v = true ∧ registry w' = registry w) ∨
         (∃ m, registry w' = (m, path) :: registry w ∧
               realm m = JObject (w_global w) ∧ module m = v ∧
               path_p m = new_p)
     end).
Proof.
  intros Hwf E Hpath. split; [done|].
  intros v w' Hres.
  destruct (resolve_located _ _ _ _ _ _ _ _ _ _ _ Hwf E Hpath Hres)
    as (? & ? & Hcases).
  rewrite find_records_for in Hcases.
  destruct (records_for w (JObject (w_global w)) path) as [|[m s] rest];
    simpl in Hcases.
  - destruct (source_of w1 (cstr path)) as [source|].
    2:{ left. by destruct Hcases as (-> & (? & _) & _). }
    destruct (parse_module source _) as [[kind message]|].
    { left. by destruct Hcases as (-> & (? & _) & _). }
    right. destruct Hcases as (-> & node & _ & ? & _). eauto.
  - by destruct Hcases as (-> & (? & _) & _).
Qed.

(** C9. Two allocations of [jerry_port_module_resolve] are used without a
    check. When the allocation of the specifier buffer fails, or when the
    module was read and parsed and the allocation of its record fails,
    the call stores through a null pointer and has no result; when an
    allocation of the path normalization fails, it returns the
    "Out of memory" error. *)
Theorem resolve_unchecked_allocations
    (w : world) (specifier referrer : jerry_value_t) (user_p : N) :
  (hd true (w_malloc w) = false →
   jerry_port_module_resolve specifier referrer user_p w = None) ∧
  (∀ in_p len new_p w1,
     well_formed w →
     resolve_path specifier referrer w = Some ((in_p, len, Some new_p), w1) →
     record_allocation_fails in_p len new_p w1 →
     jerry_port_module_resolve specifier referrer user_p w = None) ∧
  (∀ in_p len w1,
     resolve_path specifier referrer w = Some ((in_p, len, None), w1) →
     jerry_port_module_resolve specifier referrer user_p w =
     Some (JError JERRY_ERROR_COMMON "Out of memory", w1)).
Proof.
  split_and!.
  - intros Hfail.
    assert (Hpath : resolve_path specifier referrer w = None).
    { destruct (resolve_path specifier referrer w) as [[x w1]|] eqn:E;
        [|done].
      exfalso. revert E. apply (run_result _ _ (λ _ _, False) True).
      unfold resolve_path. apply run_bind, run_get_native. run_step.
      match goal with |- run ?c _ _ _ =>
        apply (run_mono c w (λ _ w0, w0 = w) _ True True)
      end; [| |done].
      { destruct (native_of w referrer); repeat run_step; done. }
      intros base ? ->. run_step. run_step; [congruence|].
      run_step. by run_step. }
    unfold jerry_port_module_resolve.
    change ((resolve_path specifier referrer ≫= ?f) w)
      with (match resolve_path specifier referrer w with
            | Some (a, w') => f a w'
            | None => None
            end).
    by rewrite Hpath.
  - intros in_p len new_p w1 Hwf E Hfails. by eapply resolve_crashes.
  - intros in_p len w1 E. by eapply resolve_without_path.
Qed.
End Failures.

Lemma missing_file_is_syntax_error_witness :
  ∃ w' message,
    @jerry_port_module_resolve posix (JString "none.js") JUndefined 0 boot =
      Some (JError JERRY_ERROR_SYNTAX "Module file not found", w') ∧
    registry w' = registry boot ∧ w_heap w' = w_heap boot ∧
    events_of boot w' =
      [EvAcquire (JObject 7); EvReadSource "/lib/none.js";
       EvLog message; EvRelease (JObject 7)].
Proof.
  destruct (@missing_file_is_syntax_error posix boot (JString "none.js")
              JUndefined 0 1 7 4 demo_missing "/lib/none.js")
    as (w' & message & ? & ? & ? & ? & ? & ?); try compute_done.
  exists w', message. by split_and!.
Defined.

Lemma parse_failure_is_atomic_witness :
  ∃ w',
    @jerry_port_module_resolve posix (JString "bad.js") JUndefined 0 boot =
      Some (JError JERRY_ERROR_SYNTAX "Unexpected token", w') ∧
    registry w' = registry boot ∧ w_heap w' = w_heap boot ∧
    events_of boot w' =
      [EvAcquire (JObject 7); EvReadSource "/lib/bad.js";
       EvParse "!!" "bad.js"; EvRelease (JObject 7)].
Proof.
  destruct (@parse_failure_is_atomic posix boot (JString "bad.js")
              JUndefined 0 1 6 4 demo_bad "/lib/bad.js" "!!"
              JERRY_ERROR_SYNTAX "Unexpected token")
    as (w' & ? & ? & ? & ? & ? & ?); try compute_done.
  exists w'. by split_and!.
Defined.

Lemma resolve_keys_on_current_realm_witness :
  ∃ w',
    @jerry_port_module_resolve posix (JString "./math.js") (JObject 100) 0
      demo_two_realms = Some (JObject 101, w') ∧
    w_global demo_two_realms = 8%N ∧
    registry w' = registry demo_two_realms.
Proof.
  destruct (@resolve_keys_on_current_realm posix demo_two_realms
              (JString "./math.js") (JObject 100) 0 13 9 16
              demo_two_realms_located "/lib/math.js")
    as [_ Hkey]; try compute_done.
  destruct (@jerry_port_module_resolve posix (JString "./math.js")
              (JObject 100) 0 demo_two_realms) as [[v w']|] eqn:Hres;
    [|by vm_compute in Hres].
  destruct (Hkey v w' eq_refl) as [-> ?].
  exists w'. by split_and!.
Defined.

Lemma resolve_unchecked_allocations_witness :
  @jerry_port_module_resolve posix (JString "math.js") JUndefined 0
    demo_no_memory = None ∧
  @jerry_port_module_resolve posix (JString "math.js") JUndefined 0
    demo_no_record = None.
Proof.
  split.
  - apply (@resolve_unchecked_allocations posix). compute_done.
  - eapply (proj1 (proj2 (@resolve_unchecked_allocations posix demo_no_record
                            (JString "math.js") JUndefined 0))
             1%N 7 4%N demo_no_record_located).
    + compute_done.
    + compute_done.
    + exists "math.js"%string, "/lib/math.js"%string, "1+1"%string.
      split_and!; compute_done.
Defined.

(** ** Normalizing a path *)

Section Normalize.
Context `{Platform}.

(** C6. On live buffers [jerry_port_normalize_path] always returns, and it
    returns [NULL] only when an allocation fails (that of the buffer for
    the working directory when no base directory is given included).
    Whatever the bytes of the specifier, malformed or empty, it otherwise
    returns a new buffer with the path the path primitive computes for
    them. On every return path the copies of the specifier and of the
    base directory are freed: the heap is as before, plus the result. *)
Theorem normalize_fails_only_on_allocation
    (in_p : N) (len : nat) (base_p : option N) (blen : nat) (w : world) :
  heap_below w →
  normalize_pre in_p len base_p blen w →
  ∃ res w',
    jerry_port_normalize_path in_p len base_p blen w = Some (res, w') ∧
    ((false ∉ w_malloc w) → is_Some res) ∧
    match res with
    | None => false ∈ w_malloc w ∧ w_heap w' = w_heap w
    | Some p =>
        w_heap w !! p = None ∧
        ∃ text base,
          w_heap w !! in_p = Some (Chars text) ∧
          w_heap w' =
            <[p := Chars (cwk_path_get_absolute (cstr base)
                            (cstr (string_take len (buffer_bytes text))))]>
              (w_heap w)
    end.
Proof.
  intros Hb Hpre.
  assert (Hrun : run (jerry_port_normalize_path in_p len base_p blen) w
                   (normalize_post in_p len base_p blen w) False).
  { apply run_normalize_path; auto. }
  apply run_total in Hrun as (res & w' & Hrun & Hpost).
  exists res, w'. split; [done|].
  destruct Hpost as (_ & _ & _ & _ & Hres).
  destruct res as [p|].
  - destruct Hres as (Hp & text & base & Htext & Hheap & _).
    split_and!; [by eauto| |by eauto].
    apply heap_below_None; [done|lia].
  - destruct Hres as [Hheap Hfail]. split_and!; [|done..].
    intros Hno. by destruct Hno.
Qed.
End Normalize.

Lemma normalize_fails_only_on_allocation_witness :
  ∃ p w',
    @jerry_port_normalize_path posix 4 0 None 0 demo_loaded
      = Some (Some p, w') ∧
    ∃ text, w_heap w' = <[p := Chars text]> (w_heap demo_loaded).
Proof.
  destruct (@normalize_fails_only_on_allocation posix 4 0 None 0 demo_loaded)
    as (res & w' & Hrun & Hsome & Hres).
  - compute_done.
  - split.
    + exists "/lib/math.js"%string. split; [compute_done|simpl; lia].
    + intros Hlen. simpl in Hlen. lia.
  - assert (Hplan : false ∉ w_malloc demo_loaded) by compute_done.
    destruct (Hsome Hplan) as [p ->].
    destruct Hres as (_ & text & base & _ & Hheap).
    exists p, w'. split; [done|]. eauto.
Defined.

(** * Further properties of the port *)

(** ** What one call of the resolver changes *)

Section Effect.
Context `{Platform}.

(** A call that returns has kept the registry, or has left behind the copy
    of the specifier because the path could not be allocated, or has put
    one new record at the head of the chain. *)
Lemma resolve_effect specifier referrer user_p w v w' :
  well_formed w →
  jerry_port_module_resolve specifier referrer user_p w = Some (v, w') →
  let realm_v := JObject (w_global w) in
  well_formed w' ∧ w_global w' = w_global w ∧
  (registry_kept w w' ∨
   (v = jerry_create_error JERRY_ERROR_COMMON "Out of memory" ∧
    false ∈ w_malloc w ∧ w_heap w !! w_brk w = None ∧
    w_heap w' = <[w_brk w := Chars (jerry_string_utf8 specifier)]> (w_heap w) ∧
    registry w' = registry w ∧ w_module_head w' = w_module_head w ∧
    w_native w' = w_native w ∧ w_objects w' = w_objects w ∧
    w_trace w' = w_trace w) ∨
   (v = JObject (w_objects w) ∧
    ∃ node new_p path,
      let m := {| path_p := new_p;
                  base_path_length := jerry_port_get_directory_end path;
                  realm := realm_v;
                  module := v |} in
      w_module_head w' = node :: w_module_head w ∧
      registry w' = (m, path) :: registry w ∧
      w_heap w !! node = None ∧ w_heap w !! new_p = None ∧
      w_heap w' =
        <[node := Module m]> (<[new_p := Chars path]> (w_heap w)) ∧
      w_native w' = <[w_objects w := node]> (w_native w) ∧
      w_objects w' = N.succ (w_objects w) ∧
      List.find (record_matches realm_v path) (registry w) = None)).
Proof.
  intros Hwf Hres realm_v.
  destruct (resolve_path specifier referrer w)
    as [[[[in_p len] [new_p|]] w1]|] eqn:E.
  - pose proof (resolve_path_result _ _ _ _ _ (proj1 Hwf) E) as Hpost1.
    destruct (located_state _ _ _ _ _ _ Hwf Hpost1)
      as (path & _ & Hpath & _).
    destruct (resolve_located _ _ _ _ _ _ _ _ _ _ _ Hwf E Hpath Hres)
      as (? & ? & Hcases).
    split_and!; [done..|]. fold realm_v in Hcases.
    destruct (List.find _ (registry w)) as [[m s]|] eqn:Hfind.
    { left. by destruct Hcases as (_ & ? & _). }
    destruct (source_of w1 (cstr path)) as [source|].
    2:{ left. by destruct Hcases as (_ & ? & _). }
    destruct (parse_module source _) as [[kind message]|].
    { left. by destruct Hcases as (_ & ? & _). }
    destruct Hcases as (-> & node & ? & ? & ? & ? & ? & ? & ? & _).
    right. right. split; [done|]. exists node, new_p, path.
    by split_and!.
  - rewrite (resolve_without_path _ _ _ _ _ _ _ E) in Hres.
    injection Hres as <- <-.
    pose proof (resolve_path_result _ _ _ _ _ (proj1 Hwf) E) as Hpost1.
    destruct Hpost1 as (-> & _ & Hun & Hb1 & ? & _ & Hheap & Hfail).
    destruct Hun as (Hhead & ? & ? & Hglobal & ? & ? & ?).
    pose proof (heap_below_free w (proj1 Hwf)) as Hfree.
    destruct (registry_frame w (w_heap w1) Hwf) as (Hext & Hreg' & Hok).
    { intros a Ha. rewrite Hheap. by rewrite !lookup_insert_ne by lia. }
    split_and!.
    + split; [done|]. by rewrite Hhead.
    + done.
    + right. left. split_and!; try done.
      * apply Hfree. lia.
      * unfold registry at 1. by rewrite Hhead.
  - unfold jerry_port_module_resolve in Hres.
    change ((resolve_path specifier referrer ≫= ?f) w)
      with (match resolve_path specifier referrer w with
            | Some (a, w') => f a w'
            | None => None
            end) in Hres.
    by rewrite E in Hres.
Qed.
End Effect.

(** ** What a release changes *)

Lemma module_free_exact (realm_v : jerry_value_t) (w : world) :
  well_formed w →
  ∃ w',
    jerry_port_module_free realm_v w = Some (tt, w') ∧
    free_post (negb (jerry_value_is_object realm_v)) realm_v []
      (w_module_head w) w w'.
Proof.
  intros [Hb Hok].
  assert (Hrun : run (jerry_port_module_free realm_v) w
                   (λ _ w', free_post (negb (jerry_value_is_object realm_v))
                              realm_v [] (w_module_head w) w w') False).
  { unfold jerry_port_module_free. run_step. run_step.
    by apply run_module_free_loop. }
  apply run_total in Hrun as ([] & w' & Hrun & Hpost). eauto.
Qed.

Lemma footprint_split (h : gmap N block) (f : N → bool) (chain : list N)
    (a : N) :
  a ∈ footprint h chain →
  a ∈ footprint h (List.filter f chain) ∨
  a ∈ footprint h (List.filter (λ p, negb (f p)) chain).
Proof.
  induction chain as [|p chain IH]; simpl; [by left|].
  intros [Ha|Ha]%elem_of_app.
  - destruct (f p); simpl; [left|right]; apply elem_of_app; by left.
  - destruct (IH Ha) as [?|?]; [left|right].
    all: destruct (f p); simpl; try done; apply elem_of_app; by right.
Qed.

(** A release keeps the blocks of the records it spares and frees those of
    the others; no block is left without an owner. *)
Lemma module_free_owned (realm_v : jerry_value_t) (w w' : world) :
  well_formed w →
  jerry_port_module_free realm_v w = Some (tt, w') →
  well_formed w' ∧
  (∀ a, is_Some (w_heap w' !! a) → w_heap w' !! a = w_heap w !! a) ∧
  (∀ a, a ∈ footprint (w_heap w) (w_module_head w) →
        is_Some (w_heap w' !! a) →
        a ∈ footprint (w_heap w') (w_module_head w')).
Proof.
  intros Hwf Hrun.
  destruct (module_free_spec realm_v w Hwf)
    as (w1 & Hrun1 & Hwf' & _ & Hhead & _ & Hkept & _).
  destruct (module_free_exact realm_v w Hwf) as (w2 & Hrun2 & Hpost).
  simpl in Hrun1. rewrite Hrun in Hrun1, Hrun2.
  injection Hrun1 as <-. injection Hrun2 as <-.
  destruct Hpost as (_ & Hheap & _). split; [done|]. split.
  - intros a Ha. rewrite Hheap in *. by case_bool_decide.
  - intros a Ha Hlive.
    rewrite (footprint_ext (w_heap w)) by done. rewrite Hhead.
    rewrite Hheap in Hlive. case_bool_decide as Hgone.
    { by destruct Hlive. }
    by destruct (footprint_split _
                   (node_released (w_heap w)
                      (negb (jerry_value_is_object realm_v)) realm_v)
                   _ _ Ha).
Qed.

Lemma filter_all {A} (f : A → bool) (l : list A) :
  (∀ x, x ∈ l → f x = true) → List.filter f l = l.
Proof.
  induction l as [|x l IH]; simpl; [done|]. intros Hall.
  rewrite Hall by (apply elem_of_cons; by left).
  f_equal. apply IH. intros y Hy. apply Hall, elem_of_cons. by right.
Qed.

Lemma filter_none {A} (f : A → bool) (l : list A) :
  (∀ x, x ∈ l → f x = false) → List.filter f l = [].
Proof.
  induction l as [|x l IH]; simpl; [done|]. intros Hall.
  rewrite Hall by (apply elem_of_cons; by left).
  apply IH. intros y Hy. apply Hall, elem_of_cons. by right.
Qed.

(** With a value that is no object the loop frees the blocks of every
    record and nothing else. *)
Lemma module_free_everything (realm_v : jerry_value_t) (w : world) :
  well_formed w →
  jerry_value_is_object realm_v = false →
  ∃ w',
    jerry_port_module_free realm_v w = Some (tt, w') ∧
    well_formed w' ∧
    w_module_head w' = [] ∧
    (∀ a, w_heap w' !! a =
          if bool_decide (a ∈ footprint (w_heap w) (w_module_head w))
          then None else w_heap w !! a) ∧
    w_trace w' = w_trace w ++ flat_map release_events (registry w) ∧
    w_brk w' = w_brk w ∧ w_native w' = w_native w ∧
    w_objects w' = w_objects w ∧ w_global w' = w_global w ∧
    w_cwd w' = w_cwd w ∧ w_fs w' = w_fs w ∧ w_malloc w' = w_malloc w.
Proof.
  intros Hwf Hobj.
  destruct (module_free_exact realm_v w Hwf) as (w' & Hrun & Hpost).
  destruct (module_free_owned realm_v w w' Hwf Hrun) as (Hwf' & _).
  rewrite Hobj in Hpost. simpl in Hpost.
  destruct Hpost as (Hhead & Hheap & Htrace & Hrest).
  destruct Hwf as [_ [Hall _]]. rewrite Forall_forall in Hall.
  assert (Hgone : ∀ p, p ∈ w_module_head w →
                       node_released (w_heap w) true realm_v p = true).
  { intros p Hp. destruct (Hall p Hp) as [r Hr].
    unfold node_released. by rewrite Hr. }
  rewrite (filter_all _ _ Hgone) in Hheap.
  rewrite filter_none in Hhead
    by (intros p Hp; by rewrite (Hgone p Hp)).
  rewrite (filter_all (released true realm_v)) in Htrace
    by (intros; reflexivity).
  destruct Hrest as (? & ? & ? & ? & ? & ? & ?).
  exists w'. unfold registry. by split_and!.
Qed.

(** ** Records of a run *)

Section RunRecords.
Context `{Platform}.

Lemma reachable_records (w : world) :
  reachable w → well_formed w ∧ Forall record_ok (registry w).
Proof.
  intros (w0 & (Hheap & Hhead & _) & Hsteps).
  assert (Hinit : well_formed w0 ∧ Forall record_ok (registry w0)).
  { unfold well_formed, heap_below, chain_ok, registry.
    rewrite Hheap, Hhead. simpl. split_and!.
    - apply map_Forall_empty.
    - constructor.
    - constructor.
    - constructor. }
  clear Hheap Hhead.
  induction Hsteps as [|w0 wm w Hstep _ IH]; [done|].
  apply IH. clear IH. destruct Hinit as [Hwf Hrec].
  destruct Hstep as [w0 s r u v wm Hres|w0 rv wm Hrel|w0 wm Hhost].
  - destruct (resolve_effect _ _ _ _ _ _ Hwf Hres)
      as (Hwf' & _ & [Hkept|[Hoom|Hnew]]).
    + destruct Hkept as (Hreg & _). by rewrite Hreg.
    + destruct Hoom as (_ & _ & _ & _ & Hreg & _). by rewrite Hreg.
    + destruct Hnew as (-> & node & new_p & path & Hnew). simpl in Hnew.
      destruct Hnew as (_ & Hreg & _). split; [done|].
      rewrite Hreg. by constructor.
  - destruct (module_free_spec rv w0 Hwf) as (w' & Hrel' & Hwf' & Hreg & _).
    unfold jerry_port_module_release in Hrel.
    rewrite Hrel' in Hrel. injection Hrel as <-.
    split; [done|]. rewrite Hreg.
    rewrite Forall_forall in *. intros x [Hx _]%elem_of_filter_bool.
    by apply Hrec.
  - destruct (host_step_well_formed _ _ Hwf Hhost) as (Hwf' & Hreg).
    by rewrite Hreg.
Qed.

(** A referrer whose record is in the chain can be read. *)
Lemma registered_referrer_ok (w : world) (referrer : jerry_value_t) :
  well_formed w → Forall record_ok (registry w) →
  (∀ p, native_of w referrer = Some p → p ∈ w_module_head w) →
  referrer_ok w referrer.
Proof.
  intros [_ [Hall _]] Hrec Hreg p Hp.
  pose proof (proj1 (Forall_forall _ _) Hall) as Hall'.
  pose proof (proj1 (Forall_forall _ _) Hrec) as Hrec'.
  clear Hall Hrec. rename Hall' into Hall, Hrec' into Hrec.
  destruct (Hall p (Hreg p Hp)) as [[m s] Hr].
  pose proof (elem_of_registry w p m s (Hreg p Hp) Hr) as Hin.
  destruct (Hrec _ Hin) as (Hlen & _). simpl in Hlen.
  apply record_at_Some in Hr as [Hm Hs]. exists m, s.
  split_and!; [done..|]. rewrite Hlen.
  pose proof (directory_end_le s). pose proof (strlen_length s). lia.
Qed.

(** With a referrer that can be read and no failing allocation the
    resolver returns. *)
Lemma resolve_total specifier referrer user_p w :
  well_formed w → referrer_ok w referrer → (false ∉ w_malloc w) →
  ∃ v w', jerry_port_module_resolve specifier referrer user_p w
            = Some (v, w').
Proof.
  intros Hwf Hok Hplan.
  assert (Hrun : run (resolve_path specifier referrer) w
                   (resolve_path_post specifier w) False).
  { apply run_resolve_path; [by destruct Hwf| |done].
    right. split; [|done].
    destruct (w_malloc w) as [|[] l]; simpl; try done.
    exfalso. apply Hplan. apply elem_of_cons. by left. }
  apply run_total in Hrun as ([[in_p len] [new_p|]] & w1 & E & Hpost).
  - apply (resolve_returns _ _ _ _ _ _ _ _ Hwf E).
    intros (text & path & source & _ & _ & _ & _ & _ & Hfail).
    destruct Hpost as (_ & _ & _ & _ & _ & Hcons & _).
    apply Hplan. eapply consumed_in; [done|].
    by apply in_tail, hd_false_in.
  - rewrite (resolve_without_path _ _ user_p _ _ _ _ E). eauto.
Qed.
End RunRecords.

(** The small system gets to its state with two realms by two imports. *)
Lemma demo_two_realms_reachable : @reachable posix demo_two_realms.
Proof.
  exists boot. split; [by split_and!|].
  eapply rtc_l.
  { apply (@step_resolve posix boot (JString "math.js") JUndefined 0
             (JObject 100) demo_loaded). compute_done. }
  eapply rtc_l.
  { apply (@step_host posix demo_loaded (in_realm_of 8 demo_loaded)).
    by split_and!. }
  eapply rtc_l; [|apply rtc_refl].
  apply (@step_resolve posix (in_realm_of 8 demo_loaded) (JString "math.js")
           JUndefined 0 (JObject 101) demo_two_realms).
  compute_done.
Qed.

(** A release that finds no record to release changes nothing at all. *)
Lemma module_free_nothing (realm_v : jerry_value_t) (w : world) :
  well_formed w →
  (∀ p, p ∈ w_module_head w →
        node_released (w_heap w)
          (negb (jerry_value_is_object realm_v)) realm_v p = false) →
  jerry_port_module_free realm_v w = Some (tt, w).
Proof.
  intros Hwf Hkeep.
  destruct (module_free_exact realm_v w Hwf) as (w' & Hrun & Hpost).
  rewrite Hrun. do 2 f_equal.
  destruct Hpost as (Hhead & Hheap & Htrace & ? & ? & ? & ? & ? & ? & ?).
  rewrite filter_none in Hheap by done.
  rewrite filter_all in Hhead
    by (intros p Hp; by rewrite (Hkeep p Hp)).
  assert (Hnone : List.filter
                    (released (negb (jerry_value_is_object realm_v)) realm_v)
                    (omap (record_at (w_heap w)) (w_module_head w)) = []).
  { apply filter_none. intros [m s] Hin.
    apply list_elem_of_omap in Hin as (p & Hp & Hr).
    specialize (Hkeep p Hp). unfold node_released in Hkeep.
    by rewrite Hr in Hkeep. }
  rewrite Hnone in Htrace. simpl in Htrace, Hhead.
  rewrite app_nil_r in Htrace.
  assert (Hheap' : w_heap w' = w_heap w).
  { apply map_eq. intros a. rewrite Hheap.
    case_bool_decide as Hin; [|done]. simpl in Hin.
    by apply elem_of_nil in Hin. }
  destruct w, w'. simpl in *. by subst.
Qed.

(** ** The base of a path *)

Section NormalizeBase.
Context `{Platform}.

Lemma normalize_cwd in_p len base_p w text p w' :
  heap_below w →
  w_heap w !! in_p = Some (Chars text) →
  jerry_port_normalize_path in_p len base_p 0 w = Some (Some p, w') →
  ∃ base,
    cwd_text (set_malloc (tl (w_malloc w)) w) = Some base ∧
    w_heap w' !! p =
      Some (Chars (cwk_path_get_absolute (cstr base)
                     (cstr (string_take len (buffer_bytes text))))).
Proof.
  intros Hb Htext Hrun.
  pose proof (heap_below_free w Hb) as Hfree.
  pose proof (heap_below_live w Hb) as Hlive.
  assert (Hpost : run (jerry_port_normalize_path in_p len base_p 0) w
            (λ res w', ∀ p, res = Some p →
               ∃ base,
                 cwd_text (set_malloc (tl (w_malloc w)) w) = Some base ∧
                 w_heap w' !! p =
                   Some (Chars (cwk_path_get_absolute (cstr base)
                           (cstr (string_take len (buffer_bytes text))))))
            True).
  { unfold jerry_port_normalize_path, jerry_port_get_cwd,
      jerry_convert_utf16_to_utf8, cwd_text.
    destruct WIN32.
    all: repeat (run_step; heap_simpl; simplify_eq).
    all: try done; try lia.
    all: intros p0 [= <-]; heap_simpl.
    all: repeat match goal with
           | E : w_cwd _ = _ |- _ => rewrite E; clear E
           | E : hd true (tail _) = _ |- _ => rewrite E; clear E
           end.
    all: match goal with
         | E : <[_ := Uninit _]> _ !! ?q = Some (Chars _),
           T : w_heap _ !! ?q = Some (Chars _) |- _ =>
             rewrite lookup_insert_ne in E
               by (intros <-; rewrite Hfree in T by lia; done);
             rewrite T in E; injection E as <-
         end.
    all: eexists; split; [reflexivity|done]. }
  by apply (run_partial _ _ _ _ _ Hpost Hrun).
Qed.
Lemma normalize_base_spec in_p len base_p blen w p w' :
  heap_below w →
  normalize_pre in_p len base_p blen w →
  jerry_port_normalize_path in_p len base_p blen w = Some (Some p, w') →
  ∃ text base,
    w_heap w !! in_p = Some (Chars text) ∧
    normalize_base w base_p blen base ∧
    w_heap w !! p = None ∧
    w_heap w' =
      <[p := Chars (cwk_path_get_absolute (cstr base)
                      (cstr (string_take len (buffer_bytes text))))]>
        (w_heap w).
Proof.
  intros Hb Hpre Hrun.
  assert (Hpost : run (jerry_port_normalize_path in_p len base_p blen) w
                    (normalize_post in_p len base_p blen w) True).
  { apply run_normalize_path; auto. }
  pose proof (run_partial _ _ _ _ _ Hpost Hrun)
    as (_ & _ & _ & _ & Hp & text & base & Htext & Hheap & Hgiven & Hcwd).
  assert (Hfresh : w_heap w !! p = None)
    by (apply heap_below_None; [done|lia]).
  unfold normalize_base. destruct (decide (0 < blen)) as [Hlen|Hlen].
  - exists text, base. split_and!; try done.
    destruct Hpre as [_ Hbase]. destruct (Hbase Hlen) as (bp & s & ? & ? & _).
    exists bp, s. split_and!; try done. by eapply Hgiven.
  - assert (blen = 0) as -> by lia.
    destruct (normalize_cwd _ _ _ _ _ _ _ Hb Htext Hrun)
      as (base' & Hbase' & Hexact).
    exists text, base'. split_and!; try done.
    rewrite Hheap, lookup_insert_eq in Hexact.
    injection Hexact as Hexact. by rewrite <- Hexact.
Qed.
End NormalizeBase.

Section ResolveBase.
Context `{Platform}.


End ResolveBase.

(** ** Prefixes of C strings *)

Lemma cstr_append (a b : string) :
  cstr a = a → cstr (a +:+ b) = a +:+ cstr b.
Proof.
  induction a as [|c a IH]; simpl; [done|].
  destruct (Ascii.eqb c NUL); [done|]. intros [= Ha]. by rewrite IH.
Qed.

Lemma char_at_append (a b : string) (i : nat) :
  char_at (a +:+ b) (String.length a + i) = char_at b i.
Proof. unfold char_at. induction a as [|c a IH]; simpl; [done|]. apply IH. Qed.

Lemma char_at_take (n : nat) (s : string) (i : nat) :
  i < n → char_at (string_take n s) i = char_at s i.
Proof.
  unfold char_at. revert s i.
  induction n as [|n IH]; intros [|c s] [|i] Hi; simpl; try done; try lia.
  apply IH. lia.
Qed.

Lemma char_at_cstr (s : string) (i : nat) :
  i < strlen s → char_at (cstr s) i = char_at s i.
Proof.
  intros Hi. unfold char_at. by destruct (cstr_no_NUL s i Hi) as [-> _].
Qed.

Lemma take_cstr (n : nat) (s : string) :
  n ≤ strlen s →
  string_take n (buffer_bytes s) = string_take n (cstr s) ∧
  cstr (string_take n (cstr s)) = string_take n (cstr s) ∧
  String.length (string_take n (cstr s)) = n.
Proof.
  unfold strlen, buffer_bytes. revert n.
  induction s as [|c s IH]; intros [|n] Hn; simpl in *; try done; try lia.
  destruct (Ascii.eqb c NUL) eqn:E; simpl in *; [lia|].
  rewrite E. destruct (IH n) as (-> & -> & ->); [lia|done].
Qed.


(** ** The value of a call of the resolver *)

Section Values.
Context `{Platform}.

(** A call that returns has found a record and returns its module, or
    returns an error value and keeps the registry, or returns the module
    of the record it has put at the head of the chain. *)
Lemma resolve_value specifier referrer user_p w v w' :
  well_formed w →
  jerry_port_module_resolve specifier referrer user_p w = Some (v, w') →
  let realm_v := JObject (w_global w) in
  (∃ m s,
     List.find (record_matches realm_v s) (registry w) = Some (m, s) ∧
     module m = v ∧ registry_kept w w') ∨
  (jerry_value_is_error v = true ∧ registry w' = registry w ∧
   w_module_head w' = w_module_head w ∧ w_native w' = w_native w) ∨
  (jerry_value_is_error v = false ∧
   ∃ m s,
     registry w' = (m, s) :: registry w ∧ module m = v ∧
     realm m = realm_v ∧
     List.find (record_matches realm_v s) (registry w) = None).
Proof.
  intros Hwf Hres realm_v.
  destruct (resolve_path specifier referrer w)
    as [[[[in_p len] [new_p|]] w1]|] eqn:E.
  - pose proof (resolve_path_result _ _ _ _ _ (proj1 Hwf) E) as Hpost1.
    destruct (located_state _ _ _ _ _ _ Hwf Hpost1)
      as (path & _ & Hpath & _).
    destruct (resolve_located _ _ _ _ _ _ _ _ _ _ _ Hwf E Hpath Hres)
      as (_ & _ & Hcases).
    fold realm_v in Hcases.
    destruct (List.find _ (registry w)) as [[m s]|] eqn:Hfind.
    { destruct Hcases as (-> & Hkept & _). left. exists m, s.
      split_and!; [|done..].
      pose proof Hfind as Hin. apply find_some in Hin as [_ Hmatch].
      unfold record_matches, record_key in Hmatch.
      apply bool_decide_eq_true in Hmatch. simpl in Hmatch.
      rewrite (record_matches_cstr _ s path); [done|congruence]. }
    destruct (source_of w1 (cstr path)) as [source|].
    2:{ destruct Hcases as (-> & (? & ? & _ & ? & _) & _).
        right. left. by split_and!. }
    destruct (parse_module source _) as [[kind message]|].
    { destruct Hcases as (-> & (? & ? & _ & ? & _) & _).
      right. left. by split_and!. }
    destruct Hcases as (-> & node & _ & Hreg & _).
    right. right. split; [done|]. eauto 10.
  - destruct (resolve_effect _ _ _ _ _ _ Hwf Hres)
      as (_ & _ & [Hkept|[Hoom|Hnew]]).
    + rewrite (resolve_without_path _ _ user_p _ _ _ _ E) in Hres.
      injection Hres as <- <-. right. left.
      by destruct Hkept as (? & ? & _ & ? & _).
    + destruct Hoom as (-> & _ & _ & _ & ? & ? & ? & _).
      right. left. by split_and!.
    + rewrite (resolve_without_path _ _ user_p _ _ _ _ E) in Hres.
      injection Hres as <- <-. by destruct Hnew as [? _].
  - unfold jerry_port_module_resolve in Hres.
    change ((resolve_path specifier referrer ≫= ?f) w)
      with (match resolve_path specifier referrer w with
            | Some (a, w') => f a w'
            | None => None
            end) in Hres.
    by rewrite E in Hres.
Qed.
End Values.

(** ** What the working directory buffer holds *)

Section CwdText.
Context `{Platform}.

End CwdText.



(** ** Reading and releasing a source *)

Lemma source_of_readable (w : world) (file_name : string) (source : string) :
  source_of w file_name = Some source →
  ¬ unreadable w file_name ∧
  ∃ f, w_fs w !! file_name = Some (Regular f) ∧ f_open f = true ∧
       hd true (w_malloc w) = true ∧
       f_size f ≤ String.length (f_data f) ∧
       source = string_take (f_size f) (f_data f).
Proof.
  unfold source_of, unreadable.
  destruct (w_fs w !! file_name) as [[|f]|]; try done.
  destruct (f_open f) eqn:Hopen; simpl; [|done].
  destruct (hd true (w_malloc w)) eqn:Hplan; simpl; [|done].
  case_bool_decide as Hlen; [|done]. intros [= <-]. split.
  - intros [?|[?|?]]; done.
  - exists f. split_and!; try done. lia.
Qed.

Lemma source_of_unreadable (w : world) (file_name : string) :
  source_of w file_name = None → unreadable w file_name.
Proof.
  unfold source_of, unreadable.
  destruct (w_fs w !! file_name) as [[|f]|]; try done.
  destruct (f_open f) eqn:Hopen; simpl; [|by left].
  destruct (hd true (w_malloc w)) eqn:Hplan; simpl; [|by right; left].
  case_bool_decide as Hlen; [done|]. intros _. by right; right.
Qed.

(** X1. [jerry_port_read_source] on a live file name always returns. It
    returns a buffer exactly when the name is that of a regular file that
    opens, the buffer can be allocated and the file delivers the bytes its
    size announced: the buffer is new, holds those bytes, and the size
    written out is the size of the file. Otherwise it returns [NULL] after
    one message to the log, and the heap is as before the call: a buffer
    allocated for a short read is freed again. *)
Theorem read_source_contract (file_name_p : N) (name : string) (w : world) :
  heap_below w →
  w_heap w !! file_name_p = Some (Chars name) →
  ∃ res w',
    jerry_port_read_source file_name_p w = Some (res, w') ∧
    (is_Some res ↔ ¬ unreadable w (cstr name)) ∧
    match res with
    | Some (buffer, size) =>
        ∃ f, w_fs w !! cstr name = Some (Regular f) ∧
             size = f_size f ∧
             w_heap w !! buffer = None ∧
             w_heap w' =
               <[buffer := Bytes (string_take (f_size f) (f_data f))]>
                 (w_heap w) ∧
             String.length (string_take (f_size f) (f_data f)) = f_size f ∧
             events_of w w' = [EvReadSource (cstr name)]
    | None =>
        w_heap w' = w_heap w ∧
        ∃ message,
          events_of w w' = [EvReadSource (cstr name); EvLog message]
    end.
Proof.
  intros Hb Hname.
  assert (Hrun : run (jerry_port_read_source file_name_p) w
                   (read_source_post file_name_p w) False).
  { apply run_read_source; eauto. }
  apply run_total in Hrun as (res & w' & Hrun & name' & Hname' & Hpost).
  rewrite Hname in Hname'. injection Hname' as <-.
  exists res, w'. split; [done|].
  destruct Hpost as (_ & _ & _ & _ & _ & _ & _ & _ & _ & Hres).
  destruct (source_of w (cstr name)) as [source|] eqn:Hsrc.
  - destruct res as [[buffer size]|]; [|done].
    apply source_of_readable in Hsrc as (Hread & f & Hf & _ & _ & Hlen & ->).
    destruct Hres as (-> & Hfresh & Hheap & _ & Htrace).
    split; [by split; eauto|].
    exists f. rewrite string_take_length by lia.
    split_and!; try done; try lia.
    + apply heap_below_None; [done|lia].
    + by apply events_of_app.
  - destruct res as [[buffer size]|]; [done|].
    apply source_of_unreadable in Hsrc.
    destruct Hres as (Hheap & message & Htrace).
    split; [split; [by intros [? [=]]|done]|].
    split; [done|]. exists message. by apply events_of_app.
Qed.

Lemma read_source_contract_witness :
  ∃ buffer w',
    jerry_port_read_source 4 demo_loaded = Some (Some (buffer, 3), w') ∧
    w_heap w' !! buffer = Some (Bytes "1+1").
Proof.
  destruct (read_source_contract 4 "/lib/math.js" demo_loaded)
    as (res & w' & Hrun & Hsome & Hres).
  - compute_done.
  - compute_done.
  - destruct res as [[buffer size]|].
    + destruct Hres as (f & Hf & -> & _ & Hheap & _).
      assert (f = {| f_open := true; f_size := 3; f_data := "1+1" |}) as ->.
      { vm_compute in Hf. congruence. }
      exists buffer, w'. split; [done|].
      rewrite Hheap. by rewrite lookup_insert_eq.
    + exfalso. destruct Hsome as [_ Hsome].
      destruct Hsome as [? [=]]. vm_compute. intros [?|[?|?]]; done.
Defined.

(** X2. The buffer [jerry_port_read_source] returns is released by
    [jerry_port_release_source]: after the two calls the heap is what it
    was before the source was read. A second release of the same buffer
    frees a block that is live no more. *)
Theorem read_source_then_release (file_name_p : N) (w : world)
    (buffer : N) (size : nat) (w1 : world) :
  heap_below w →
  jerry_port_read_source file_name_p w = Some (Some (buffer, size), w1) →
  ∃ w2,
    jerry_port_release_source buffer w1 = Some (tt, w2) ∧
    w_heap w2 = w_heap w ∧ w_trace w2 = w_trace w1 ∧
    jerry_port_release_source buffer w2 = None.
Proof.
  intros Hb Hread.
  assert (Hrun : run (jerry_port_read_source file_name_p) w
                   (read_source_post file_name_p w) True).
  { apply run_read_source; auto. }
  pose proof (run_partial _ _ _ _ _ Hrun Hread) as (name & _ & Hpost).
  destruct Hpost as (_ & _ & _ & _ & _ & _ & _ & _ & _ & Hres).
  destruct (source_of w (cstr name)) as [source|]; [|done].
  destruct Hres as (_ & Hfresh & Hheap & _).
  assert (Hnone : w_heap w !! buffer = None)
    by (apply heap_below_None; [done|lia]).
  unfold jerry_port_release_source, free.
  rewrite Hheap, lookup_insert_eq.
  eexists. split; [done|]. simpl.
  rewrite Hheap, delete_insert_eq, lookup_delete_eq.
  split_and!; try done. by apply delete_id.
Qed.

Lemma read_source_then_release_witness :
  ∃ w1 w2,
    jerry_port_read_source 4 demo_loaded = Some (Some (7%N, 3), w1) ∧
    jerry_port_release_source 7 w1 = Some (tt, w2) ∧
    w_heap w2 = w_heap demo_loaded.
Proof.
  eexists _, _. split; [by vm_compute|].
  destruct (read_source_then_release 4 demo_loaded 7 3
              (state_after (jerry_port_read_source 4) demo_loaded))
    as (w2 & Hrel & Hheap & _).
  - compute_done.
  - by vm_compute.
  - vm_compute in Hrel. injection Hrel as <-. by vm_compute.
Defined.

(** ** The working directory *)

Section WorkingDirectory.
Context `{Platform}.

(** X3. [jerry_port_get_cwd (NULL, 0)] always returns, and what it returns
    is decided by the working directory and the outcomes of the
    allocations. Off Windows the buffer of [getcwd] is handed over as it
    is, without an allocation of the port. On Windows the result is a new
    buffer that holds a copy of the working directory whenever that buffer
    can be allocated. When the working directory cannot be had, or, on
    Windows, when the buffer for its copy cannot be allocated, the result
    is a new buffer with ["/"], and [NULL] when that cannot be allocated
    either. The result is a block that was not live, nothing else is left
    allocated, and when no allocation fails it holds the working
    directory, or ["/"] when there is none. *)
Theorem get_cwd_allocates (w : world) :
  heap_below w →
  ∃ res w',
    jerry_port_get_cwd None 0 w = Some (res, w') ∧
    match cwd_text w, res with
    | Some dir, Some p =>
        w_heap w !! p = None ∧
        w_heap w' = <[p := Chars dir]> (w_heap w)
    | None, None => w_heap w' = w_heap w
    | _, _ => False
    end ∧
    ((false ∉ w_malloc w) →
     cwd_text w = Some (default "/"%string (w_cwd w))) ∧
    (res = None → false ∈ w_malloc w) ∧
    (WIN32 = false → ∀ dir, w_cwd w = Some dir →
       cwd_text w = Some dir ∧ w_malloc w' = w_malloc w).
Proof.
  intros Hb.
  assert (Hexact : ∃ res w',
            jerry_port_get_cwd None 0 w = Some (res, w') ∧
            match cwd_text w, res with
            | Some dir, Some p =>
                w_heap w !! p = None ∧
                w_heap w' = <[p := Chars dir]> (w_heap w)
            | None, None => w_heap w' = w_heap w
            | _, _ => False
            end).
  { apply run_total.
    unfold jerry_port_get_cwd, jerry_convert_utf16_to_utf8, cwd_text.
    pose proof (heap_below_free w Hb) as Hfree.
    destruct WIN32.
    all: repeat (run_step; heap_simpl; simplify_eq).
    all: try absurd_crash.
    all: try lia.
    all: repeat match goal with
           | E : w_cwd _ = _ |- _ => rewrite E; clear E
           | E : hd true _ = _ |- _ => rewrite E; clear E
           end.
    all: try done.
    all: first [ heap_eq | split; [apply Hfree; lia | heap_eq] ]. }
  destruct Hexact as (res & w' & Hrun & Hres).
  exists res, w'. split_and!; try done.
  - intros Hplan. unfold cwd_text.
    assert (Hhd : hd true (w_malloc w) = true).
    { destruct (w_malloc w) as [|[] l]; simpl; try done.
      exfalso. apply Hplan. apply elem_of_cons. by left. }
    rewrite Hhd. by destruct (w_cwd w), WIN32.
  - intros ->. destruct (cwd_text w) as [dir|] eqn:Htext; [done|].
    unfold cwd_text in Htext.
    destruct (hd true (w_malloc w)) eqn:Hhd.
    + by destruct (w_cwd w), WIN32.
    + by apply hd_false_in.
  - intros Hposix dir Hcwd. split.
    + unfold cwd_text. by rewrite Hcwd, Hposix.
    + unfold jerry_port_get_cwd, getcwd in Hrun. rewrite Hposix in Hrun.
      cbv [mbind M_bind] in Hrun. rewrite Hcwd in Hrun.
      by injection Hrun as <- <-.
Qed.
End WorkingDirectory.

Lemma get_cwd_allocates_witness :
  (∃ p w',
     @jerry_port_get_cwd windows None 0 boot = Some (Some p, w') ∧
     w_heap w' = <[p := Chars "/lib"]> (w_heap boot)) ∧
  (∃ p w',
     @jerry_port_get_cwd windows None 0 demo_first_fails
       = Some (Some p, w') ∧
     w_heap w' = <[p := Chars "/"]> (w_heap demo_first_fails)) ∧
  (∃ p w',
     @jerry_port_get_cwd posix None 0 demo_first_fails
       = Some (Some p, w') ∧
     w_heap w' = <[p := Chars "/lib"]> (w_heap demo_first_fails)).
Proof.
  split_and!.
  - destruct (@get_cwd_allocates windows boot)
      as (res & w' & Hrun & Hres & _); [compute_done|].
    change (@cwd_text windows boot) with (Some "/lib"%string) in Hres.
    destruct res as [p|]; [|done]. destruct Hres as [_ Hheap]. eauto.
  - destruct (@get_cwd_allocates windows demo_first_fails)
      as (res & w' & Hrun & Hres & _); [compute_done|].
    change (@cwd_text windows demo_first_fails)
      with (Some "/"%string) in Hres.
    destruct res as [p|]; [|done]. destruct Hres as [_ Hheap]. eauto.
  - destruct (@get_cwd_allocates posix demo_first_fails)
      as (res & w' & Hrun & Hres & _); [compute_done|].
    change (@cwd_text posix demo_first_fails)
      with (Some "/lib"%string) in Hres.
    destruct res as [p|]; [|done]. destruct Hres as [_ Hheap]. eauto.
Defined.
Section CallerBuffer.
Context `{Platform}.

(** X4. [jerry_port_get_cwd] with a buffer of the caller and its size
    returns that buffer, filled with the working directory, when the
    directory and its terminator fit in [out_buf_size] bytes. When they do
    not fit, or when the working directory cannot be had, it returns
    [NULL] and the buffer is as it was; ["/"] is not used here. In all
    cases the block [getcwd] allocated is freed, and the port allocates
    nothing. *)
Theorem get_cwd_into_buffer (out : N) (size : nat) (old : block) (w : world) :
  heap_below w →
  w_heap w !! out = Some old →
  (∀ n, old = Uninit n → size ≤ n) →
  (∀ dir, w_cwd w = Some dir → cstr dir = dir) →
  ∃ res w',
    jerry_port_get_cwd (Some out) size w = Some (res, w') ∧
    w_malloc w' = w_malloc w ∧ w_trace w' = w_trace w ∧
    w_module_head w' = w_module_head w ∧
    match w_cwd w with
    | Some dir =>
        if decide (String.length dir < size)
        then res = Some out ∧ w_heap w' = <[out := Chars dir]> (w_heap w)
        else res = None ∧ w_heap w' = w_heap w
    | None => res = None ∧ w_heap w' = w_heap w
    end.
Proof.
  intros Hb Hout Hroom Hcstr. apply run_total.
  unfold jerry_port_get_cwd, jerry_convert_utf16_to_utf8.
  pose proof (heap_below_free w Hb) as Hfree.
  pose proof (heap_below_live w Hb _ _ Hout) as Hlive.
  destruct WIN32.
  all: repeat (run_step; heap_simpl; simplify_eq).
  all: try absurd_crash.
  all: try (exfalso; pose proof (Hroom _ eq_refl);
            match goal with
            | Hfit : ∀ _, _ = Some (Uninit _) → ¬ _ |- _ =>
                apply (Hfit _ Hout); lia
            end).
  all: split_and!; try done.
  all: match goal with E : w_cwd _ = _ |- _ => rewrite E end.
  all: unfold strlen in *;
       try match goal with E : w_cwd _ = Some ?s |- _ =>
             rewrite (Hcstr s E) in * end.
  all: try case_decide; try lia.
  all: split; try done; try heap_eq.
Qed.
End CallerBuffer.

Lemma get_cwd_into_buffer_witness :
  ∃ w',
    @jerry_port_get_cwd posix (Some 1%N) 8 demo_buffer
      = Some (Some 1%N, w') ∧
    w_heap w' = <[1%N := Chars "/lib"]> (w_heap demo_buffer) ∧
    ∃ w'',
      @jerry_port_get_cwd posix (Some 1%N) 4 demo_buffer
        = Some (None, w'') ∧
      w_heap w'' = w_heap demo_buffer.
Proof.
  destruct (@get_cwd_into_buffer posix 1 8 (Uninit 8) demo_buffer)
    as (res & w' & Hrun & _ & _ & _ & Hres).
  { compute_done. }
  { done. }
  { intros n [= <-]. lia. }
  { intros dir [= <-]. done. }
  destruct (@get_cwd_into_buffer posix 1 4 (Uninit 8) demo_buffer)
    as (res2 & w'' & Hrun2 & _ & _ & _ & Hres2).
  { compute_done. }
  { done. }
  { intros n [= <-]. lia. }
  { intros dir [= <-]. done. }
  simpl in Hres, Hres2. destruct Hres as [-> Hheap].
  destruct Hres2 as [-> Hheap2]. eauto 10.
Defined.

(** ** The base of a path *)

Section PathBases.
Context `{Platform}.

(** X5. The path [jerry_port_normalize_path] returns is what the path
    primitive computes for the specifier, cut at its length and at its
    first NUL, and a base directory chosen as follows. With a base length
    above zero the base is the first [base_path_length] bytes of the base
    buffer. With a base length of zero the base buffer is not looked at:
    the base is what [jerry_port_get_cwd (NULL, 0)] returns after the
    copy of the path was allocated, that is, the working directory, and
    ["/"] when the working directory cannot be had or, on Windows, when
    the buffer for its copy cannot be allocated. When no allocation fails
    it is the working directory, or ["/"] when there is none, on every
    platform. The result is a new block, and the heap is otherwise as
    before. *)
Theorem normalize_path_base in_p len base_p blen w p w' :
  heap_below w →
  normalize_pre in_p len base_p blen w →
  jerry_port_normalize_path in_p len base_p blen w = Some (Some p, w') →
  ∃ text base,
    w_heap w !! in_p = Some (Chars text) ∧
    w_heap w !! p = None ∧
    w_heap w' =
      <[p := Chars (cwk_path_get_absolute (cstr base)
                      (cstr (string_take len (buffer_bytes text))))]>
        (w_heap w) ∧
    (0 < blen →
     ∃ bp s, base_p = Some bp ∧ w_heap w !! bp = Some (Chars s) ∧
             base = string_take blen (buffer_bytes s)) ∧
    (blen = 0 →
     cwd_text (set_malloc (tl (w_malloc w)) w) = Some base ∧
     ((false ∉ w_malloc w) → base = default "/"%string (w_cwd w)) ∧
     (w_cwd w = None → base = "/"%string) ∧
     (∀ dir, w_cwd w = Some dir →
        (hd true (tl (w_malloc w)) = true → base = dir) ∧
        (base = dir ∨
         (WIN32 = true ∧ hd true (tl (w_malloc w)) = false ∧
          base = "/"%string)))).
Proof.
  intros Hb Hpre Hrun.
  destruct (normalize_base_spec _ _ _ _ _ _ _ Hb Hpre Hrun)
    as (text & base & Htext & Hbase & Hfresh & Hheap).
  exists text, base. split_and!; try done.
  - intros Hlen. unfold normalize_base in Hbase.
    by destruct (decide (0 < blen)).
  - intros ->. unfold normalize_base in Hbase. simpl in Hbase.
    split; [done|]. unfold cwd_text in Hbase. simpl in Hbase.
    split_and!.
    + intros Hplan.
      assert (Hhd : hd true (tl (w_malloc w)) = true).
      { destruct (w_malloc w) as [|b [|[] l]]; simpl; try done.
        exfalso. apply Hplan. rewrite !elem_of_cons. auto. }
      rewrite Hhd in Hbase.
      destruct (w_cwd w), WIN32; simpl; congruence.
    + intros Hcwd. rewrite Hcwd in Hbase.
      destruct (hd true (tl (w_malloc w))); congruence.
    + intros dir Hcwd. rewrite Hcwd in Hbase.
      destruct WIN32, (hd true (tl (w_malloc w))) eqn:Hhd.
      * injection Hbase as <-. auto.
      * destruct (hd true (tl (tl (w_malloc w)))); [|done].
        injection Hbase as <-. split; [done|]. right. auto.
      * injection Hbase as <-. auto.
      * injection Hbase as <-. auto.
Qed.
End PathBases.

Lemma normalize_path_base_witness :
  (∃ p w',
     @jerry_port_normalize_path posix 4 0 (Some 4%N) 5 demo_loaded
       = Some (Some p, w') ∧
     w_heap w' !! p = Some (Chars "/lib/")) ∧
  (∃ p w',
     @jerry_port_normalize_path windows 4 0 None 0 demo_copy_fails
       = Some (Some p, w') ∧
     w_heap w' !! p = Some (Chars "/")).
Proof.
  split.
  - destruct (@jerry_port_normalize_path posix 4 0 (Some 4%N) 5 demo_loaded)
      as [[[p|] w']|] eqn:Hrun; try by vm_compute in Hrun.
    destruct (@normalize_path_base posix 4 0 (Some 4%N) 5 demo_loaded p w')
      as (text & base & Htext & _ & Hheap & Hgiven & _).
    + compute_done.
    + split.
      * exists "/lib/math.js"%string. split; [compute_done|simpl; lia].
      * intros _. exists 4%N, "/lib/math.js"%string.
        split_and!; [done|compute_done|simpl; lia].
    + done.
    + destruct Hgiven as (bp & s & [= <-] & Hs & ->); [lia|].
      vm_compute in Htext, Hs. injection Htext as <-. injection Hs as <-.
      exists p, w'. split; [done|]. rewrite Hheap, lookup_insert_eq.
      by vm_compute.
  - destruct (@jerry_port_normalize_path windows 4 0 None 0 demo_copy_fails)
      as [[[p|] w']|] eqn:Hrun; try by vm_compute in Hrun.
    destruct (@normalize_path_base windows 4 0 None 0 demo_copy_fails p w')
      as (text & base & Htext & _ & Hheap & _ & Hcwd).
    + compute_done.
    + split.
      * exists "/lib/math.js"%string. split; [compute_done|simpl; lia].
      * intros Hlen. lia.
    + done.
    + destruct (Hcwd eq_refl) as (Hbase & _).
      vm_compute in Hbase. injection Hbase as <-.
      vm_compute in Htext. injection Htext as <-.
      exists p, w'. split; [done|]. rewrite Hheap, lookup_insert_eq.
      by vm_compute.
Defined.

(** ** The directory part of a path, again *)

Section DirectoryPart.
Context `{Platform}.

Lemma separator_not_NUL (c : ascii) : is_separator c = true → c ≠ NUL.
Proof. intros Hc ->. unfold is_separator in Hc. by destruct WIN32. Qed.

(** X6. The directory part of a path, its first
    [jerry_port_get_directory_end] bytes, is a C string that is empty or
    ends in a separator, and it is its own directory part: asking for its
    directory end gives its length. These are the bytes that
    [jerry_port_normalize_path] copies from the path buffer of a record
    whose base path length is the directory end of its path. *)
Theorem directory_part_is_stable (path : string) :
  let k := jerry_port_get_directory_end path in
  let dir := string_take k (cstr path) in
  k ≤ strlen path ∧
  string_take k (buffer_bytes path) = dir ∧
  cstr dir = dir ∧ String.length dir = k ∧
  jerry_port_get_directory_end dir = k ∧
  (0 < k → is_separator (char_at dir (k - 1)) = true).
Proof.
  intros k dir. pose proof (directory_end_le path) as Hle. fold k in Hle.
  destruct (take_cstr k path Hle) as (Hbuf & Hcstr & Hlen).
  fold dir in Hbuf, Hcstr, Hlen.
  assert (Hstr : strlen dir = k) by (unfold strlen; by rewrite Hcstr).
  split_and!; try done.
  - unfold jerry_port_get_directory_end at 1. rewrite Hstr.
    destruct k as [|k'] eqn:Hk; [done|].
    apply directory_end_loop_succ in Hk as (Hlt & Hsep & _).
    apply directory_end_loop_succ. split; [lia|]. split; [|intros; lia].
    unfold dir. rewrite char_at_take by lia. by rewrite char_at_cstr.
  - intros Hpos. destruct k as [|k'] eqn:Hk; [lia|].
    apply directory_end_loop_succ in Hk as (Hlt & Hsep & _).
    replace (S k' - 1) with k' by lia.
    unfold dir. rewrite char_at_take by lia. by rewrite char_at_cstr.
Qed.

(** X7. For a directory without NUL, a separator and a name without
    separator, the directory end of the three put together is the offset
    just past the separator, whatever separators the directory holds: the
    directory part of the whole is the directory with the separator, and
    what follows it is the name. *)
Theorem directory_end_of_joined (dir name : string) (sep : ascii) :
  cstr dir = dir →
  is_separator sep = true →
  (∀ i, i < strlen name → is_separator (char_at name i) = false) →
  jerry_port_get_directory_end (dir +:+ String sep name)
    = S (String.length dir) ∧
  string_take (S (String.length dir)) (cstr (dir +:+ String sep name))
    = dir +:+ String sep EmptyString.
Proof.
  intros Hdir Hsep Hname.
  pose proof (separator_not_NUL sep Hsep) as Hnul.
  assert (Hcstr : cstr (dir +:+ String sep name)
                  = dir +:+ String sep (cstr name)).
  { rewrite cstr_append by done. simpl.
    by destruct (Ascii.eqb_spec sep NUL). }
  assert (Hlen : strlen (dir +:+ String sep name)
                 = String.length dir + S (strlen name)).
  { unfold strlen. rewrite Hcstr, append_length. done. }
  split.
  - apply directory_end_loop_succ. rewrite Hlen. split; [lia|]. split.
    + replace (String.length dir) with (String.length dir + 0) by lia.
      by rewrite char_at_append.
    + intros j Hj.
      replace j with (String.length dir + S (j - S (String.length dir)))
        by lia.
      rewrite char_at_append. unfold char_at. simpl.
      apply Hname. lia.
  - rewrite Hcstr. clear. induction dir as [|c dir IH]; [done|].
    change (String c (string_take (S (String.length dir))
                        (dir +:+ String sep (cstr name)))
            = String c (dir +:+ String sep EmptyString)).
    by rewrite IH.
Qed.
End DirectoryPart.

Lemma directory_end_of_joined_witness :
  @jerry_port_get_directory_end posix "/lib/sub/math.js" = 9.
Proof.
  apply (@directory_end_of_joined posix "/lib/sub" "math.js" "/").
  - done.
  - done.
  - intros i Hi. vm_compute in Hi.
    do 7 (destruct i as [|i]; [done|]). lia.
Defined.

(** ** The base of an import *)

Section ImportBase.
Context `{Platform}.

End ImportBase.


(** ** The first import of a module *)

Section FirstImport.
Context `{Platform}.

(** X9. When the search finds no record, the file of the path is read,
    its source parses and the record can be allocated,
    [jerry_port_module_resolve] returns the new module object and puts one
    record at the head of the chain: it owns the path buffer, its base
    path ends where the directory of the path ends, its realm is the
    current global object, whose reference is kept and not released, and
    its module is the returned object with a reference of its own. The
    native pointer of the module is the new node. The record is then the
    one record of the realm under the path, so that the next search for
    the path finds it. The copy of the specifier and the source buffer are
    freed. *)
Theorem first_import_registers_module specifier referrer user_p w in_p len
    new_p w1 path source :
  well_formed w →
  resolve_path specifier referrer w = Some ((in_p, len, Some new_p), w1) →
  w_heap w1 !! new_p = Some (Chars path) →
  records_for w (JObject (w_global w)) path = [] →
  source_of w1 (cstr path) = Some source →
  parse_module source (jerry_string_utf8 specifier) = None →
  hd true (tail (w_malloc w1)) = true →
  ∃ w' node,
    let realm_v := JObject (w_global w) in
    let v := JObject (w_objects w) in
    let m := {| path_p := new_p;
                base_path_length := jerry_port_get_directory_end path;
                realm := realm_v;
                module := v |} in
    jerry_port_module_resolve specifier referrer user_p w = Some (v, w') ∧
    w_module_head w' = node :: w_module_head w ∧
    registry w' = (m, path) :: registry w ∧
    w_heap w' = <[node := Module m]> (<[new_p := Chars path]> (w_heap w)) ∧
    native_of w' v = Some node ∧
    records_for w' realm_v path = [(m, path)] ∧
    events_of w w' =
      [EvAcquire realm_v; EvReadSource (cstr path);
       EvParse source (jerry_string_utf8 specifier); EvAcquire v].
Proof.
  intros Hwf E Hpath Hnone Hsrc Hparse Hplan.
  destruct (resolve_returns specifier referrer user_p _ _ _ _ _ Hwf E)
    as (v & w' & Hres).
  { intros (text & path0 & source0 & _ & _ & _ & _ & _ & Hfail).
    congruence. }
  pose proof (resolve_located _ _ _ _ _ _ _ _ _ _ _ Hwf E Hpath Hres)
    as (Hwf' & _ & Hcases).
  rewrite find_records_for, Hnone in Hcases. simpl in Hcases.
  rewrite Hsrc, Hparse in Hcases.
  destruct Hcases as (-> & node & Hhead & Hreg & _ & _ & Hheap & Hnat & _
                      & Hev).
  exists w', node. simpl. split_and!; try done.
  - by rewrite Hnat, lookup_insert_eq.
  - unfold records_for in *. rewrite Hreg. simpl.
    unfold record_matches at 1, record_key. simpl.
    rewrite bool_decide_eq_true_2 by done. by rewrite Hnone.
Qed.
End FirstImport.

Lemma first_import_registers_module_witness :
  ∃ w' node,
    @jerry_port_module_resolve posix (JString "math.js") JUndefined 0 boot
      = Some (JObject 100, w') ∧
    w_module_head w' = [node] ∧
    native_of w' (JObject 100) = Some node.
Proof.
  destruct (@first_import_registers_module posix (JString "math.js")
              JUndefined 0 boot 1 7 4
              (state_after (@resolve_path posix (JString "math.js")
                              JUndefined) boot)
              "/lib/math.js" "1+1")
    as (w' & node & Hres & Hhead & _ & _ & Hnat & _).
  - compute_done.
  - by vm_compute.
  - by vm_compute.
  - by vm_compute.
  - by vm_compute.
  - done.
  - done.
  - exists w', node. by split_and!.
Defined.

(** ** What the resolver returns *)

Section Results.
Context `{Platform}.

(** X10. Whatever [jerry_port_module_resolve] returns, the registry is
    never smaller afterwards and no record is changed. When it returns an
    error value, for a missing file, a source that does not parse or a
    path that cannot be allocated, the registry, its chain and the native
    pointers are exactly as before. When it returns any other value, that
    value is the module of a record of the current realm which is in the
    registry after the call, first under its path: either a record that
    was there before, or one new record at the head. *)
Theorem resolve_result_is_registered specifier referrer user_p w v w' :
  well_formed w →
  jerry_port_module_resolve specifier referrer user_p w = Some (v, w') →
  if jerry_value_is_error v
  then
    registry w' = registry w ∧ w_module_head w' = w_module_head w ∧
    w_native w' = w_native w
  else
    ∃ m s rest,
      records_for w' (JObject (w_global w)) s = (m, s) :: rest ∧
      module m = v ∧
      (registry w' = registry w ∨ registry w' = (m, s) :: registry w).
Proof.
  intros Hwf Hres.
  pose proof (resolve_preserves _ _ _ _ _ _ Hwf Hres) as (Hwf' & _).
  destruct (resolve_value _ _ _ _ _ _ Hwf Hres)
    as [(m & s & Hfind & <- & Hkept)|[Herr|Hnew]].
  - (* a cached module *)
    destruct Hkept as (Hreg & Hhead & _ & Hnat & _).
    destruct (jerry_value_is_error (module m)); [by split_and!|].
    rewrite find_records_for in Hfind.
    destruct (records_for w (JObject (w_global w)) s)
      as [|r rest] eqn:Hrec; [done|].
    simpl in Hfind. injection Hfind as ->.
    exists m, s, rest. split_and!; [|done|by left].
    unfold records_for in *. by rewrite Hreg.
  - (* an error *)
    destruct Herr as (-> & ?). done.
  - (* a new module *)
    destruct Hnew as (-> & m & s & Hreg & Hmod & Hrealm & Hfind).
    exists m, s,
      (List.filter (record_matches (JObject (w_global w)) s) (registry w)).
    split_and!; [|done|by right].
    unfold records_for. rewrite Hreg. simpl.
    unfold record_matches at 1, record_key. simpl. rewrite Hrealm.
    by rewrite bool_decide_eq_true_2.
Qed.
End Results.

Lemma resolve_result_is_registered_witness :
  @jerry_port_module_resolve posix (JString "./bad.js") (JObject 100) 0
    demo_loaded
    = Some (JError JERRY_ERROR_SYNTAX "Unexpected token", demo_after_bad) ∧
  registry demo_after_bad = registry demo_loaded ∧
  w_native demo_after_bad = w_native demo_loaded.
Proof.
  assert (Hwf : well_formed demo_loaded) by compute_done.
  assert (Hrun : @jerry_port_module_resolve posix (JString "./bad.js")
                   (JObject 100) 0 demo_loaded
                 = Some (JError JERRY_ERROR_SYNTAX "Unexpected token",
                         demo_after_bad)) by (vm_compute; reflexivity).
  pose proof (resolve_result_is_registered _ _ _ _ _ _ Hwf Hrun) as Hkept.
  cbn [jerry_value_is_error] in Hkept.
  destruct Hkept as (Hreg & _ & Hnat). by split_and!.
Defined.

Section LostSpecifier.
Context `{Platform}.

(** X11. When the path cannot be allocated, [jerry_port_module_resolve]
    returns the "Out of memory" error without freeing the copy of the
    specifier it made: the copy is the one block the call adds to the
    heap, it is still live when the call returns, and no record owns it.
    The registry, the native pointers and the trace are as before. *)
Theorem out_of_memory_keeps_specifier specifier referrer user_p w in_p len
    w1 :
  well_formed w →
  resolve_path specifier referrer w = Some ((in_p, len, None), w1) →
  jerry_port_module_resolve specifier referrer user_p w =
    Some (jerry_create_error JERRY_ERROR_COMMON "Out of memory", w1) ∧
  false ∈ w_malloc w ∧
  w_heap w !! in_p = None ∧
  w_heap w1 = <[in_p := Chars (jerry_string_utf8 specifier)]> (w_heap w) ∧
  (in_p ∉ footprint (w_heap w1) (w_module_head w1)) ∧
  ¬ owned_only w1 ∧
  registry w1 = registry w ∧ w_native w1 = w_native w ∧
  events_of w w1 = [].
Proof.
  intros Hwf E.
  pose proof (resolve_without_path _ _ user_p _ _ _ _ E) as Hres.
  pose proof (resolve_path_result _ _ _ _ _ (proj1 Hwf) E) as Hpost1.
  destruct Hpost1 as (-> & _ & Hun & _ & _ & _ & Hheap1 & _).
  destruct (resolve_effect _ _ _ _ _ _ Hwf Hres)
    as (Hwf' & _ & [Hkept|[Hoom|Hnew]]).
  - destruct Hkept as (_ & _ & Hheap & _). exfalso.
    pose proof (heap_below_free w (proj1 Hwf) (w_brk w)) as Hfree.
    apply (f_equal (λ h, h !! w_brk w)) in Hheap1.
    rewrite Hheap, lookup_insert_eq, Hfree in Hheap1 by lia. done.
  - destruct Hoom as (_ & Hfail & Hfresh & Hheap & Hreg & Hhead & Hnat & _
                      & Htrace).
    assert (Hout : w_brk w ∉ footprint (w_heap w1) (w_module_head w1)).
    { intros Hin. destruct Hwf' as [_ [Hall _]].
      rewrite Hhead in Hin.
      rewrite (footprint_ext (w_heap w)) in Hin.
      - destruct (footprint_live _ _ _ (proj1 (proj2 Hwf)) Hin) as [b Hb].
        congruence.
      - apply record_at_agree; [by destruct Hwf as [_ [? _]]|].
        intros a Ha. rewrite Hheap.
        rewrite lookup_insert_ne; [done|]. intros <-.
        destruct (footprint_live _ _ _ (proj1 (proj2 Hwf)) Ha) as [b Hb].
        congruence. }
    split_and!; try done.
    + intros Hown. apply Hout, Hown. rewrite Hheap, lookup_insert_eq. eauto.
    + apply events_of_app. by rewrite app_nil_r.
  - by destruct Hnew as [? _].
Qed.
End LostSpecifier.

Lemma out_of_memory_keeps_specifier_witness :
  ∃ w1,
    @jerry_port_module_resolve posix (JString "math.js") JUndefined 0
      demo_no_path
      = Some (jerry_create_error JERRY_ERROR_COMMON "Out of memory", w1) ∧
    w_heap w1 = <[1%N := Chars "math.js"]> ∅.
Proof.
  destruct (@out_of_memory_keeps_specifier posix (JString "math.js")
              JUndefined 0 demo_no_path 1 7
              (state_after (@resolve_path posix (JString "math.js")
                              JUndefined) demo_no_path))
    as (Hres & _ & _ & Hheap & _).
  - compute_done.
  - by vm_compute.
  - eexists. split; [exact Hres|]. by rewrite Hheap.
Defined.

(** ** Blocks that are lost, and blocks that are not *)

Lemma footprint_grown (w : world) (h' : gmap N block) (a : N) :
  well_formed w →
  (∀ b, is_Some (w_heap w !! b) → h' !! b = w_heap w !! b) →
  a ∈ footprint (w_heap w) (w_module_head w) →
  a ∈ footprint h' (w_module_head w).
Proof.
  intros [_ [Hall _]] Hagree Ha.
  rewrite (footprint_ext (w_heap w) h'); [done|].
  apply record_at_agree; [done|].
  intros b Hb. apply Hagree. by eapply footprint_live.
Qed.

Section Leaks.
Context `{Platform}.

Lemma resolve_owned specifier referrer user_p w v w' :
  well_formed w →
  owned_only w →
  (false ∉ w_malloc w) →
  jerry_port_module_resolve specifier referrer user_p w = Some (v, w') →
  owned_only w'.
Proof.
  intros Hwf Hown Hplan Hres.
  destruct (resolve_effect _ _ _ _ _ _ Hwf Hres)
    as (Hwf' & _ & [Hkept|[Hoom|Hnew]]).
  - destruct Hkept as (_ & Hhead & Hheap & _).
    unfold owned_only. by rewrite Hheap, Hhead.
  - by destruct Hoom as (_ & ? & _).
  - destruct Hnew as (_ & node & new_p & path & Hnew). simpl in Hnew.
    destruct Hnew as (Hhead & _ & Hnode & Hnew_p & Hheap & _).
    intros a Ha. rewrite Hhead. simpl. apply elem_of_app.
    destruct Hwf' as [_ [Hall _]]. rewrite Hhead in Hall.
    apply Forall_cons in Hall as [[[m s] Hrec] _].
    pose proof Hrec as Hrec'. apply record_at_Some in Hrec' as [Hm _].
    rewrite Hheap, lookup_insert_eq in Hm. injection Hm as <-.
    unfold blocks_of. rewrite Hrec. simpl.
    destruct (decide (a = node)) as [->|Hne1];
      [left; apply elem_of_cons; by left|].
    destruct (decide (a = new_p)) as [->|Hne2];
      [left; apply elem_of_cons; right; apply elem_of_cons; by left|].
    right. rewrite Hheap in Ha.
    rewrite !lookup_insert_ne in Ha by done.
    apply footprint_grown; [done| |by apply Hown].
    intros b Hb. rewrite Hheap.
    rewrite !lookup_insert_ne; [done| |].
    + intros ->. rewrite Hnew_p in Hb. by destruct Hb.
    + intros ->. rewrite Hnode in Hb. by destruct Hb.
Qed.

(** X12. No step of the port loses a block unless an allocation fails.
    When every live block is a node of the chain or the path buffer of
    one, the same holds after a call of [jerry_port_module_resolve] in
    which the allocations succeed, whether it returns a cached module, an
    error or a new module (its temporary buffers and the source buffer
    are freed, and the path buffer is owned by the new record), and after
    every call of [jerry_port_module_release] (the node and the path
    buffer of a record are freed together). *)
Theorem port_loses_no_block (w w' : world) :
  well_formed w →
  owned_only w →
  (false ∉ w_malloc w) →
  port_step w w' →
  well_formed w' ∧ owned_only w'.
Proof.
  intros Hwf Hown Hplan Hstep.
  destruct Hstep as [w s r u v w' Hres|w rv w' Hrel|w w' Hhost].
  - split; [|by eapply resolve_owned].
    by destruct (resolve_preserves _ _ _ _ _ _ Hwf Hres).
  - destruct (module_free_owned rv w w' Hwf Hrel) as (Hwf' & Hsame & Hkeep).
    split; [done|]. intros a Ha. apply Hkeep; [|done].
    apply Hown. rewrite <- Hsame; done.
  - destruct (host_step_well_formed _ _ Hwf Hhost) as [Hwf' _].
    split; [done|]. destruct Hhost as (Hheap & _ & Hhead & _).
    unfold owned_only. by rewrite Hheap, Hhead.
Qed.
End Leaks.

Lemma port_loses_no_block_witness :
  well_formed demo_loaded ∧ owned_only demo_loaded.
Proof.
  apply (@port_loses_no_block posix boot demo_loaded).
  - compute_done.
  - compute_done.
  - compute_done.
  - by apply (step_resolve boot (JString "math.js") JUndefined 0 (JObject 100)).
Defined.

(** ** Releasing twice, and releasing nothing *)

(** X13. A release that matches no record changes nothing: when the value
    is an object and no record has it as its realm,
    [jerry_port_module_release] returns and the whole state, heap, chain
    and trace included, is as before. So a release is idempotent: right
    after a release, of a realm or of everything, a second release with
    the same value changes nothing. *)
Theorem release_is_idempotent (realm_v : jerry_value_t) (w : world) :
  well_formed w →
  (jerry_value_is_object realm_v = true →
   List.filter (in_realm realm_v) (registry w) = [] →
   jerry_port_module_release realm_v w = Some (tt, w)) ∧
  ∀ w1,
    jerry_port_module_release realm_v w = Some (tt, w1) →
    jerry_port_module_release realm_v w1 = Some (tt, w1).
Proof.
  intros Hwf.
  assert (Hnone : ∀ w0, well_formed w0 →
            List.filter
              (released (negb (jerry_value_is_object realm_v)) realm_v)
              (registry w0) = [] →
            jerry_port_module_release realm_v w0 = Some (tt, w0)).
  { intros w0 Hwf0 Hempty. apply module_free_nothing; [done|].
    intros p Hp. destruct Hwf0 as [_ [Hall _]].
    rewrite Forall_forall in Hall. destruct (Hall p Hp) as [[m s] Hr].
    unfold node_released. rewrite Hr.
    destruct (released _ realm_v (m, s)) eqn:Hrel; [|done].
    exfalso. eapply elem_of_nil. rewrite <- Hempty.
    apply elem_of_filter_bool. split; [|done].
    by eapply elem_of_registry. }
  split.
  - intros Hobj Hempty. apply Hnone; [done|].
    rewrite Hobj. simpl. done.
  - intros w1 Hrel.
    destruct (module_free_spec realm_v w Hwf)
      as (w' & Hrun & Hwf' & Hreg & _).
    unfold jerry_port_module_release in Hrel.
    rewrite Hrun in Hrel. injection Hrel as <-.
    apply Hnone; [done|]. simpl in Hreg. rewrite Hreg.
    apply filter_none. intros r [_ Hr]%elem_of_filter_bool.
    by apply negb_true_iff.
Qed.

Lemma release_is_idempotent_witness :
  ∃ w1,
    jerry_port_module_release (JObject 7) demo_two_realms = Some (tt, w1) ∧
    jerry_port_module_release (JObject 7) w1 = Some (tt, w1) ∧
    jerry_port_module_release (JObject 9) demo_two_realms
      = Some (tt, demo_two_realms).
Proof.
  destruct (release_is_idempotent (JObject 7) demo_two_realms)
    as [_ Htwice]; [compute_done|].
  destruct (release_is_idempotent (JObject 9) demo_two_realms)
    as [Hnone _]; [compute_done|].
  eexists. split; [by vm_compute|]. split.
  - apply Htwice. by vm_compute.
  - apply Hnone; [done|compute_done].
Defined.

(** ** Resolving after a release *)

Section AfterRelease.
Context `{Platform}.

(** X14. A release empties the cache of the realm: after
    [jerry_port_module_release] with the current realm, or with a value
    that is no object, the next call of the resolver finds no record
    whatever the path, reads the file of the path once, and when it
    returns a module it is a module parsed anew, registered under the
    path as the one record of the realm. *)
Theorem release_invalidates_cache specifier referrer user_p realm_v
    w w0 in_p len new_p w1 path v w' :
  well_formed w →
  jerry_value_is_object realm_v = false ∨ realm_v = JObject (w_global w) →
  jerry_port_module_release realm_v w = Some (tt, w0) →
  resolve_path specifier referrer w0 = Some ((in_p, len, Some new_p), w1) →
  w_heap w1 !! new_p = Some (Chars path) →
  jerry_port_module_resolve specifier referrer user_p w0 = Some (v, w') →
  List.filter is_read (events_of w0 w') = [EvReadSource (cstr path)] ∧
  (jerry_value_is_error v = false →
   v = JObject (w_objects w0) ∧
   (∃ source,
      source_of w1 (cstr path) = Some source ∧
      List.filter is_parse (events_of w0 w') =
        [EvParse source (jerry_string_utf8 specifier)]) ∧
   ∃ m s, records_for w' (JObject (w_global w)) path = [(m, s)] ∧
          module m = v ∧ cstr s = cstr path).
Proof.
  intros Hwf Hkind Hrel E Hpath Hres.
  destruct (module_free_spec realm_v w Hwf)
    as (w0' & Hrun & Hwf0 & Hreg & _ & _ & _ & _ & _ & _ & _ & Hglobal & _).
  unfold jerry_port_module_release in Hrel.
  rewrite Hrun in Hrel. injection Hrel as ->. simpl in Hreg.
  assert (Hnone : records_for w0 (JObject (w_global w)) path = []).
  { unfold records_for. rewrite Hreg. apply filter_none.
    intros [m s] [_ Hkeep]%elem_of_filter_bool.
    apply negb_true_iff in Hkeep. unfold released in Hkeep.
    apply orb_false_iff in Hkeep as [Hall Hrealm].
    destruct Hkind as [Hno| ->]; [by rewrite Hno in Hall|].
    unfold in_realm in Hrealm. apply bool_decide_eq_false in Hrealm.
    unfold record_matches, record_key. apply bool_decide_eq_false.
    simpl in *. congruence. }
  pose proof (resolve_located _ _ _ _ _ _ _ _ _ _ _ Hwf0 E Hpath Hres)
    as (Hwf' & _ & Hcases).
  rewrite Hglobal in Hcases.
  rewrite find_records_for, Hnone in Hcases. simpl in Hcases.
  destruct (source_of w1 (cstr path)) as [source|].
  2:{ destruct Hcases as (-> & _ & message & ->). by split. }
  destruct (parse_module source _) as [[kind message]|].
  { destruct Hcases as (-> & _ & ->). by split. }
  destruct Hcases as (-> & node & _ & Hreg' & _ & _ & _ & _ & _ & ->).
  split; [done|]. intros _. split; [done|]. split; [by eauto|].
  eexists _, path. unfold records_for in *. rewrite Hreg'. simpl.
  unfold record_matches at 1, record_key. simpl.
  rewrite bool_decide_eq_true_2 by done.
  rewrite Hnone. done.
Qed.
End AfterRelease.

Lemma release_invalidates_cache_witness :
  jerry_port_module_release (JObject 7) demo_loaded
    = Some (tt, demo_released) ∧
  @jerry_port_module_resolve posix (JString "math.js") JUndefined 0
    demo_released = Some (JObject 101, demo_reloaded) ∧
  List.filter is_parse (events_of demo_released demo_reloaded)
    = [EvParse "1+1" "math.js"].
Proof.
  assert (Hwf : well_formed demo_loaded) by compute_done.
  assert (Hrel : jerry_port_module_release (JObject 7) demo_loaded
                 = Some (tt, demo_released)) by (vm_compute; reflexivity).
  assert (Hpath : @resolve_path posix (JString "math.js") JUndefined
                    demo_released
                  = Some ((7%N, 7, Some 10%N), demo_released_located))
    by (vm_compute; reflexivity).
  assert (Hres : @jerry_port_module_resolve posix (JString "math.js")
                   JUndefined 0 demo_released
                 = Some (JObject 101, demo_reloaded))
    by (vm_compute; reflexivity).
  assert (Hheap : w_heap demo_released_located !! 10%N
                  = Some (Chars "/lib/math.js")) by (vm_compute; reflexivity).
  destruct (release_invalidates_cache _ _ 0 _ _ _ _ _ _ _ _ _ _
              Hwf (or_intror eq_refl) Hrel Hpath Hheap Hres)
    as (_ & Hnew).
  destruct (Hnew eq_refl) as (_ & (source & Hsrc & Hparse) & _).
  split_and!; [done..|].
  assert (Hsource : source_of demo_released_located (cstr "/lib/math.js")
                    = Some "1+1"%string) by (vm_compute; reflexivity).
  rewrite Hsource in Hsrc. injection Hsrc as <-. exact Hparse.
Defined.

(** ** An import and the release of its realm *)

Section RoundTrip.
Context `{Platform}.

(** X15. Importing into a realm without records and then releasing the
    realm is a round trip. When [jerry_port_module_resolve] returns a
    module in a realm that had no record, a release of that realm right
    after frees the node and the path buffer the import allocated and
    releases the two references it took, to the realm and to the module:
    the heap, the chain and the registry are what they were before the
    import. *)
Theorem import_then_release_restores specifier referrer user_p w v w1 :
  well_formed w →
  List.filter (in_realm (JObject (w_global w))) (registry w) = [] →
  jerry_port_module_resolve specifier referrer user_p w = Some (v, w1) →
  jerry_value_is_error v = false →
  ∃ w2,
    jerry_port_module_release (JObject (w_global w)) w1 = Some (tt, w2) ∧
    w_heap w2 = w_heap w ∧
    w_module_head w2 = w_module_head w ∧
    registry w2 = registry w ∧
    events_of w1 w2 = [EvRelease (JObject (w_global w)); EvRelease v].
Proof.
  intros Hwf Hnone Hres Hok.
  set (g := JObject (w_global w)) in *.
  assert (Hgrow : registry w1 ≠ registry w).
  { destruct (resolve_value _ _ _ _ _ _ Hwf Hres)
      as [(m0 & s0 & Hfind & _)|[Herr|Hnew]].
    - exfalso. apply find_some in Hfind as [Hin Hmatch].
      eapply elem_of_nil. rewrite <- Hnone.
      apply elem_of_filter_bool. split; [by apply list_elem_of_In|].
      unfold record_matches, record_key in Hmatch.
      apply bool_decide_eq_true in Hmatch. unfold in_realm.
      apply bool_decide_eq_true. unfold g. simpl in *. congruence.
    - destruct Herr as (Herr & _). congruence.
    - destruct Hnew as (_ & m0 & s0 & Hreg0 & _). rewrite Hreg0.
      intros Heq. apply (f_equal List.length) in Heq. simpl in Heq. lia. }
  destruct (resolve_effect _ _ _ _ _ _ Hwf Hres)
    as (Hwf1 & _ & [Hkept|[Hoom|Hnew]]).
  { by destruct Hkept as (? & _). }
  { by destruct Hoom as (_ & _ & _ & _ & ? & _). }
  destruct Hnew as (-> & node & new_p & path & Hnew). fold g in Hnew.
  simpl in Hnew.
  destruct Hnew as (Hhead & Hreg & Hnode & Hnew_p & Hheap & _).
  set (m := {| path_p := new_p;
               base_path_length := jerry_port_get_directory_end path;
               realm := g; module := JObject (w_objects w) |}) in *.
  destruct (module_free_exact g w1 Hwf1) as (w2 & Hrun & Hpost).
  destruct (module_free_spec g w1 Hwf1)
    as (w2' & Hrun' & _ & Hreg2 & _ & _ & _ & Htrace & _).
  simpl in Hrun'. rewrite Hrun in Hrun'. injection Hrun' as <-.
  simpl in Hpost, Hreg2, Htrace.
  destruct Hpost as (Hhead2 & Hheap2 & _).
  (* the records of the chain before the import *)
  assert (Hold : ∀ p, p ∈ w_module_head w →
            record_at (w_heap w1) p = record_at (w_heap w) p ∧
            node_released (w_heap w1) false g p = false).
  { intros p Hp.
    assert (Hagree : record_at (w_heap w1) p = record_at (w_heap w) p).
    { apply (record_at_agree (w_heap w) (w_heap w1) (w_module_head w));
        [by destruct Hwf as [_ [? _]]| |done].
      intros a Ha.
      destruct (footprint_live _ _ _ (proj1 (proj2 Hwf)) Ha) as [b Hb].
      rewrite Hheap, !lookup_insert_ne; [done| |]; congruence. }
    split; [done|]. unfold node_released. rewrite Hagree.
    destruct Hwf as [_ [Hall _]]. rewrite Forall_forall in Hall.
    destruct (Hall p Hp) as [[m' s'] Hr]. rewrite Hr.
    pose proof (elem_of_registry w p m' s' Hp Hr) as Hin.
    unfold released. simpl.
    destruct (in_realm g (m', s')) eqn:Hrealm; [|done].
    exfalso. eapply elem_of_nil. rewrite <- Hnone.
    by apply elem_of_filter_bool. }
  assert (Hnew_rec : record_at (w_heap w1) node = Some (m, path)).
  { destruct Hwf1 as [_ [Hall _]]. rewrite Hhead in Hall.
    apply Forall_cons in Hall as [[[m' s'] Hr] _].
    pose proof Hr as Hr'. apply record_at_Some in Hr' as [Hm Hs].
    rewrite Hheap, lookup_insert_eq in Hm. injection Hm as <-.
    assert ((m, s') ∈ registry w1).
    { apply (elem_of_registry w1 node); [|done].
      rewrite Hhead. apply elem_of_cons. by left. }
    unfold registry in Hreg. rewrite Hhead in Hreg. simpl in Hreg.
    rewrite Hr in Hreg. by injection Hreg as ->. }
  assert (Hgone : List.filter (node_released (w_heap w1) false g)
                    (w_module_head w1) = [node]).
  { rewrite Hhead. simpl. unfold node_released at 1. rewrite Hnew_rec.
    unfold released, in_realm. simpl.
    rewrite bool_decide_eq_true_2 by done. f_equal.
    apply filter_none. intros p Hp. by apply Hold. }
  assert (Hkeep : List.filter
                    (λ p, negb (node_released (w_heap w1) false g p))
                    (w_module_head w1) = w_module_head w).
  { rewrite Hhead. simpl. unfold node_released at 1. rewrite Hnew_rec.
    unfold released, in_realm. simpl.
    rewrite bool_decide_eq_true_2 by done. simpl.
    apply filter_all. intros p Hp.
    destruct (Hold p Hp) as [_ ->]. done. }
  exists w2. split; [done|].
  assert (Hheap_back : w_heap w2 = w_heap w).
  { apply map_eq. intros a. rewrite Hheap2, Hgone. simpl.
    unfold blocks_of. rewrite Hnew_rec. simpl.
    case_bool_decide as Ha.
    - simpl in Ha.
      apply elem_of_cons in Ha as [->|Ha]; [done|].
      apply elem_of_cons in Ha as [->|Ha]; [done|].
      by apply elem_of_nil in Ha.
    - simpl in Ha. rewrite Hheap.
      rewrite !lookup_insert_ne; [done| |].
      + intros <-. apply Ha. rewrite !elem_of_cons. auto.
      + intros <-. apply Ha. rewrite !elem_of_cons. auto. }
  split_and!; try done.
  - rewrite Hhead2, Hkeep. done.
  - unfold registry. rewrite Hheap_back. rewrite Hhead2, Hkeep. done.
  - rewrite (events_of_app _ _ _ Htrace). rewrite Hreg. simpl.
    unfold in_realm at 1. simpl.
    rewrite bool_decide_eq_true_2 by done. simpl.
    rewrite filter_none; [done|].
    intros r Hr. unfold released. simpl.
    destruct (in_realm g r) eqn:Hrealm; [|done].
    exfalso. eapply elem_of_nil. rewrite <- Hnone.
    by apply elem_of_filter_bool.
Qed.
End RoundTrip.

Lemma import_then_release_restores_witness :
  ∃ w2,
    jerry_port_module_release (JObject 7) demo_loaded = Some (tt, w2) ∧
    w_heap w2 = ∅ ∧ w_module_head w2 = [].
Proof.
  destruct (@import_then_release_restores posix (JString "math.js")
              JUndefined 0 boot (JObject 100) demo_loaded)
    as (w2 & Hrel & Hheap & Hhead & _).
  - compute_done.
  - done.
  - by vm_compute.
  - done.
  - exists w2. by split_and!.
Defined.

(** ** Native pointers after a release *)

Section Dangling.
Context `{Platform}.

(** X16. [jerry_port_module_free] frees a record without touching the
    native pointer that the resolver set on its module: after a release
    the native pointers are as before, so the module of a released record
    still points to the freed node. A later call of the resolver with
    that module as referrer reads the record through this pointer, that
    is, a block that is live no more: the call has no defined result. *)
Theorem release_leaves_native_pointer (realm_v referrer : jerry_value_t)
    (w w0 : world) (node : N) (m : jerry_port_module_t) (s : string) :
  well_formed w →
  native_of w referrer = Some node →
  node ∈ w_module_head w →
  record_at (w_heap w) node = Some (m, s) →
  jerry_value_is_object realm_v = false ∨ realm m = realm_v →
  jerry_port_module_release realm_v w = Some (tt, w0) →
  w_native w0 = w_native w ∧
  native_of w0 referrer = Some node ∧
  w_heap w0 !! node = None ∧
  ∀ specifier user_p,
    jerry_port_module_resolve specifier referrer user_p w0 = None.
Proof.
  intros Hwf Hnative Hnode Hr Hkind Hrel.
  destruct (module_free_spec realm_v w Hwf)
    as (w' & Hrun & _ & _ & _ & Hgone & _ & _ & _ & Hnat & _).
  unfold jerry_port_module_release in Hrel.
  rewrite Hrun in Hrel. injection Hrel as ->.
  destruct (Hgone node m s Hnode Hr) as (Hfreed & _).
  { unfold released, in_realm. simpl.
    destruct Hkind as [->| ->]; [done|].
    rewrite bool_decide_eq_true_2 by done. apply orb_true_r. }
  assert (Hnative0 : native_of w0 referrer = Some node).
  { unfold native_of in *. by rewrite Hnat. }
  split_and!; try done.
  intros specifier user_p.
  unfold jerry_port_module_resolve, resolve_path.
  cbv [mbind M_bind].
  assert (Hget : jerry_get_object_native_pointer referrer w0
                 = Some (Some node, w0)).
  { unfold native_of in Hnative0. destruct referrer; try done.
    simpl. unfold gets. by rewrite Hnative0. }
  rewrite Hget. unfold load_module, load. cbv [mbind M_bind].
  by rewrite Hfreed.
Qed.
End Dangling.

Lemma release_leaves_native_pointer_witness :
  ∃ w0,
    jerry_port_module_release (JObject 7) demo_loaded = Some (tt, w0) ∧
    native_of w0 (JObject 100) = Some 6%N ∧
    w_heap w0 !! 6%N = None ∧
    @jerry_port_module_resolve posix (JString "./math.js") (JObject 100) 0
      w0 = None.
Proof.
  eexists. split; [by vm_compute|].
  match goal with |- native_of ?w0 _ = _ ∧ _ =>
    destruct (@release_leaves_native_pointer posix (JObject 7) (JObject 100)
                demo_loaded w0 6
                {| path_p := 4; base_path_length := 5;
                   realm := JObject 7; module := JObject 100 |}
                "/lib/math.js")
      as (_ & Hnative & Hfreed & Hcrash)
  end.
  - compute_done.
  - by vm_compute.
  - compute_done.
  - by vm_compute.
  - by right.
  - by vm_compute.
  - split_and!; [done..|]. apply Hcrash.
Defined.

(** ** The manager of the registry *)

(** X17. [jerry_port_module_manager_deinit] returns on every well-formed
    registry and leaves the chain empty: the node and the path buffer of
    every record are freed, whatever its realm, after the references to
    its realm and to its module were released, in the order of the chain;
    last, the undefined value is released. No other block is touched, so
    that when every live block belonged to a record the heap is empty
    afterwards. After [jerry_port_module_manager_init] the chain is empty
    and the heap untouched: the records of a chain that is initialised
    again are not freed. *)
Theorem manager_deinit_frees_all (w : world) :
  well_formed w →
  ∃ w',
    jerry_port_module_manager_deinit w = Some (tt, w') ∧
    w_module_head w' = [] ∧ registry w' = [] ∧
    (∀ a, w_heap w' !! a =
          if bool_decide (a ∈ footprint (w_heap w) (w_module_head w))
          then None else w_heap w !! a) ∧
    events_of w w' =
      flat_map release_events (registry w) ++ [EvRelease JUndefined] ∧
    w_native w' = w_native w ∧
    (owned_only w → w_heap w' = ∅) ∧
    ∃ w0,
      jerry_port_module_manager_init w = Some (tt, w0) ∧
      w_module_head w0 = [] ∧ w_heap w0 = w_heap w.
Proof.
  intros Hwf.
  destruct (module_free_everything JUndefined w Hwf eq_refl)
    as (w1 & Hrun & _ & Hhead & Hheap & Htrace & _ & Hnat & _).
  unfold jerry_port_module_manager_deinit, jerry_create_undefined.
  cbv [mbind M_bind]. rewrite Hrun.
  eexists. split; [reflexivity|]. wsimpl.
  split_and!; try done.
  - unfold registry. wsimpl. by rewrite Hhead.
  - apply events_of_app. wsimpl. by rewrite Htrace, <- app_assoc.
  - intros Hown. apply map_eq. intros a. rewrite Hheap, lookup_empty.
    case_bool_decide as Hin; [done|].
    destruct (w_heap w !! a) as [b|] eqn:Hb; [|done].
    exfalso. apply Hin, Hown. eauto.
  - by eexists.
Qed.

Lemma manager_deinit_frees_all_witness :
  ∃ w',
    jerry_port_module_manager_deinit demo_two_realms = Some (tt, w') ∧
    w_module_head w' = [] ∧ w_heap w' = ∅.
Proof.
  destruct (manager_deinit_frees_all demo_two_realms)
    as (w' & Hrun & Hhead & _ & _ & _ & _ & Hempty & _).
  - compute_done.
  - exists w'. split_and!; [done..|]. apply Hempty. compute_done.
Defined.

(** ** Runs of the port *)

Section RunsOfThePort.
Context `{Platform}.

(** X18. In every state reached from an empty registry by calls of the
    resolver, releases and steps of the host, each node of the chain is a
    live record whose path buffer is live and is another block; no block
    belongs to two records; the base path of a record ends where the
    directory of its path ends, within the text of the path; and the realm
    and the module of a record are objects, never an error value. *)
Theorem records_of_a_run (w : world) :
  reachable w →
  NoDup (footprint (w_heap w) (w_module_head w)) ∧
  ∀ p, p ∈ w_module_head w →
    ∃ m s,
      w_heap w !! p = Some (Module m) ∧
      w_heap w !! path_p m = Some (Chars s) ∧
      p ≠ path_p m ∧
      base_path_length m = jerry_port_get_directory_end s ∧
      base_path_length m ≤ strlen s ∧
      jerry_value_is_object (realm m) = true ∧
      jerry_value_is_object (module m) = true ∧
      jerry_value_is_error (module m) = false.
Proof.
  intros Hreach.
  destruct (reachable_records w Hreach) as [Hwf Hrec].
  destruct Hwf as [Hb [Hall Hnd]]. split; [done|].
  intros p Hp. rewrite Forall_forall in Hall.
  destruct (Hall p Hp) as [[m s] Hr].
  pose proof (elem_of_registry w p m s Hp Hr) as Hin.
  pose proof (proj1 (Forall_forall _ _) Hrec _ Hin) as (Hlen & Hrealm & Hmod).
  simpl in Hlen, Hrealm, Hmod.
  pose proof Hr as Hr'. apply record_at_Some in Hr' as [Hm Hs].
  exists m, s. split_and!; try done.
  - intros Heq. rewrite <- Heq, Hm in Hs. done.
  - rewrite Hlen. apply directory_end_le.
  - by destruct (module m).
Qed.

(** X19. Calls of the port are safe on the states of a run. A release
    returns for every value, and so does
    [jerry_port_module_manager_deinit]: no node is freed twice and no
    freed node is read. The resolver returns when no allocation fails and
    the record attached to the referrer, if there is one, is still in the
    chain. *)
Theorem port_is_safe_on_runs (w : world) :
  reachable w →
  (∀ realm_v,
     ∃ w', jerry_port_module_release realm_v w = Some (tt, w') ∧
           reachable w') ∧
  (∃ w', jerry_port_module_manager_deinit w = Some (tt, w')) ∧
  (∀ specifier referrer user_p,
     (false ∉ w_malloc w) →
     (∀ p, native_of w referrer = Some p → p ∈ w_module_head w) →
     ∃ v w',
       jerry_port_module_resolve specifier referrer user_p w
         = Some (v, w') ∧
       reachable w').
Proof.
  intros Hreach.
  destruct (reachable_records w Hreach) as [Hwf Hrec].
  split_and!.
  - intros realm_v.
    destruct (module_free_spec realm_v w Hwf) as (w' & Hrun & _).
    exists w'. split; [done|].
    destruct Hreach as (w0 & Hinit & Hsteps). exists w0. split; [done|].
    eapply rtc_r; [done|]. by eapply step_release.
  - destruct (module_free_spec JUndefined w Hwf) as (w' & Hrun & _).
    unfold jerry_port_module_manager_deinit, jerry_create_undefined.
    cbv [mbind M_bind]. rewrite Hrun. by eexists.
  - intros specifier referrer user_p Hplan Hreg.
    destruct (resolve_total specifier referrer user_p w Hwf)
      as (v & w' & Hres); [|done|].
    { by apply registered_referrer_ok. }
    exists v, w'. split; [done|].
    destruct Hreach as (w0 & Hinit & Hsteps). exists w0. split; [done|].
    eapply rtc_r; [done|]. by eapply step_resolve.
Qed.
End RunsOfThePort.

Lemma records_of_a_run_witness :
  ∃ m s,
    w_heap demo_two_realms !! 12%N = Some (Module m) ∧
    w_heap demo_two_realms !! path_p m = Some (Chars s) ∧
    base_path_length m = @jerry_port_get_directory_end posix s.
Proof.
  destruct (@records_of_a_run posix demo_two_realms
              demo_two_realms_reachable) as [_ Hrec].
  destruct (Hrec 12%N) as (m & s & ? & ? & _ & ? & _); [compute_done|].
  by exists m, s.
Defined.

Lemma port_is_safe_on_runs_witness :
  ∃ v w',
    @jerry_port_module_resolve posix (JString "./bad.js") (JObject 101) 0
      demo_two_realms = Some (v, w') ∧
    @reachable posix w'.
Proof.
  destruct (@port_is_safe_on_runs posix demo_two_realms
              demo_two_realms_reachable) as (_ & _ & Hresolve).
  apply Hresolve; [compute_done|].
  intros p Hp. vm_compute in Hp. injection Hp as <-. compute_done.
Defined.
